(** * Fingering cost model and dynamic-programming solver

    A shallow embedding of [src/fingering_engine/cost_model.py] and
    [src/fingering_engine/solver.py].

    Conventions of the embedding:
    - Python [float] values are exact rationals ([Qc], canonical fractions,
      so equality of costs is Leibniz equality); [math.inf] is the extra
      element [Inf] of [xcost].  Rounding of binary floating point is not
      modelled.
    - Python [int] values are [Z].
    - Exceptions are values of [exn]; a function that can raise returns
      [result A].
    - A note is a dict with the keys ["pitch"] and ["start"], which the
      docstring of [solve] requires, and an optional ["chord_size"], which
      [solve] reads with [get] and a default.
    - An insertion-ordered Python [dict] whose iteration order matters (the
      DP rows) is an association list in insertion order; the parsed YAML
      mapping, which is only looked up by key, is a [gmap].
    - The configuration file is given by what loading it yields: [None] when
      the path does not exist, [Some cfg] for the parsed top-level mapping. *)

From Stdlib Require Import ZArith QArith Qcanon Qround.
From Stdlib Require Qcabs.
From stdpp Require Import base option list strings gmap pretty numbers sorting.

Local Open Scope Z_scope.

(** ** Exceptions and the error monad *)

Inductive value_error :=
  | MissingKey (key : string)    (* "Missing required key '{key}' in cost config" *)
  | MissingSpan (key : string).  (* "Missing max_comfortable_span entry for finger pair '{key}'" *)

Inductive exn :=
  | FileNotFoundError
  | ValueError (v : value_error)
  | TypeError
  | AttributeError
  | KeyError
  | IndexError.

Inductive result (A : Type) :=
  | Ok (a : A)
  | Raise (e : exn).
Arguments Ok {A} a.
Arguments Raise {A} e.

#[global] Instance result_ret : MRet result := @Ok.
#[global] Instance result_bind : MBind result := λ A B f r,
  match r with
  | Ok a => f a
  | Raise e => Raise e
  end.

Definition is_ok {A} (r : result A) : bool :=
  match r with Ok _ => true | Raise _ => false end.

(** [for x in xs: s = body(s, x)], aborting at the first exception. *)
Fixpoint for_each {A S : Type} (xs : list A) (body : S → A → result S) (s : S)
  : result S :=
  match xs with
  | [] => Ok s
  | x :: xs' => s' ← body s x; for_each xs' body s'
  end.

(** [xs[i]] for a non-negative index. *)
Definition list_item {A} (xs : list A) (i : nat) : result A :=
  match xs !! i with
  | Some x => Ok x
  | None => Raise IndexError
  end.

(** ** Insertion-ordered dictionaries *)

Section dict.
Context {K V : Type} `{EqDecision K}.

(** [d.get(k)] *)
Fixpoint dict_get (d : list (K * V)) (k : K) : option V :=
  match d with
  | [] => None
  | (k', v) :: d' => if decide (k = k') then Some v else dict_get d' k
  end.

(** [d[k] = v]: an existing key keeps its position, a new key goes last. *)
Fixpoint dict_set (d : list (K * V)) (k : K) (v : V) : list (K * V) :=
  match d with
  | [] => [(k, v)]
  | (k', v') :: d' =>
      if decide (k = k') then (k, v) :: d' else (k', v') :: dict_set d' k v
  end.

(** [d[k]] *)
Definition dict_item (d : list (K * V)) (k : K) : result V :=
  match dict_get d k with
  | Some v => Ok v
  | None => Raise KeyError
  end.

(** [tab[i][k] = v] for a list of dictionaries. *)
Definition table_set (tab : list (list (K * V))) (i : nat) (k : K) (v : V)
  : result (list (list (K * V))) :=
  row ← list_item tab i;
  Ok (<[i := dict_set row k v]> tab).
End dict.

(** ** Cost model ([cost_model.py]) *)

(** Values of the parsed YAML mapping: a number, or a mapping from finger-pair
    keys to integers. *)
Inductive yaml :=
  | YNum (q : Qc)
  | YMap (m : gmap string Z).

Abbreviation config_source := (option (gmap string yaml)).

(** [float(v)] *)
Definition py_float (v : yaml) : result Qc :=
  match v with
  | YNum q => Ok q
  | YMap _ => Raise TypeError
  end.

(** [int(v)]: truncation towards zero. *)
Definition py_int (v : yaml) : result Z :=
  match v with
  | YNum q => Ok (Z.quot (Qnum q) (Zpos (Qden q)))
  | YMap _ => Raise TypeError
  end.

Record FingeringCostModel := {
  max_comfortable_span : yaml;
  stretch_weight : Qc;
  crossing_weight : Qc;
  repetition_weight : Qc;
  hand_switch_weight : Qc;
  chord_penalty_weight : Qc;
  weak_finger_weight : Qc;
  split_pitch : Z
}.

Definition required_keys : list string :=
  [ "max_comfortable_span"; "stretch_weight"; "crossing_weight";
    "repetition_weight"; "hand_switch_weight"; "chord_penalty_weight";
    "weak_finger_weight"; "split_pitch" ]%string.

(** The validation loop over [required_keys]. *)
Fixpoint check_required (cfg : gmap string yaml) (keys : list string)
  : result unit :=
  match keys with
  | [] => Ok ()
  | key :: keys' =>
      match cfg !! key with
      | None => Raise (ValueError (MissingKey key))
      | Some _ => check_required cfg keys'
      end
  end.

(** [self._cfg[key]] *)
Definition cfg_item (cfg : gmap string yaml) (key : string) : result yaml :=
  match cfg !! key with
  | Some v => Ok v
  | None => Raise KeyError
  end.

(** [FingeringCostModel.__init__] *)
Definition FingeringCostModel_init (src : config_source)
  : result FingeringCostModel :=
  match src with
  | None => Raise FileNotFoundError
  | Some cfg =>
      _ ← check_required cfg required_keys;
      span ← cfg_item cfg "max_comfortable_span";
      sw ← cfg_item cfg "stretch_weight" ≫= py_float;
      cw ← cfg_item cfg "crossing_weight" ≫= py_float;
      rw ← cfg_item cfg "repetition_weight" ≫= py_float;
      hw ← cfg_item cfg "hand_switch_weight" ≫= py_float;
      pw ← cfg_item cfg "chord_penalty_weight" ≫= py_float;
      ww ← cfg_item cfg "weak_finger_weight" ≫= py_float;
      sp ← cfg_item cfg "split_pitch" ≫= py_int;
      Ok {| max_comfortable_span := span; stretch_weight := sw;
            crossing_weight := cw; repetition_weight := rw;
            hand_switch_weight := hw; chord_penalty_weight := pw;
            weak_finger_weight := ww; split_pitch := sp |}
  end.

Inductive hand := L | R.

#[global] Instance hand_eq_dec : EqDecision hand.
Proof. solve_decision. Defined.

(** The key [f"{lo}_{hi}"] of an unordered finger pair. *)
Definition pair_key (finger_a finger_b : Z) : string :=
  pretty (Z.min finger_a finger_b) +:+ "_" +:+ pretty (Z.max finger_a finger_b).

Section costs.
Variable self : FingeringCostModel.

Definition stretch_cost (finger_a finger_b interval : Z) : result Qc :=
  if decide (finger_a = finger_b) then Ok 0%Qc
  else
    let key := pair_key finger_a finger_b in
    match max_comfortable_span self with
    | YNum _ => Raise AttributeError
    | YMap span =>
        match span !! key with
        | None => Raise (ValueError (MissingSpan key))
        | Some max_span =>
            let excess := interval - max_span in
            if decide (excess ≤ 0) then Ok 0%Qc
            else Ok (Qc_of_Z excess * stretch_weight self)%Qc
        end
    end.

Definition crossing_cost (finger_a finger_b pitch_a pitch_b : Z) : Qc :=
  let pitch_up := bool_decide (pitch_a < pitch_b) in
  let finger_up := bool_decide (finger_a < finger_b) in
  if decide (finger_a = finger_b ∨ pitch_a = pitch_b) then 0%Qc
  else if decide (pitch_up ≠ finger_up) then crossing_weight self
  else 0%Qc.

Definition repetition_cost (finger_a finger_b pitch_a pitch_b : Z) : Qc :=
  if decide (finger_a = finger_b ∧ pitch_a ≠ pitch_b)
  then repetition_weight self else 0%Qc.

Definition hand_switch_cost (hand_a hand_b : hand) : Qc :=
  if decide (hand_a ≠ hand_b) then hand_switch_weight self else 0%Qc.

Definition chord_penalty (chord_size : Z) : Qc :=
  let excess := chord_size - 5 in
  if decide (excess ≤ 0) then 0%Qc
  else (Qc_of_Z excess * chord_penalty_weight self)%Qc.

Definition weak_finger_cost (finger : Z) : Qc :=
  if decide (finger = 4 ∨ finger = 5) then weak_finger_weight self else 0%Qc.

Definition total_cost (finger_a finger_b pitch_a pitch_b : Z)
    (hand_a hand_b : hand) (chord_size : Z) : result Qc :=
  let interval := Z.abs (pitch_b - pitch_a) in
  let cost := 0%Qc in
  cost ←
    (if decide (hand_a = hand_b) then
       s ← stretch_cost finger_a finger_b interval;
       let cost := (cost + s)%Qc in
       let cost := (cost + crossing_cost finger_a finger_b pitch_a pitch_b)%Qc in
       let cost := (cost + repetition_cost finger_a finger_b pitch_a pitch_b)%Qc in
       Ok cost
     else
       Ok (cost + hand_switch_cost hand_a hand_b)%Qc);
  let cost := (cost + chord_penalty chord_size)%Qc in
  let cost := (cost + weak_finger_cost finger_b)%Qc in
  Ok cost.
End costs.

(** ** Solver ([solver.py]) *)

(** Extended costs: a float that may be [math.inf]. *)
Inductive xcost :=
  | Fin (q : Qc)
  | Inf.

(** [c + t] for a finite [t]. *)
Definition xadd (c : xcost) (t : Qc) : xcost :=
  match c with
  | Fin q => Fin (q + t)%Qc
  | Inf => Inf
  end.

(** [a < b] *)
Definition xlt (a b : xcost) : bool :=
  match a, b with
  | Fin x, Fin y => bool_decide (x < y)%Qc
  | Fin _, Inf => true
  | Inf, _ => false
  end.

Definition HANDS : list hand := [L; R].
Definition FINGERS : list Z := [1; 2; 3; 4; 5].

Abbreviation StateKey := (hand * Z)%type.

Record note := {
  n_pitch : Z;
  n_start : Qc;
  n_chord_size : option Z
}.

Record annotation := {
  a_onset_time : Qc;
  a_pitch : Z;
  a_hand : hand;
  a_finger : Z
}.

(** What [solve] uses of the cost-model object: two attributes and two bound
    methods. *)
Record cost_ops := {
  op_split_pitch : Z;
  op_hand_switch_weight : Qc;
  op_weak_finger_cost : Z → Qc;
  op_total_cost : Z → Z → Z → Z → hand → hand → Z → result Qc
}.

Definition ops_of (m : FingeringCostModel) : cost_ops :=
  {| op_split_pitch := split_pitch m;
     op_hand_switch_weight := hand_switch_weight m;
     op_weak_finger_cost := weak_finger_cost m;
     op_total_cost := total_cost m |}.

Abbreviation dp_table := (list (list (StateKey * xcost))).
Abbreviation bp_table := (list (list (StateKey * option StateKey))).

(** [for hand in HANDS: for finger in FINGERS: s = body(s, hand, finger)] *)
Definition for_states {S : Type} (body : S → hand → Z → result S) (s : S)
  : result S :=
  for_each HANDS (λ s hand, for_each FINGERS (λ s finger, body s hand finger) s) s.

Section solver.
Variable cost_model : cost_ops.
Variable notes : list note.

(** Initialisation of the first note. *)
Definition init_first_note (tabs : dp_table * bp_table)
  : result (dp_table * bp_table) :=
  n0 ← list_item notes 0;
  let first_pitch := n_pitch n0 in
  let preferred_hand :=
    if decide (first_pitch ≤ op_split_pitch cost_model) then L else R in
  for_states (λ '(dp, bp) hand finger,
    let bias :=
      if decide (hand = preferred_hand) then 0%Qc
      else (op_hand_switch_weight cost_model * Q2Qc (1 # 2))%Qc in
    let init_cost := (op_weak_finger_cost cost_model finger + bias)%Qc in
    dp ← table_set dp 0 (hand, finger) (Fin init_cost);
    bp ← table_set bp 0 (hand, finger) None;
    Ok (dp, bp)) tabs.

(** The two innermost loops of the forward pass: the scan over the source
    states for one destination state. *)
Definition scan_sources (dp : dp_table) (i : nat) (prev_note cur_note : note)
    (chord_size : Z) (hand_b : hand) (finger_b : Z)
  : result (xcost * option StateKey) :=
  for_states (λ '(best_cost, best_prev) hand_a finger_a,
    prev_row ← list_item dp (i - 1);
    match dict_get prev_row (hand_a, finger_a) with
    | None => Ok (best_cost, best_prev)
    | Some prev_cost =>
        trans ← op_total_cost cost_model finger_a finger_b
                  (n_pitch prev_note) (n_pitch cur_note) hand_a hand_b chord_size;
        let total := xadd prev_cost trans in
        if xlt total best_cost then Ok (total, Some (hand_a, finger_a))
        else Ok (best_cost, best_prev)
    end) (Inf, None).

(** One iteration of [for i in range(1, n)]. *)
Definition forward_step (tabs : dp_table * bp_table) (i : nat)
  : result (dp_table * bp_table) :=
  cur_note ← list_item notes i;
  prev_note ← list_item notes (i - 1);
  let chord_size := default 1 (n_chord_size cur_note) in
  for_states (λ '(dp, bp) hand_b finger_b,
    '(best_cost, best_prev) ←
      scan_sources dp i prev_note cur_note chord_size hand_b finger_b;
    dp ← table_set dp i (hand_b, finger_b) best_cost;
    bp ← table_set bp i (hand_b, finger_b) best_prev;
    Ok (dp, bp)) tabs.

(** The tables after initialisation and forward pass. *)
Definition solve_tables : result (dp_table * bp_table) :=
  let n := length notes in
  let dp : dp_table := replicate n [] in
  let bp : bp_table := replicate n [] in
  tabs ← init_first_note (dp, bp);
  for_each (seq 1 (n - 1)) forward_step tabs.

(** Selection of the best final state over [dp[n - 1].items()]. *)
Definition best_final (row : list (StateKey * xcost)) : xcost * StateKey :=
  fold_left (λ '(best_final_cost, best_final_state) '(state, cost),
               if xlt cost best_final_cost then (cost, state)
               else (best_final_cost, best_final_state))
            row (Inf, (R, 1)).

(** One iteration of the trace loop. *)
Definition trace_step (bp : bp_table) (path : list StateKey) (i : nat)
  : result (list StateKey) :=
  row ← list_item bp i;
  cur ← (match list.last path with Some s => Ok s | None => Raise IndexError end);
  prev ← dict_item row cur;
  let prev_state := default (R, 1) prev in
  Ok (path ++ [prev_state]).

Definition trace_path (bp : bp_table) (best_final_state : StateKey)
  : result (list StateKey) :=
  let n := length notes in
  path ← for_each (reverse (seq 1 (n - 1))) (trace_step bp) [best_final_state];
  Ok (reverse path).

Definition build_result (path : list StateKey) : result (list annotation) :=
  for_each (imap pair notes) (λ result '(i, note),
    '(hand, finger) ← list_item path i;
    Ok (result ++ [ {| a_onset_time := n_start note; a_pitch := n_pitch note;
                       a_hand := hand; a_finger := finger |} ])) [].

(** Forward pass and selection of the best final state. *)
Definition solve_final : result (bp_table * (xcost * StateKey)) :=
  let n := length notes in
  '(dp, bp) ← solve_tables;
  last_row ← list_item dp (n - 1);
  Ok (bp, best_final last_row).

(** The body of [solve] after the cost model is constructed. *)
Definition solve_dp : result (list annotation) :=
  '(bp, (best_final_cost, best_final_state)) ← solve_final;
  path ← trace_path bp best_final_state;
  build_result path.

(** The minimum cumulative cost found by the DP ([best_final_cost]). *)
Definition dp_min_cost : result xcost :=
  '(bp, (best_final_cost, best_final_state)) ← solve_final;
  Ok best_final_cost.
End solver.

(** [solve], with the cost-model class it instantiates as a parameter. *)
Definition solve_with (construct : config_source → result cost_ops)
    (notes : list note) (config_path : config_source)
  : result (list annotation) :=
  match notes with
  | [] => Ok []
  | _ :: _ =>
      cost_model ← construct config_path;
      solve_dp cost_model notes
  end.

Definition build_cost_ops (src : config_source) : result cost_ops :=
  m ← FingeringCostModel_init src; Ok (ops_of m).

Definition solve (notes : list note) (config_path : config_source)
  : result (list annotation) :=
  solve_with build_cost_ops notes config_path.

(** *** A sample configuration and passage, used for sanity checks *)

Definition full_span : gmap string Z :=
  list_to_map
    [ ("1_2", 5); ("1_3", 7); ("1_4", 9); ("1_5", 10); ("2_3", 3);
      ("2_4", 5); ("2_5", 7); ("3_4", 3); ("3_5", 5); ("4_5", 3) ]%string.

Definition sample_cfg_with (span : gmap string Z) : gmap string yaml :=
  list_to_map
    [ ("max_comfortable_span", YMap span);
      ("stretch_weight", YNum (Q2Qc 2));
      ("crossing_weight", YNum (Q2Qc 3));
      ("repetition_weight", YNum (Q2Qc 1));
      ("hand_switch_weight", YNum (Q2Qc 4));
      ("chord_penalty_weight", YNum (Q2Qc 5));
      ("weak_finger_weight", YNum (Q2Qc (1 # 2)));
      ("split_pitch", YNum (Q2Qc 60)) ]%string.

Definition sample_cfg : gmap string yaml := sample_cfg_with full_span.

(** The model constructed from [sample_cfg]. *)
Definition sample_model : FingeringCostModel :=
  {| max_comfortable_span := YMap full_span;
     stretch_weight := Q2Qc 2; crossing_weight := Q2Qc 3;
     repetition_weight := Q2Qc 1; hand_switch_weight := Q2Qc 4;
     chord_penalty_weight := Q2Qc 5;
     weak_finger_weight := Q2Qc (1 # 2); split_pitch := 60 |}.

Definition mk_note (p : Z) (t : Q) (c : option Z) : note :=
  {| n_pitch := p; n_start := Q2Qc t; n_chord_size := c |}.

Definition sample_notes : list note :=
  [ mk_note 60 0 (Some 1); mk_note 64 (1 # 2) (Some 1); mk_note 67 1 (Some 1) ].

(** The same passage with no [chord_size] on the second note. *)
Definition notes_missing_chord : list note :=
  [ mk_note 60 0 (Some 1); mk_note 64 (1 # 2) None; mk_note 67 1 (Some 1) ].

(** ** Valid configurations *)

(** The unordered pairs of distinct fingers. *)
Definition finger_pairs : list (Z * Z) :=
  a ← FINGERS; b ← FINGERS; if decide (a < b) then [(a, b)] else [].

Definition span_covers (span : gmap string Z) : bool :=
  forallb (λ '(a, b), bool_decide (is_Some (span !! pair_key a b))) finger_pairs.

Definition scalar_keys : list string :=
  [ "stretch_weight"; "crossing_weight"; "repetition_weight";
    "hand_switch_weight"; "chord_penalty_weight"; "weak_finger_weight";
    "split_pitch" ]%string.

Definition is_num (v : option yaml) : bool :=
  match v with Some (YNum _) => true | _ => false end.

(** Every required key is present, the scalars are numbers, and the span
    table has an entry for each of the ten finger pairs. *)
Definition valid_cfg (cfg : gmap string yaml) : bool :=
  match cfg !! "max_comfortable_span" with
  | Some (YMap span) => span_covers span
  | _ => false
  end && forallb (λ k, is_num (cfg !! k)) scalar_keys.

Definition valid_config (src : config_source) : bool :=
  match src with
  | Some cfg => valid_cfg cfg
  | None => false
  end.

(** The span table of a constructed model has all ten entries. *)
Definition span_covered (m : FingeringCostModel) : bool :=
  match max_comfortable_span m with
  | YMap span => span_covers span
  | YNum _ => false
  end.

Definition in_range (finger : Z) : Prop := 1 ≤ finger ≤ 5.


(** ** Reference description of the DP tables

    The functions below describe, cell by cell, the tables that the loops of
    [solve] build; the theorems relate the loops to them. *)

(** The ten states in the order of the nested loops over [HANDS] and
    [FINGERS]. *)
Definition STATES : list StateKey := h ← HANDS; f ← FINGERS; [(h, f)].

(** Running first minimum of [f] over [l]: the pair [(best, who)] is replaced
    only by a strictly smaller value. *)
Fixpoint first_min (f : StateKey → Qc) (l : list StateKey)
    (best : Qc) (who : StateKey) : Qc * StateKey :=
  match l with
  | [] => (best, who)
  | x :: l' =>
      if decide (f x < best)%Qc then first_min f l' (f x) x
      else first_min f l' best who
  end.

Definition argmin_states (f : StateKey → Qc) : Qc * StateKey :=
  first_min f (tail STATES) (f (L, 1)) (L, 1).

(** [p] is the first element of [l] at which [f] is minimal: strictly below
    every earlier element, not above any later one. *)
Definition first_argmin (f : StateKey → Qc) (l : list StateKey) (p : StateKey)
  : Prop :=
  ∃ l1 l2, l = l1 ++ p :: l2 ∧
    (∀ q, q ∈ l1 → (f p < f q)%Qc) ∧ (∀ q, q ∈ l2 → (f p ≤ f q)%Qc).

(** Value of a transition cost (0 stands for a raised exception). *)
Definition trans_cost (ops : cost_ops) (prev cur : note) (p s : StateKey) : Qc :=
  match op_total_cost ops (snd p) (snd s) (n_pitch prev) (n_pitch cur)
          (fst p) (fst s) (default 1 (n_chord_size cur)) with
  | Ok q => q
  | Raise _ => 0%Qc
  end.

Definition preferred_hand (ops : cost_ops) (n0 : note) : hand :=
  if decide (n_pitch n0 ≤ op_split_pitch ops) then L else R.

Definition init_cost (ops : cost_ops) (n0 : note) (s : StateKey) : Qc :=
  (op_weak_finger_cost ops (snd s) +
   (if decide (fst s = preferred_hand ops n0) then 0
    else op_hand_switch_weight ops * Q2Qc (1 # 2)))%Qc.

Section tables.
Variable ops : cost_ops.
Variable notes : list note.

Definition trans_at (j : nat) (p s : StateKey) : Qc :=
  match notes !! j, notes !! S j with
  | Some prev, Some cur => trans_cost ops prev cur p s
  | _, _ => 0%Qc
  end.

(** Cumulative cost of the cell [(i, s)]. *)
Fixpoint dp_value (i : nat) (s : StateKey) : Qc :=
  match i with
  | O => match notes !! 0%nat with
         | Some n0 => init_cost ops n0 s
         | None => 0%Qc
         end
  | S j => fst (argmin_states (λ p, dp_value j p + trans_at j p s)%Qc)
  end.

(** Backpointer of the cell [(i, s)]. *)
Definition bp_value (i : nat) (s : StateKey) : option StateKey :=
  match i with
  | O => None
  | S j => Some (snd (argmin_states (λ p, dp_value j p + trans_at j p s)%Qc))
  end.

Definition dp_row (i : nat) : list (StateKey * xcost) :=
  map (λ s, (s, Fin (dp_value i s))) STATES.

Definition bp_row (i : nat) : list (StateKey * option StateKey) :=
  map (λ s, (s, bp_value i s)) STATES.

(** The state chosen for note [i], counting down from the last note. *)
Fixpoint chosen_state (n_minus_1 : nat) (k : nat) : StateKey :=
  match k with
  | O => snd (argmin_states (dp_value n_minus_1))
  | S k' => default (R, 1) (bp_value (n_minus_1 - k') (chosen_state n_minus_1 k'))
  end.

(** The annotations that [solve] returns for a non-empty passage. *)
Definition solution : list annotation :=
  let n := length notes in
  imap (λ i nt,
          let s := chosen_state (n - 1) (n - 1 - i) in
          {| a_onset_time := n_start nt; a_pitch := n_pitch nt;
             a_hand := fst s; a_finger := snd s |}) notes.

(** The tables once rows [0..k] are filled. *)
Definition tables_upto (k : nat) : dp_table * bp_table :=
  let n := length notes in
  (map dp_row (seq 0 (S k)) ++ replicate (n - S k) [],
   map bp_row (seq 0 (S k)) ++ replicate (n - S k) []).
End tables.

(** The operations never raise on fingers 1..5. *)
Definition ops_ok (ops : cost_ops) : Prop :=
  ∀ fa fb pa pb ha hb cs, in_range fa → in_range fb →
    ∃ q, op_total_cost ops fa fb pa pb ha hb cs = Ok q.

(** The common shape of the loop bodies that fill row [i] of both tables:
    compute the cell with [F], then store it. *)
Definition fill_body (F : dp_table → StateKey → result (xcost * option StateKey))
    (i : nat) (tabs : dp_table * bp_table) (k : StateKey)
  : result (dp_table * bp_table) :=
  '(c, b) ← F (fst tabs) k;
  dp ← table_set (fst tabs) i k c;
  bp ← table_set (snd tabs) i k b;
  Ok (dp, bp).

(** ** Vocabulary of the statements *)

(** The six weights of a cost model. *)
Inductive weight :=
  | Stretch | Crossing | Repetition | HandSwitch | ChordPenalty | WeakFinger.

Definition get_weight (w : weight) (m : FingeringCostModel) : Qc :=
  match w with
  | Stretch => stretch_weight m
  | Crossing => crossing_weight m
  | Repetition => repetition_weight m
  | HandSwitch => hand_switch_weight m
  | ChordPenalty => chord_penalty_weight m
  | WeakFinger => weak_finger_weight m
  end.

(** The model with one weight replaced and everything else unchanged. *)
Definition set_weight (w : weight) (v : Qc) (m : FingeringCostModel)
  : FingeringCostModel :=
  {| max_comfortable_span := max_comfortable_span m;
     stretch_weight := if w is Stretch then v else stretch_weight m;
     crossing_weight := if w is Crossing then v else crossing_weight m;
     repetition_weight := if w is Repetition then v else repetition_weight m;
     hand_switch_weight := if w is HandSwitch then v else hand_switch_weight m;
     chord_penalty_weight := if w is ChordPenalty then v else chord_penalty_weight m;
     weak_finger_weight := if w is WeakFinger then v else weak_finger_weight m;
     split_pitch := split_pitch m |}.

(** The same note with an explicit chord size. *)
Definition with_chord_size (c : Z) (nt : note) : note :=
  {| n_pitch := n_pitch nt; n_start := n_start nt; n_chord_size := Some c |}.

(** Notes that [solve] cannot tell apart: it reads the pitch, the start and
    [note.get("chord_size", 1)]. *)
Definition note_eqv (x y : note) : Prop :=
  n_pitch x = n_pitch y ∧ n_start x = n_start y ∧
  default 1 (n_chord_size x) = default 1 (n_chord_size y).

(** The finite cost stored in a row for a state (0 if there is none). *)
Definition cell (row : list (StateKey * xcost)) (s : StateKey) : Qc :=
  match dict_get row s with
  | Some (Fin c) => c
  | _ => 0%Qc
  end.

(** A configuration with every required key but no entry for the finger
    pair (1, 2). *)
Definition cfg_missing_pair : gmap string yaml :=
  sample_cfg_with (delete "1_2"%string full_span).

(** A configuration with every required key except ["hand_switch_weight"]. *)
Definition cfg_missing_hand_switch : gmap string yaml :=
  delete "hand_switch_weight"%string sample_cfg.

(** ** Further vocabulary: paths and their cost *)

(** All six weights are non-negative. *)
Definition nonneg_weights (m : FingeringCostModel) : Prop :=
  ∀ w, (0 ≤ get_weight w m)%Qc.

(** Cumulative cost of an assignment, accumulated note by note the way the
    forward pass adds [total_cost] to the cost of the previous state. *)
Fixpoint walk_cost (ops : cost_ops) (acc : Qc) (prev : note) (sprev : StateKey)
    (ns : list note) (ss : list StateKey) : result Qc :=
  match ns, ss with
  | cur :: ns', s :: ss' =>
      trans ← op_total_cost ops (snd sprev) (snd s) (n_pitch prev) (n_pitch cur)
                (fst sprev) (fst s) (default 1 (n_chord_size cur));
      walk_cost ops (acc + trans)%Qc cur s ns' ss'
  | _, _ => Ok acc
  end.

(** Cost of assigning the states [path] to [notes]: the initial cost of the
    first state plus the transition costs between consecutive notes. *)
Definition path_cost (ops : cost_ops) (notes : list note) (path : list StateKey)
  : result Qc :=
  match notes, path with
  | n0 :: ns, s0 :: ss => walk_cost ops (init_cost ops n0 s0) n0 s0 ns ss
  | _, _ => Ok 0%Qc
  end.

(** The (hand, finger) states of a list of annotations. *)
Definition states_of (anns : list annotation) : list StateKey :=
  (λ a, (a_hand a, a_finger a)) <$> anns.

(** The model constructed from [cfg_missing_pair]. *)
Definition model_missing_pair : FingeringCostModel :=
  {| max_comfortable_span := YMap (delete "1_2"%string full_span);
     stretch_weight := Q2Qc 2; crossing_weight := Q2Qc 3;
     repetition_weight := Q2Qc 1; hand_switch_weight := Q2Qc 4;
     chord_penalty_weight := Q2Qc 5;
     weak_finger_weight := Q2Qc (1 # 2); split_pitch := 60 |}.

(** The error raised for a finger pair without a span entry. *)
Definition missing_pair_error (span : gmap string Z) (e : exn) : Prop :=
  ∃ a b, (a, b) ∈ finger_pairs ∧ span !! pair_key a b = None ∧
         e = ValueError (MissingSpan (pair_key a b)).

(** ** Evaluator ([ml_engine/evaluator.py]) *)

(** Exceptions of the scoring functions and of the pipeline they run. *)
Inductive eval_exn :=
  | LengthMismatch (predicted ground_truth : nat)
      (* ValueError "Length mismatch: predicted=..., ground_truth=..." *)
  | MidiNotFound          (* FileNotFoundError of [load_midi] *)
  | MidiUnparsable        (* ValueError "Failed to parse MIDI file" *)
  | EngineError (e : exn)
      (* an exception of the feature builder, of [solve] or of a conversion *)
  | NoTrainingPairs       (* ValueError "No training pairs provided" *)
  | BaseConfigNotFound    (* FileNotFoundError "Base config not found" *).

Inductive outcome (A : Type) :=
  | Value (a : A)
  | Failure (e : eval_exn).
Arguments Value {A} a.
Arguments Failure {A} e.

(** [k / n] for two counts. *)
Definition ratio (k n : nat) : Qc :=
  (Qc_of_Z (Z.of_nat k) / Qc_of_Z (Z.of_nat n))%Qc.

Definition same_hand (pg : annotation * annotation) : Prop :=
  a_hand (fst pg) = a_hand (snd pg).

Definition same_finger (pg : annotation * annotation) : Prop :=
  a_finger (fst pg) = a_finger (snd pg).

Definition same_hand_and_finger (pg : annotation * annotation) : Prop :=
  same_hand pg ∧ same_finger pg.

#[global] Instance same_hand_dec pg : Decision (same_hand pg).
Proof. unfold same_hand. apply _. Defined.
#[global] Instance same_finger_dec pg : Decision (same_finger pg).
Proof. unfold same_finger. apply _. Defined.
#[global] Instance same_hand_and_finger_dec pg : Decision (same_hand_and_finger pg).
Proof. unfold same_hand_and_finger. apply _. Defined.

(** The two guards shared by the three accuracy functions: both lists empty
    gives 0.0, different lengths raise. *)
Definition guarded (predicted ground_truth : list annotation)
    (score : outcome Qc) : outcome Qc :=
  if bool_decide (predicted = [] ∧ ground_truth = []) then Value 0%Qc
  else if bool_decide (length predicted ≠ length ground_truth)
  then Failure (LengthMismatch (length predicted) (length ground_truth))
  else score.

Definition note_accuracy (predicted ground_truth : list annotation)
  : outcome Qc :=
  guarded predicted ground_truth
    (let correct :=
       length (filter same_hand_and_finger (zip predicted ground_truth)) in
     Value (ratio correct (length ground_truth))).

Definition hand_accuracy (predicted ground_truth : list annotation)
  : outcome Qc :=
  guarded predicted ground_truth
    (let correct := length (filter same_hand (zip predicted ground_truth)) in
     Value (ratio correct (length ground_truth))).

Definition finger_accuracy (predicted ground_truth : list annotation)
  : outcome Qc :=
  guarded predicted ground_truth
    (let hand_correct_pairs := filter same_hand (zip predicted ground_truth) in
     match hand_correct_pairs with
     | [] => Value 0%Qc
     | _ :: _ =>
         let finger_correct := length (filter same_finger hand_correct_pairs) in
         Value (ratio finger_correct (length hand_correct_pairs))
     end).

Record metrics := {
  m_note_accuracy : Qc;
  m_hand_accuracy : Qc;
  m_finger_accuracy : Qc
}.

(** The part of [evaluate_config] after the prediction: truncate both lists
    to the shorter one and score. *)
Definition score_prediction (predicted ground_truth : list annotation)
  : outcome metrics :=
  let min_len := Nat.min (length predicted) (length ground_truth) in
  if bool_decide (min_len = 0%nat)
  then Value {| m_note_accuracy := 0; m_hand_accuracy := 0;
                m_finger_accuracy := 0 |}
  else
    let pred_trimmed := take min_len predicted in
    let gt_trimmed := take min_len ground_truth in
    match note_accuracy pred_trimmed gt_trimmed with
    | Failure e => Failure e
    | Value na =>
        match hand_accuracy pred_trimmed gt_trimmed with
        | Failure e => Failure e
        | Value ha =>
            match finger_accuracy pred_trimmed gt_trimmed with
            | Failure e => Failure e
            | Value fa =>
                Value {| m_note_accuracy := na; m_hand_accuracy := ha;
                         m_finger_accuracy := fa |}
            end
        end
    end.

Definition mk_ann (t : Q) (p : Z) (h : hand) (f : Z) : annotation :=
  {| a_onset_time := Q2Qc t; a_pitch := p; a_hand := h; a_finger := f |}.

(** What [solve] returns for [sample_notes], and an expert labelling of the
    same passage that agrees on the hand of two notes and on the finger of
    one of them. *)
Definition sample_prediction : list annotation :=
  [ mk_ann 0 60 L 1; mk_ann (1 # 2) 64 L 2; mk_ann 1 67 L 3 ].

Definition sample_truth : list annotation :=
  [ mk_ann 0 60 L 1; mk_ann (1 # 2) 64 L 3; mk_ann 1 67 R 3 ].

#[global] Instance outcome_ret : MRet outcome := @Value.
#[global] Instance outcome_bind : MBind outcome := λ A B f r,
  match r with
  | Value a => f a
  | Failure e => Failure e
  end.

(** An exception of the fingering engine seen by a caller. *)
Definition lift_result {A} (r : result A) : outcome A :=
  match r with
  | Ok a => Value a
  | Raise e => Failure (EngineError e)
  end.

(** ** MIDI parser ([fingering_engine/midi_parser.py]) *)

(** [round(x, 6)]: the nearest multiple of 10^-6, ties to the even one. *)
Definition round_half_even (q : Q) : Z :=
  let fl := Qfloor q in
  match Qcompare (q - inject_Z fl) (1 # 2) with
  | Lt => fl
  | Gt => fl + 1
  | Eq => if Z.even fl then fl else fl + 1
  end.

Definition py_round6 (x : Qc) : Qc :=
  Q2Qc (inject_Z (round_half_even (this x * 1000000)) / 1000000).

(** What the parser reads of a [PrettyMIDI] object. *)
Record midi_note := {
  mn_pitch : Z;
  mn_start : Qc;
  mn_end : Qc;
  mn_velocity : Z
}.

Record instrument := {
  is_drum : bool;
  inst_notes : list midi_note
}.

Record pretty_midi := {
  instruments : list instrument
}.

(** A path given by what opening it yields. *)
Inductive midi_file :=
  | NoSuchFile
  | Unparsable
  | Parsed (midi_data : pretty_midi).

Definition load_midi (midi_path : midi_file) : outcome pretty_midi :=
  match midi_path with
  | NoSuchFile => Failure MidiNotFound
  | Unparsable => Failure MidiUnparsable
  | Parsed midi_data => Value midi_data
  end.

(** A note dict of the parser. *)
Record raw_note := {
  r_pitch : Z;
  r_start : Qc;
  r_end : Qc;
  r_duration : Qc;
  r_velocity : Z
}.

Definition note_dict (nt : midi_note) : raw_note :=
  {| r_pitch := mn_pitch nt;
     r_start := py_round6 (mn_start nt);
     r_end := py_round6 (mn_end nt);
     r_duration := py_round6 (mn_end nt - mn_start nt)%Qc;
     r_velocity := mn_velocity nt |}.

(** The sort key [(n["start"], n["pitch"])] and the order of tuples. *)
Definition sort_key (n : raw_note) : Qc * Z := (r_start n, r_pitch n).

Definition key_le (x y : Qc * Z) : Prop :=
  (fst x < fst y)%Qc ∨ (fst x = fst y ∧ snd x ≤ snd y).

#[global] Instance key_le_dec x y : Decision (key_le x y).
Proof. unfold key_le. apply _. Defined.

(** [notes.sort(key=...)]: a stable sort, here by insertion; an element goes
    in front of the first element whose key is not smaller than its own. *)
Fixpoint insert_note (x : raw_note) (l : list raw_note) : list raw_note :=
  match l with
  | [] => [x]
  | y :: l' =>
      if decide (key_le (sort_key x) (sort_key y)) then x :: y :: l'
      else y :: insert_note x l'
  end.

Definition sort_notes (l : list raw_note) : list raw_note :=
  foldr insert_note [] l.

Definition extract_notes (midi_data : pretty_midi) : list raw_note :=
  let notes :=
    flat_map (λ instrument,
                if is_drum instrument then []
                else note_dict <$> inst_notes instrument)
             (instruments midi_data) in
  sort_notes notes.

Definition parse_midi (midi_path : midi_file) : outcome (list raw_note) :=
  midi_data ← load_midi midi_path;
  Value (extract_notes midi_data).

(** ** Feature builder ([fingering_engine/feature_builder.py]) *)

Inductive register := Low | Mid | High.

Definition _LOW_THRESHOLD : Z := 48.
Definition _HIGH_THRESHOLD : Z := 72.

Definition _pitch_register (pitch : Z) : register :=
  if decide (pitch ≤ _LOW_THRESHOLD) then Low
  else if decide (_HIGH_THRESHOLD ≤ pitch) then High
  else Mid.

Record feature := {
  f_pitch : Z;
  f_start : Qc;
  f_end : Qc;
  f_duration : Qc;
  f_velocity : Z;
  f_index : nat;
  f_delta_pitch : option Z;
  f_delta_time : option Qc;
  f_chord_size : nat;
  f_overlap_count : nat;
  f_pitch_register : register
}.

Definition chord_tolerance : Qc := Q2Qc (3 # 100).

(** [collections.Counter(l)[x]] *)
Definition counter {A} `{EqDecision A} (l : list A) (x : A) : nat :=
  length (filter (λ y, y = x) l).

Section build_features.
Variable notes : list raw_note.

(** First pass: the index at which the chord group of each note starts. *)
Definition group_starts : result (list nat) :=
  '(group_start, chord_sizes) ←
    for_each (imap pair notes) (λ '(group_start, chord_sizes) '(i, note),
      group_start ←
        (if bool_decide (0 < i)%nat then
           first ← list_item notes group_start;
           Ok (if bool_decide
                    (chord_tolerance < Qcabs.Qcabs (r_start note - r_start first))%Qc
               then i else group_start)
         else Ok group_start);
      Ok (group_start, chord_sizes ++ [group_start])) (0%nat, []);
  Ok chord_sizes.

(** The notes before [i] that still sound when [note] starts. *)
Definition overlap_count (i : nat) (note : raw_note) : result nat :=
  for_each (seq 0 i) (λ overlap j,
    earlier ← list_item notes j;
    Ok (if bool_decide (r_start note < r_end earlier)%Qc then S overlap
        else overlap)) 0%nat.

Definition build_features : result (list feature) :=
  match notes with
  | [] => Ok []
  | _ :: _ =>
      chord_sizes ← group_starts;
      let group_counts := counter chord_sizes in
      let chord_size_list := group_counts <$> chord_sizes in
      for_each (imap pair notes) (λ enriched '(i, note),
        '(delta_pitch, delta_time) ←
          (if bool_decide (i = 0%nat) then Ok (None, None)
           else
             prev ← list_item notes (i - 1);
             Ok (Some (r_pitch note - r_pitch prev),
                 Some (py_round6 (r_start note - r_start prev)%Qc)));
        chord_size ← list_item chord_size_list i;
        overlap ← overlap_count i note;
        Ok (enriched ++
            [ {| f_pitch := r_pitch note; f_start := r_start note;
                 f_end := r_end note; f_duration := r_duration note;
                 f_velocity := r_velocity note; f_index := i;
                 f_delta_pitch := delta_pitch; f_delta_time := delta_time;
                 f_chord_size := chord_size; f_overlap_count := overlap;
                 f_pitch_register := _pitch_register (r_pitch note) |} ])) []
  end.
End build_features.

(** The feature dict as [solve] reads it: pitch, start and chord size. *)
Definition note_of_feature (f : feature) : note :=
  {| n_pitch := f_pitch f; n_start := f_start f;
     n_chord_size := Some (Z.of_nat (f_chord_size f)) |}.

(** [evaluate_config] of the evaluator: the pipeline, then the scores of the
    prediction against the ground truth. *)
Definition evaluate_config (midi_path : midi_file)
    (ground_truth : list annotation) (config_path : config_source)
  : outcome metrics :=
  midi_data ← load_midi midi_path;
  let notes := extract_notes midi_data in
  features ← lift_result (build_features notes);
  predicted ← lift_result (solve (note_of_feature <$> features) config_path);
  score_prediction predicted ground_truth.

(** A small MIDI object: one piano track with a C major triad struck
    together and a later note, and a drum track. *)
Definition sample_midi : pretty_midi :=
  {| instruments :=
       [ {| is_drum := false;
            inst_notes :=
              [ {| mn_pitch := 64; mn_start := Q2Qc 0; mn_end := Q2Qc 1;
                   mn_velocity := 80 |};
                {| mn_pitch := 60; mn_start := Q2Qc (1 # 100); mn_end := Q2Qc 1;
                   mn_velocity := 80 |};
                {| mn_pitch := 67; mn_start := Q2Qc 0; mn_end := Q2Qc (1 # 2);
                   mn_velocity := 80 |};
                {| mn_pitch := 72; mn_start := Q2Qc (3 # 4); mn_end := Q2Qc 2;
                   mn_velocity := 90 |} ] |};
         {| is_drum := true;
            inst_notes :=
              [ {| mn_pitch := 36; mn_start := Q2Qc 0; mn_end := Q2Qc (1 # 4);
                   mn_velocity := 100 |} ] |} ] |}.

(** The note dicts of the pitched instruments, in track order, before the
    sort. *)
Definition collected_notes (midi_data : pretty_midi) : list raw_note :=
  flat_map (λ instrument,
              if is_drum instrument then []
              else note_dict <$> inst_notes instrument)
           (instruments midi_data).

Definition notes_in_order (x y : raw_note) : Prop :=
  key_le (sort_key x) (sort_key y).

(** What [build_features] puts into the feature of note [j], given the
    group starts [gs] of the first pass. *)
Definition feature_of (notes : list raw_note) (gs : list nat) (j : nat)
    (f : feature) : Prop :=
  ∃ nt g,
    notes !! j = Some nt ∧ gs !! j = Some g ∧
    f_pitch f = r_pitch nt ∧ f_start f = r_start nt ∧ f_end f = r_end nt ∧
    f_duration f = r_duration nt ∧ f_velocity f = r_velocity nt ∧
    f_index f = j ∧
    f_pitch_register f = _pitch_register (r_pitch nt) ∧
    f_chord_size f = counter gs g ∧
    f_overlap_count f =
      length (filter (λ earlier, (r_start nt < r_end earlier)%Qc) (take j notes)) ∧
    match j with
    | O => f_delta_pitch f = None ∧ f_delta_time f = None
    | S j' =>
        ∃ prev, notes !! j' = Some prev ∧
          f_delta_pitch f = Some (r_pitch nt - r_pitch prev) ∧
          f_delta_time f = Some (py_round6 (r_start nt - r_start prev)%Qc)
    end.

(** The group start [g] recorded for note [j]: an index not after [j] whose
    own group start is itself and whose onset is within the tolerance of the
    onset of note [j]. *)
Definition group_of (notes : list raw_note) (gs : list nat) (j g : nat) : Prop :=
  (g ≤ j)%nat ∧ gs !! g = Some g ∧
  ∃ nt first, notes !! j = Some nt ∧ notes !! g = Some first ∧
    (Qcabs.Qcabs (r_start nt - r_start first) ≤ chord_tolerance)%Qc.

(** ** Trainer ([ml_engine/trainer.py])

    A configuration written with [yaml.dump] and read back by the cost model
    is taken to be the dictionary that was written; the temporary file of a
    trial configuration is therefore the source [Some trial_cfg]. *)

Fixpoint for_each_out {A S : Type} (xs : list A) (body : S → A → outcome S)
    (s : S) : outcome S :=
  match xs with
  | [] => Value s
  | x :: xs' => s' ← body s x; for_each_out xs' body s'
  end.

Record training_pair := {
  tp_midi_path : midi_file;
  tp_ground_truth : list annotation
}.

Definition _WEIGHT_KEYS : list string :=
  [ "stretch_weight"; "crossing_weight"; "repetition_weight";
    "hand_switch_weight"; "chord_penalty_weight"; "weak_finger_weight" ]%string.

Definition _MULTIPLIERS : list Qc :=
  [ Q2Qc (1 # 4); Q2Qc (1 # 2); Q2Qc (3 # 4); Q2Qc 1; Q2Qc (5 # 4);
    Q2Qc (3 # 2); Q2Qc 2; Q2Qc 3 ].

(** [np.mean] of a non-empty list. *)
Definition mean (l : list Qc) : Qc :=
  (foldr Qcplus 0 l / Qc_of_Z (Z.of_nat (length l)))%Qc.

Definition _mean_accuracy (training_pairs : list training_pair)
    (config_path : config_source) : outcome Qc :=
  accuracies ←
    for_each_out training_pairs (λ accuracies pair,
      metrics ← evaluate_config (tp_midi_path pair) (tp_ground_truth pair)
                  config_path;
      Value (accuracies ++ [m_note_accuracy metrics])) [];
  match accuracies with
  | [] => Value 0%Qc
  | _ :: _ => Value (mean accuracies)
  end.

Record train_result := {
  tr_config : gmap string yaml;
  tr_baseline_accuracy : Qc;
  tr_learned_accuracy : Qc
}.

Section train.
Variable training_pairs : list training_pair.

(** The sweep over the candidate multipliers for one key. *)
Definition sweep_multipliers (best_cfg : gmap string yaml) (key : string)
    (original_value best_accuracy : Qc) : outcome (Qc * Qc) :=
  for_each_out _MULTIPLIERS (λ '(best_value_for_key, best_acc_for_key) mult,
    let candidate_value := (original_value * mult)%Qc in
    if bool_decide (candidate_value ≤ 0)%Qc
    then Value (best_value_for_key, best_acc_for_key)
    else
      let trial_cfg := <[key := YNum (py_round6 candidate_value)]> best_cfg in
      acc ← _mean_accuracy training_pairs (Some trial_cfg);
      if bool_decide (best_acc_for_key < acc)%Qc
      then Value (candidate_value, acc)
      else Value (best_value_for_key, best_acc_for_key))
    (original_value, best_accuracy).

(** One round: the sweep over the six weight keys. *)
Definition sweep_keys (best_cfg : gmap string yaml) (best_accuracy : Qc)
  : outcome (gmap string yaml * Qc * bool) :=
  for_each_out _WEIGHT_KEYS (λ '(best_cfg, best_accuracy, improved_this_round) key,
    original_value ← lift_result (cfg_item best_cfg key ≫= py_float);
    '(best_value_for_key, best_acc_for_key) ←
      sweep_multipliers best_cfg key original_value best_accuracy;
    if bool_decide (best_value_for_key ≠ original_value)
    then Value (<[key := YNum (py_round6 best_value_for_key)]> best_cfg,
                best_acc_for_key, true)
    else Value (best_cfg, best_accuracy, improved_this_round))
    (best_cfg, best_accuracy, false).

(** [for round_idx in range(max_rounds)], left when a round improves
    nothing. *)
Fixpoint train_rounds (max_rounds : nat) (best_cfg : gmap string yaml)
    (best_accuracy : Qc) : outcome (gmap string yaml * Qc) :=
  match max_rounds with
  | O => Value (best_cfg, best_accuracy)
  | S rounds_left =>
      swept ← sweep_keys best_cfg best_accuracy;
      let '(best_cfg, best_accuracy, improved_this_round) := swept in
      if improved_this_round : bool
      then train_rounds rounds_left best_cfg best_accuracy
      else Value (best_cfg, best_accuracy)
  end.

(** [train]; the returned configuration is also what is written to the
    output path. *)
Definition train (base_config_path : config_source) (max_rounds : nat)
  : outcome train_result :=
  match training_pairs with
  | [] => Failure NoTrainingPairs
  | _ :: _ =>
      match base_config_path with
      | None => Failure BaseConfigNotFound
      | Some base_cfg =>
          baseline_accuracy ← _mean_accuracy training_pairs base_config_path;
          '(best_cfg, best_accuracy) ←
            train_rounds max_rounds base_cfg baseline_accuracy;
          Value {| tr_config := best_cfg;
                   tr_baseline_accuracy := baseline_accuracy;
                   tr_learned_accuracy := best_accuracy |}
      end
  end.
End train.

Definition sample_pairs : list training_pair :=
  [ {| tp_midi_path := Parsed sample_midi;
       tp_ground_truth :=
         [ mk_ann 0 64 R 1; mk_ann 0 67 R 3; mk_ann (1 # 100) 60 L 1;
           mk_ann (3 # 4) 72 R 5 ] |} ].

(** Every training pair names a readable MIDI file. *)
Definition readable (training_pairs : list training_pair) : Prop :=
  Forall (λ pair, ∃ midi_data, tp_midi_path pair = Parsed midi_data)
         training_pairs.

(** Two note lists that [solve] cannot tell apart although the chord size of
    the first note may differ: same length, same pitch and start at every
    index, same chord size (read with default 1) at every index but 0. *)
Definition same_but_first_chord (notes notes' : list note) : Prop :=
  length notes = length notes' ∧
  ∀ i x y, notes !! i = Some x → notes' !! i = Some y →
    n_pitch x = n_pitch y ∧ n_start x = n_start y ∧
    ((1 ≤ i)%nat → default 1 (n_chord_size x) = default 1 (n_chord_size y)).

(** ** Reference description of the chord groups *)

(** The test of the first pass of [build_features]: the onset of [nt] is
    further than the tolerance from the onset of [first]. *)
Definition beyond_tolerance (first nt : raw_note) : Prop :=
  (chord_tolerance < Qcabs.Qcabs (r_start nt - r_start first))%Qc.

#[global] Instance beyond_tolerance_dec first nt :
  Decision (beyond_tolerance first nt).
Proof. unfold beyond_tolerance. apply _. Defined.

(** The indices at which a chord group starts.  Groups are formed greedily
    from the first note: one starts at index 0, and after a group that starts
    at [g] the next one starts at the first later note whose onset is beyond
    the tolerance from the onset of note [g]. *)
Inductive chord_group_start (notes : list raw_note) : nat → Prop :=
  | first_group : chord_group_start notes 0
  | next_group (g g' : nat) (first next : raw_note) :
      chord_group_start notes g → (g < g')%nat →
      notes !! g = Some first → notes !! g' = Some next →
      (∀ k nt, (g < k < g')%nat → notes !! k = Some nt →
               ¬ beyond_tolerance first nt) →
      beyond_tolerance first next →
      chord_group_start notes g'.

(** The notes at the indices [g .. g' - 1] form a chord group: [g] starts a
    group, every note of the run is within the tolerance of note [g], and the
    run is not continued by the note at [g'], if there is one. *)
Definition chord_group (notes : list raw_note) (g g' : nat) : Prop :=
  chord_group_start notes g ∧ (g < g' ≤ length notes)%nat ∧
  ∃ first, notes !! g = Some first ∧
    (∀ k nt, (g < k < g')%nat → notes !! k = Some nt →
             ¬ beyond_tolerance first nt) ∧
    (∀ next, notes !! g' = Some next → beyond_tolerance first next).

(** The value of [group_start] after iteration [j] of the first pass. *)
Fixpoint group_start_at (notes : list raw_note) (j : nat) : nat :=
  match j with
  | O => 0
  | S j' =>
      let group_start := group_start_at notes j' in
      match notes !! group_start, notes !! j with
      | Some first, Some nt =>
          if bool_decide (beyond_tolerance first nt) then j else group_start
      | _, _ => group_start
      end
  end.

(** Onsets whose distance is clear of the tolerance by a margin of 1e-9 s:
    for them the outcome of the comparison with the tolerance does not depend
    on the rounding of the subtraction. *)
Definition tolerance_margin : Qc := Q2Qc (1 # 1000000000).

Definition clear_of_tolerance (first nt : raw_note) : Prop :=
  let distance := Qcabs.Qcabs (r_start nt - r_start first) in
  (distance ≤ chord_tolerance - tolerance_margin)%Qc ∨
  (chord_tolerance + tolerance_margin ≤ distance)%Qc.

#[global] Instance clear_of_tolerance_dec first nt :
  Decision (clear_of_tolerance first nt).
Proof. unfold clear_of_tolerance. apply _. Defined.

Definition onsets_clear (notes : list raw_note) : Prop :=
  Forall (λ first, Forall (clear_of_tolerance first) notes) notes.

(** A hand-switch weight that is large enough for half of it, the bias of
    the initialisation, to be a positive number whatever the rounding. *)
Definition min_switch_weight : Qc := Q2Qc (1 # 10 ^ 300).
(** ** Properties of the cost model *)

Section cost_model_facts.
Implicit Types (cfg : gmap string yaml) (m : FingeringCostModel).

Lemma result_bind_ok {A B} (r : result A) (f : A → result B) b :
  r ≫= f = Ok b → ∃ a, r = Ok a ∧ f a = Ok b.
Proof. destruct r as [a|e]; [eauto | discriminate]. Qed.

Lemma check_required_first_missing cfg keys k :
  k ∈ keys → cfg !! k = None →
  ∃ k', k' ∈ keys ∧ cfg !! k' = None ∧
        check_required cfg keys = Raise (ValueError (MissingKey k')).
Proof.
  induction keys as [|k0 keys IH]; intros Hin Hk.
  - by apply elem_of_nil in Hin.
  - simpl. destruct (cfg !! k0) eqn:E0.
    + apply elem_of_cons in Hin as [->|Hin]; [congruence|].
      destruct (IH Hin Hk) as (k' & ? & ? & ?).
      exists k'. split_and!; [by right | done | done].
    + exists k0. split_and!; [by left | done | done].
Qed.

Lemma check_required_ok cfg keys :
  (∀ k, k ∈ keys → is_Some (cfg !! k)) → check_required cfg keys = Ok ().
Proof.
  induction keys as [|k0 keys IH]; intros Hall; [done|].
  simpl. destruct (Hall k0) as [v ->]; [by left|].
  apply IH. intros k Hk. apply Hall. by right.
Qed.

Lemma in_range_cases (f : Z) :
  in_range f → f = 1 ∨ f = 2 ∨ f = 3 ∨ f = 4 ∨ f = 5.
Proof. unfold in_range. lia. Qed.

Lemma span_covers_lookup span a b :
  span_covers span = true → in_range a → in_range b → a ≠ b →
  is_Some (span !! pair_key a b).
Proof.
  intros Hc Ha Hb Hne. unfold span_covers in Hc.
  rewrite forallb_forall in Hc.
  assert (Hp : In (Z.min a b, Z.max a b) finger_pairs).
  { apply in_range_cases in Ha, Hb.
    destruct Ha as [->|[->|[->|[->| ->]]]], Hb as [->|[->|[->|[->| ->]]]];
      try done; vm_compute; tauto. }
  specialize (Hc _ Hp). simpl in Hc.
  apply bool_decide_eq_true in Hc.
  unfold pair_key in *.
  by rewrite (Z.min_l (Z.min a b)), (Z.max_r (Z.min a b)) in Hc by lia.
Qed.

Lemma stretch_cost_covered m a b iv :
  span_covered m = true → in_range a → in_range b →
  ∃ q, stretch_cost m a b iv = Ok q.
Proof.
  intros Hc Ha Hb. unfold stretch_cost, span_covered in *.
  destruct (decide (a = b)); [eauto|].
  destruct (max_comfortable_span m) as [|span]; [done|].
  destruct (span_covers_lookup span a b Hc Ha Hb) as [v ->]; [done|].
  case_decide; eauto.
Qed.

Lemma total_cost_covered m fa fb pa pb ha hb cs :
  span_covered m = true → in_range fa → in_range fb →
  ∃ q, total_cost m fa fb pa pb ha hb cs = Ok q.
Proof.
  intros Hc Ha Hb. unfold total_cost.
  destruct (decide (ha = hb)); simpl; [|eauto].
  destruct (stretch_cost_covered m fa fb (Z.abs (pb - pa)) Hc Ha Hb) as [q ->].
  simpl. eauto.
Qed.

Lemma valid_cfg_init cfg :
  valid_cfg cfg = true →
  ∃ m, FingeringCostModel_init (Some cfg) = Ok m ∧ span_covered m = true.
Proof.
  unfold valid_cfg. intros [Hspan Hsc]%andb_prop.
  rewrite forallb_forall in Hsc.
  assert (Hnum : ∀ k, In k scalar_keys → ∃ q, cfg !! k = Some (YNum q)).
  { intros k Hk. specialize (Hsc k Hk). unfold is_num in Hsc.
    destruct (cfg !! k) as [[q|]|]; try done. eauto. }
  destruct (cfg !! "max_comfortable_span") as [[|span]|] eqn:Esp; try done.
  destruct (Hnum "stretch_weight") as [sw Hsw]; [vm_compute; tauto|].
  destruct (Hnum "crossing_weight") as [cw Hcw]; [vm_compute; tauto|].
  destruct (Hnum "repetition_weight") as [rw Hrw]; [vm_compute; tauto|].
  destruct (Hnum "hand_switch_weight") as [hw Hhw]; [vm_compute; tauto|].
  destruct (Hnum "chord_penalty_weight") as [pw Hpw]; [vm_compute; tauto|].
  destruct (Hnum "weak_finger_weight") as [ww Hww]; [vm_compute; tauto|].
  destruct (Hnum "split_pitch") as [sp Hsp]; [vm_compute; tauto|].
  eexists. unfold FingeringCostModel_init, cfg_item. simpl.
  rewrite Esp, Hsw, Hcw, Hrw, Hhw, Hpw, Hww, Hsp. simpl. split; [reflexivity|].
  done.
Qed.

Lemma valid_config_init src :
  valid_config src = true →
  ∃ m, FingeringCostModel_init src = Ok m ∧ span_covered m = true.
Proof. destruct src as [cfg|]; [apply valid_cfg_init | done]. Qed.
End cost_model_facts.

(** ** Loops and dictionaries *)

Section loops.
Context {A S : Type}.
Implicit Types (xs ys : list A) (body : S → A → result S).

Lemma for_each_app xs ys body s :
  for_each (xs ++ ys) body s = for_each xs body s ≫= for_each ys body.
Proof.
  revert s. induction xs as [|x xs IH]; intros s; simpl; [done|].
  destruct (body s x) as [s'|e]; simpl; [apply IH | done].
Qed.

Lemma for_each_ext xs body body' s :
  (∀ s x, x ∈ xs → body s x = body' s x) →
  for_each xs body s = for_each xs body' s.
Proof.
  revert s. induction xs as [|x xs IH]; intros s Hext; simpl; [done|].
  rewrite Hext by left. destruct (body' s x); simpl; [|done].
  apply IH. intros. apply Hext. by right.
Qed.

Lemma for_each_inv (P : S → Prop) xs body s s' :
  (∀ s x s', x ∈ xs → P s → body s x = Ok s' → P s') →
  P s → for_each xs body s = Ok s' → P s'.
Proof.
  revert s. induction xs as [|x xs IH]; intros s Hstep Hs Hrun; simpl in *.
  - by inversion Hrun; subst.
  - destruct (body s x) as [s1|e] eqn:E; simpl in *; [|done].
    apply (IH s1); [|by eapply Hstep; [left| |]|done].
    intros. eapply Hstep; [by right|done..].
Qed.
End loops.

Lemma for_each_map {A B S} (g : A → B) (xs : list A) (body : S → B → result S) s :
  for_each (map g xs) body s = for_each xs (λ s x, body s (g x)) s.
Proof.
  revert s. induction xs as [|x xs IH]; intros s; simpl; [done|].
  destruct (body s (g x)); simpl; [apply IH | done].
Qed.

Lemma result_bind_ret {A} (r : result A) : r ≫= Ok = r.
Proof. by destruct r. Qed.

Lemma STATES_eq : STATES = map (pair L) FINGERS ++ map (pair R) FINGERS.
Proof. reflexivity. Qed.

Lemma for_states_flat {S} (body : S → hand → Z → result S) s :
  for_states body s = for_each STATES (λ s k, body s (fst k) (snd k)) s.
Proof.
  rewrite STATES_eq, for_each_app, !for_each_map.
  unfold for_states, HANDS. cbn [for_each fst snd].
  destruct (for_each FINGERS _ s) as [s1|e]; simpl; [|done].
  apply result_bind_ret.
Qed.

Section dict_facts.
Context {K V : Type} `{EqDecision K}.
Implicit Types (d : list (K * V)) (k : K) (v : V).

Lemma dict_set_fresh d k v :
  dict_get d k = None → dict_set d k v = d ++ [(k, v)].
Proof.
  induction d as [|[k' v'] d IH]; simpl; [done|].
  case_decide; [done|]. intros Hd. by rewrite IH.
Qed.

Lemma dict_get_map (g : K → V) (l : list K) k :
  k ∈ l → dict_get (map (λ s, (s, g s)) l) k = Some (g k).
Proof.
  induction l as [|x l IH]; intros Hin; [by apply elem_of_nil in Hin|].
  simpl. case_decide; [by subst|].
  apply elem_of_cons in Hin as [?|?]; [done | by apply IH].
Qed.

Lemma dict_get_map_None (g : K → V) (l : list K) k :
  k ∉ l → dict_get (map (λ s, (s, g s)) l) k = None.
Proof.
  induction l as [|x l IH]; intros Hin; [done|].
  simpl. apply not_elem_of_cons in Hin as [? ?].
  case_decide; [done | by apply IH].
Qed.
End dict_facts.

(** Filling one row of both tables, key by key. *)
Lemma fill_row (F : dp_table → StateKey → result (xcost * option StateKey))
    (vc : StateKey → xcost) (vb : StateKey → option StateKey) (i : nat)
    (ks : list StateKey) :
  ∀ (done_ks : list StateKey) (dp : dp_table) (bp : bp_table),
    NoDup (done_ks ++ ks) →
    dp !! i = Some (map (λ k, (k, vc k)) done_ks) →
    bp !! i = Some (map (λ k, (k, vb k)) done_ks) →
    (∀ k dp', k ∈ ks → (∀ j, j ≠ i → dp' !! j = dp !! j) →
              F dp' k = Ok (vc k, vb k)) →
    for_each ks (fill_body F i) (dp, bp) =
      Ok (<[i := map (λ k, (k, vc k)) (done_ks ++ ks)]> dp,
          <[i := map (λ k, (k, vb k)) (done_ks ++ ks)]> bp).
Proof.
  induction ks as [|k ks IH]; intros done_ks dp bp Hnd Hdp Hbp HF.
  - simpl. by rewrite app_nil_r, !list_insert_id.
  - assert (Hk : k ∉ done_ks).
    { apply list.NoDup_app in Hnd as (_ & Hdis & _). intros Hin.
      apply (Hdis k Hin). by left. }
    assert (Hstep : fill_body F i (dp, bp) k =
              Ok (<[i := map (λ k, (k, vc k)) (done_ks ++ [k])]> dp,
                  <[i := map (λ k, (k, vb k)) (done_ks ++ [k])]> bp)).
    { unfold fill_body. cbn [fst snd].
      rewrite (HF k dp) by (by left || done). cbn.
      unfold table_set, list_item. rewrite Hdp, Hbp. cbn.
      rewrite !dict_set_fresh by (by apply dict_get_map_None).
      by rewrite !map_app. }
    cbn [for_each]. rewrite Hstep. cbn [mbind result_bind].
    rewrite (IH (done_ks ++ [k])).
    + rewrite <- !(assoc_L (++)). cbn. by rewrite !list_insert_insert_eq.
    + by rewrite <- (assoc_L (++)).
    + apply list_lookup_insert_eq. by eapply lookup_lt_Some.
    + apply list_lookup_insert_eq. by eapply lookup_lt_Some.
    + intros k' dp' Hk' Hsame. apply HF; [by right|].
      intros j Hj. rewrite Hsame by done. by apply list_lookup_insert_ne.
Qed.

(** ** First minimum *)

Section first_min_facts.
Implicit Types (f g : hand * Z → Qc) (l : list (hand * Z)).
Local Open Scope Qc_scope.

Lemma first_min_spec f l : ∀ best who c p,
  first_min f l best who = (c, p) →
  (c = best ∧ p = who ∧ ∀ q, q ∈ l → best ≤ f q) ∨
  (∃ l1 l2, l = l1 ++ p :: l2 ∧ c = f p ∧ f p < best ∧
            (∀ q, q ∈ l1 → f p < f q) ∧ (∀ q, q ∈ l2 → f p ≤ f q)).
Proof.
  induction l as [|x l IH]; intros best who c p Hrun; simpl in Hrun.
  - left. inversion Hrun; subst. split_and!; [done..|].
    intros q Hq. by apply elem_of_nil in Hq.
  - case_decide as Hlt.
    + right. destruct (IH _ _ _ _ Hrun) as
        [(-> & -> & Hall) | (l1 & l2 & -> & -> & Hp & H1 & H2)].
      * exists [], l. split_and!; try done.
        intros q Hq. by apply elem_of_nil in Hq.
      * exists (x :: l1), l2. split_and!; try done.
        -- by etrans.
        -- intros q [->|Hq]%elem_of_cons; [done | by apply H1].
    + apply Qcnot_lt_le in Hlt.
      destruct (IH _ _ _ _ Hrun) as
        [(-> & -> & Hall) | (l1 & l2 & -> & -> & Hp & H1 & H2)].
      * left. split_and!; try done.
        intros q [->|Hq]%elem_of_cons; [done | by apply Hall].
      * right. exists (x :: l1), l2. split_and!; try done.
        intros q [->|Hq]%elem_of_cons; [|by apply H1].
        by eapply Qclt_le_trans.
Qed.

Lemma first_min_head f x l :
  let r := first_min f l (f x) x in
  fst r = f (snd r) ∧ first_argmin f (x :: l) (snd r).
Proof.
  destruct (first_min f l (f x) x) as [c p] eqn:E. simpl.
  destruct (first_min_spec _ _ _ _ _ _ E) as
    [(-> & -> & Hall) | (l1 & l2 & -> & -> & Hp & H1 & H2)].
  - split; [done|]. exists [], l. split_and!; try done.
    intros q Hq. by apply elem_of_nil in Hq.
  - split; [done|]. exists (x :: l1), l2. split_and!; try done.
    intros q [->|Hq]%elem_of_cons; [done | by apply H1].
Qed.

Lemma argmin_states_spec f :
  fst (argmin_states f) = f (snd (argmin_states f)) ∧
  first_argmin f STATES (snd (argmin_states f)).
Proof. apply (first_min_head f (L, 1%Z) (tail STATES)). Qed.

Lemma first_argmin_elem f l p : first_argmin f l p → p ∈ l.
Proof.
  intros (l1 & l2 & -> & _). apply elem_of_app. right. by left.
Qed.

Lemma first_argmin_le f l p q : first_argmin f l p → q ∈ l → f p ≤ f q.
Proof.
  intros (l1 & l2 & -> & H1 & H2) [Hq|[->|Hq]%elem_of_cons]%elem_of_app.
  - by apply Qclt_le_weak, H1.
  - apply Qcle_refl.
  - by apply H2.
Qed.

Lemma argmin_states_le f q :
  q ∈ STATES → fst (argmin_states f) ≤ f q.
Proof.
  intros Hq. destruct (argmin_states_spec f) as [-> Harg].
  by eapply first_argmin_le.
Qed.

Lemma argmin_states_elem f : snd (argmin_states f) ∈ STATES.
Proof.
  destruct (argmin_states_spec f) as [_ Harg]. by eapply first_argmin_elem.
Qed.

Lemma argmin_states_mono f g :
  (∀ q, q ∈ STATES → f q ≤ g q) →
  fst (argmin_states f) ≤ fst (argmin_states g).
Proof.
  intros Hfg. destruct (argmin_states_spec g) as [Hg Harg]. rewrite Hg.
  pose proof (first_argmin_elem _ _ _ Harg) as Hin.
  eapply Qcle_trans; [by apply argmin_states_le | by apply Hfg].
Qed.

(** The scan of the forward recurrence computes the first minimum. *)
Lemma scan_first_min f l
    (body : xcost * option (hand * Z) → hand * Z → result (xcost * option (hand * Z))) :
  (∀ acc k, k ∈ l →
     body acc k = Ok (if xlt (Fin (f k)) (fst acc) then (Fin (f k), Some k)
                      else acc)) →
  ∀ best who,
    for_each l body (Fin best, Some who) =
      Ok (Fin (fst (first_min f l best who)),
          Some (snd (first_min f l best who))).
Proof.
  induction l as [|x l IH]; intros Hbody best who; [done|].
  cbn [for_each first_min]. rewrite Hbody by left. cbn [fst xlt].
  cbn [mbind result_bind].
  rewrite bool_decide_decide.
  destruct (decide (f x < best)); apply IH; intros; apply Hbody; by right.
Qed.

Lemma scan_states f
    (body : xcost * option (hand * Z) → hand * Z → result (xcost * option (hand * Z))) :
  (∀ acc k, k ∈ STATES →
     body acc k = Ok (if xlt (Fin (f k)) (fst acc) then (Fin (f k), Some k)
                      else acc)) →
  for_each STATES body (Inf, None) =
    Ok (Fin (fst (argmin_states f)), Some (snd (argmin_states f))).
Proof.
  intros Hbody. change STATES with ((L, 1%Z) :: tail STATES) at 1.
  cbn [for_each]. rewrite Hbody by (by left). cbn [fst xlt mbind result_bind].
  apply scan_first_min. intros acc k Hk. apply Hbody.
  change STATES with ((L, 1%Z) :: tail STATES). by right.
Qed.

(** So does the selection of the final state. *)
Lemma best_final_first_min f l : ∀ best who,
  fold_left (λ '(best_final_cost, best_final_state) '(state, cost),
               if xlt cost best_final_cost then (cost, state)
               else (best_final_cost, best_final_state))
            (map (λ s, (s, Fin (f s))) l) (Fin best, who) =
    (Fin (fst (first_min f l best who)), snd (first_min f l best who)).
Proof.
  induction l as [|x l IH]; intros best who; [done|].
  cbn [map fold_left first_min xlt]. rewrite bool_decide_decide.
  destruct (decide (f x < best)); apply IH.
Qed.

Lemma best_final_states f :
  best_final (map (λ s, (s, Fin (f s))) STATES) =
    (Fin (fst (argmin_states f)), snd (argmin_states f)).
Proof.
  unfold best_final. change STATES with ((L, 1%Z) :: tail STATES) at 1.
  cbn [map fold_left xlt]. apply best_final_first_min.
Qed.


(** The first minimum is determined by [f] and the order of [l]. *)
Lemma first_argmin_unique f l p p' :
  first_argmin f l p → first_argmin f l p' → p = p'.
Proof.
  assert (Hlt : ∀ l1 l2 l1' l2' p p',
    l1 ++ p :: l2 = l1' ++ p' :: l2' → (length l1 < length l1')%nat →
    (∀ q, q ∈ l1' → f p' < f q) → (∀ q, q ∈ l2 → f p ≤ f q) → False).
  { clear. intros l1 l2 l1' l2' p p' Heq Hlen H1' H2.
    assert (Hp : p ∈ l1').
    { apply (list_elem_of_lookup_2 _ (length l1)).
      rewrite <- (lookup_app_l l1' (p' :: l2')), <- Heq by done.
      apply list_lookup_middle. done. }
    assert (Hp' : p' ∈ l2).
    { apply (list_elem_of_lookup_2 _ (length l1' - length l1 - 1)).
      pose proof (list_lookup_middle l1' l2' p' (length l1') eq_refl) as Hmid.
      rewrite <- Heq, lookup_app_r in Hmid by lia.
      replace (length l1' - length l1)%nat
        with (S (length l1' - length l1 - 1)) in Hmid by lia.
      done. }
    apply (Qclt_not_le _ _ (H1' _ Hp)). by apply H2. }
  intros (l1 & l2 & Hl & H1 & H2) (l1' & l2' & Hl' & H1' & H2').
  rewrite Hl in Hl'.
  destruct (lt_eq_lt_dec (length l1) (length l1')) as [[Hlen|Hlen]|Hlen].
  - exfalso. by eapply (Hlt l1 l2 l1' l2' p p').
  - apply app_inj_1 in Hl' as [_ Heq]; [|done]. by inversion Heq.
  - exfalso. by eapply (Hlt l1' l2' l1 l2 p' p).
Qed.
End first_min_facts.

(** ** The tables built by the loops *)

Lemma STATES_NoDup : NoDup STATES.
Proof. apply (bool_decide_unpack _). by vm_compute. Qed.

Lemma STATES_in_range (k : hand * Z) : k ∈ STATES → in_range (snd k).
Proof.
  intros Hk. unfold in_range.
  repeat (apply elem_of_cons in Hk as [->|Hk]; [simpl; lia|]).
  by apply elem_of_nil in Hk.
Qed.

Section table_facts.
Variable ops : cost_ops.
Variable notes : list note.

Lemma init_first_note_spec :
  notes ≠ [] →
  init_first_note ops notes
    (replicate (length notes) [], replicate (length notes) []) =
  Ok (tables_upto ops notes 0).
Proof.
  intros Hne. destruct notes as [|n0 rest] eqn:En; [done|].
  unfold init_first_note, list_item. cbn [lookup list_lookup mbind result_bind].
  rewrite for_states_flat.
  rewrite (for_each_ext _ _
    (fill_body (λ _ k, Ok (Fin (init_cost ops n0 k), None)) 0)).
  2:{ intros [dp bp] [h f] _. reflexivity. }
  rewrite (fill_row _ (λ k, Fin (init_cost ops n0 k)) (λ _, None) 0 STATES []).
  - unfold tables_upto. cbn [length seq map app Nat.sub].
    by rewrite Nat.sub_0_r.
  - apply STATES_NoDup.
  - done.
  - done.
  - done.
Qed.

Lemma tables_upto_dp_lookup k i :
  (i ≤ k)%nat → fst (tables_upto ops notes k) !! i = Some (dp_row ops notes i).
Proof.
  intros Hi. unfold tables_upto. cbn [fst].
  rewrite lookup_app_l by (rewrite length_map, length_seq; lia).
  rewrite list_lookup_fmap, lookup_seq_lt by lia. done.
Qed.

Lemma tables_upto_bp_lookup k i :
  (i ≤ k)%nat → snd (tables_upto ops notes k) !! i = Some (bp_row ops notes i).
Proof.
  intros Hi. unfold tables_upto. cbn [snd].
  rewrite lookup_app_l by (rewrite length_map, length_seq; lia).
  rewrite list_lookup_fmap, lookup_seq_lt by lia. done.
Qed.

Lemma tables_upto_next {A B} (row : nat → list (A * B)) j n :
  (S j < n)%nat →
  <[S j := row (S j)]> (map row (seq 0 (S j)) ++ replicate (n - S j) []) =
  map row (seq 0 (S (S j))) ++ replicate (n - S (S j)) [].
Proof.
  intros Hj.
  replace (n - S j)%nat with (S (n - S (S j))) by lia.
  rewrite (seq_S (S j)), map_app, <- (assoc_L (++)). cbn [replicate].
  set (l1 := map row (seq 0 (S j))).
  assert (Hlen : length l1 = S j) by (unfold l1; by rewrite length_map, length_seq).
  rewrite <- Hlen at 1.
  by rewrite (insert_app_r_alt l1 _ (length l1)), Nat.sub_diag by lia.
Qed.

Hypothesis Hok : ops_ok ops.

Lemma scan_sources_spec (dp : dp_table) j prev cur (k : hand * Z) :
  notes !! j = Some prev → notes !! S j = Some cur →
  dp !! j = Some (dp_row ops notes j) → k ∈ STATES →
  scan_sources ops dp (S j) prev cur (default 1 (n_chord_size cur))
               (fst k) (snd k) =
  Ok (Fin (dp_value ops notes (S j) k), bp_value ops notes (S j) k).
Proof.
  intros Hprev Hcur Hrow Hk. unfold scan_sources.
  rewrite for_states_flat.
  apply (scan_states (λ p, dp_value ops notes j p + trans_at ops notes j p k)%Qc).
  intros [bc bq] [hp fp] Hp. cbn [fst snd].
  unfold list_item. rewrite Nat.sub_succ, Nat.sub_0_r, Hrow.
  cbn [mbind result_bind].
  unfold dp_row. rewrite (dict_get_map _ _ _ Hp).
  unfold trans_at. rewrite Hprev, Hcur. unfold trans_cost.
  cbn [fst snd].
  destruct (Hok fp (snd k) (n_pitch prev) (n_pitch cur) hp (fst k)
              (default 1 (n_chord_size cur))) as [q ->];
    [by apply (STATES_in_range (hp, fp)) | by apply STATES_in_range |].
  cbn [mbind result_bind xadd].
  by destruct (xlt _ _).
Qed.

Lemma forward_step_spec j :
  (S j < length notes)%nat →
  forward_step ops notes (tables_upto ops notes j) (S j) =
  Ok (tables_upto ops notes (S j)).
Proof.
  intros Hj.
  destruct (lookup_lt_is_Some_2 notes (S j)) as [cur Hcur]; [done|].
  destruct (lookup_lt_is_Some_2 notes j) as [prev Hprev]; [lia|].
  unfold forward_step, list_item.
  rewrite Nat.sub_succ, Nat.sub_0_r, Hcur, Hprev. cbn [mbind result_bind].
  rewrite for_states_flat.
  rewrite (for_each_ext _ _
    (fill_body (λ dp k, scan_sources ops dp (S j) prev cur
                          (default 1 (n_chord_size cur)) (fst k) (snd k)) (S j))).
  2:{ intros [dp bp] [h f] _. unfold fill_body. cbn [fst snd].
      destruct (scan_sources _ _ _ _ _ _ _ _) as [[c b]|]; reflexivity. }
  change (tables_upto ops notes j)
    with (fst (tables_upto ops notes j), snd (tables_upto ops notes j)) at 1.
  rewrite (fill_row _ (λ k, Fin (dp_value ops notes (S j) k))
             (bp_value ops notes (S j)) (S j) STATES []).
  - cbn [app]. unfold tables_upto. cbn [fst snd].
    rewrite (tables_upto_next (dp_row ops notes)) by done.
    by rewrite (tables_upto_next (bp_row ops notes)) by done.
  - apply STATES_NoDup.
  - unfold tables_upto. cbn [fst].
    rewrite lookup_app_r by (rewrite length_map, length_seq; lia).
    rewrite length_map, length_seq, Nat.sub_diag.
    apply lookup_replicate_2. lia.
  - unfold tables_upto. cbn [snd].
    rewrite lookup_app_r by (rewrite length_map, length_seq; lia).
    rewrite length_map, length_seq, Nat.sub_diag.
    apply lookup_replicate_2. lia.
  - intros k dp' Hk Hsame. apply scan_sources_spec; try done.
    rewrite Hsame by lia. by apply tables_upto_dp_lookup.
Qed.

Lemma forward_pass_spec k :
  (k < length notes)%nat →
  for_each (seq 1 k) (forward_step ops notes) (tables_upto ops notes 0) =
  Ok (tables_upto ops notes k).
Proof.
  induction k as [|k IH]; intros Hk; [done|].
  rewrite seq_S, for_each_app, IH by lia. cbn [mbind result_bind for_each].
  rewrite forward_step_spec by done. done.
Qed.

Lemma solve_tables_spec :
  notes ≠ [] →
  solve_tables ops notes =
  Ok (map (dp_row ops notes) (seq 0 (length notes)),
      map (bp_row ops notes) (seq 0 (length notes))).
Proof.
  intros Hne. unfold solve_tables.
  rewrite init_first_note_spec by done. cbn [mbind result_bind].
  assert (Hlen : (0 < length notes)%nat) by (destruct notes; [done | simpl; lia]).
  rewrite forward_pass_spec by lia. unfold tables_upto.
  replace (S (length notes - 1)) with (length notes) by lia.
  by rewrite Nat.sub_diag, !app_nil_r.
Qed.
End table_facts.

(** ** Backtracking and result *)

Section trace_facts.
Variable ops : cost_ops.
Variable notes : list note.

Let nm1 := (length notes - 1)%nat.

Lemma bp_value_elem i s : default (R, 1) (bp_value ops notes i s) ∈ STATES.
Proof.
  destruct i as [|j]; cbn [bp_value default].
  - apply (bool_decide_unpack _). by vm_compute.
  - apply argmin_states_elem.
Qed.

Lemma chosen_state_elem k : chosen_state ops notes nm1 k ∈ STATES.
Proof.
  destruct k as [|k]; cbn [chosen_state].
  - apply argmin_states_elem.
  - apply bp_value_elem.
Qed.

Lemma trace_loop k :
  (k ≤ nm1)%nat →
  for_each (reverse (seq 1 k))
    (trace_step (map (bp_row ops notes) (seq 0 (length notes))))
    (map (chosen_state ops notes nm1) (seq 0 (S (nm1 - k)))) =
  Ok (map (chosen_state ops notes nm1) (seq 0 (S nm1))).
Proof.
  induction k as [|k IH]; intros Hk.
  - by rewrite Nat.sub_0_r.
  - rewrite seq_S, reverse_snoc. cbn [for_each Nat.add].
    assert (Hstep :
      trace_step (map (bp_row ops notes) (seq 0 (length notes)))
        (map (chosen_state ops notes nm1) (seq 0 (S (nm1 - S k)))) (S k) =
      Ok (map (chosen_state ops notes nm1) (seq 0 (S (nm1 - k))))).
    { unfold trace_step, list_item.
      rewrite list_lookup_fmap, lookup_seq_lt by (unfold nm1 in Hk; lia).
      cbn [fmap option_fmap option_map mbind result_bind Nat.add].
      rewrite seq_S, map_app. cbn [map Nat.add]. rewrite last_snoc.
      cbn [mbind result_bind]. unfold dict_item, bp_row.
      rewrite (dict_get_map _ _ _ (chosen_state_elem _)).
      cbn [mbind result_bind].
      replace (S (nm1 - k)) with (S (S (nm1 - S k))) by lia.
      rewrite (seq_S (S (nm1 - S k))), map_app. cbn [map Nat.add chosen_state].
      replace (nm1 - (nm1 - S k))%nat with (S k) by lia.
      by rewrite (seq_S (nm1 - S k)), map_app. }
    rewrite Hstep. cbn [mbind result_bind]. apply IH. lia.
Qed.

Lemma trace_path_spec :
  trace_path notes (map (bp_row ops notes) (seq 0 (length notes)))
    (snd (argmin_states (dp_value ops notes nm1))) =
  Ok (reverse (map (chosen_state ops notes nm1) (seq 0 (S nm1)))).
Proof.
  unfold trace_path. fold nm1.
  pose proof (trace_loop nm1 (Nat.le_refl _)) as Hloop.
  rewrite Nat.sub_diag in Hloop. cbn [seq map] in Hloop.
  cbn [chosen_state] in Hloop. by rewrite Hloop.
Qed.

Lemma build_result_loop (path : list (hand * Z)) (g : nat → hand * Z) :
  ∀ (ns : list note) (off : nat) (acc : list annotation),
    (∀ i, (i < length ns)%nat → path !! (off + i)%nat = Some (g (off + i)%nat)) →
    for_each (imap (λ i x, ((off + i)%nat, x)) ns)
      (λ result '(i, note),
         '(hand, finger) ← list_item path i;
         Ok (result ++ [ {| a_onset_time := n_start note;
                            a_pitch := n_pitch note;
                            a_hand := hand; a_finger := finger |} ])) acc =
    Ok (acc ++ imap (λ i nt,
                       {| a_onset_time := n_start nt; a_pitch := n_pitch nt;
                          a_hand := fst (g (off + i)%nat);
                          a_finger := snd (g (off + i)%nat) |}) ns).
Proof.
  induction ns as [|x ns IH]; intros off acc Hpath.
  - by rewrite app_nil_r.
  - rewrite !imap_cons.
    match goal with |- for_each _ ?b _ = _ => set (body := b) end.
    assert (Hstep : body acc ((off + 0)%nat, x) =
              Ok (acc ++ [ {| a_onset_time := n_start x; a_pitch := n_pitch x;
                              a_hand := fst (g (off + 0)%nat);
                              a_finger := snd (g (off + 0)%nat) |} ])).
    { unfold body, list_item. rewrite (Hpath 0%nat) by (simpl; lia).
      cbn [mbind result_bind]. by destruct (g (off + 0)%nat). }
    cbn [for_each]. rewrite Hstep. cbn [mbind result_bind].
    rewrite (imap_ext _ (λ i x, ((S off + i)%nat, x))).
    2:{ intros i y _. cbn. f_equal. lia. }
    rewrite IH.
    + rewrite <- (assoc_L (++)). cbn [app]. do 3 f_equal.
      apply imap_ext. intros i y _. cbn.
      by replace (off + S i)%nat with (S (off + i)) by lia.
    + intros i Hi. replace (S off + i)%nat with (off + S i)%nat by lia.
      apply Hpath. simpl. lia.
Qed.

Lemma build_result_spec (path : list (hand * Z)) (g : nat → hand * Z) :
  (∀ i, (i < length notes)%nat → path !! i = Some (g i)) →
  build_result notes path =
  Ok (imap (λ i nt, {| a_onset_time := n_start nt; a_pitch := n_pitch nt;
                       a_hand := fst (g i); a_finger := snd (g i) |}) notes).
Proof.
  intros Hpath. unfold build_result.
  apply (build_result_loop path g notes 0 []). done.
Qed.

Hypothesis Hok : ops_ok ops.

Lemma solve_final_spec :
  notes ≠ [] →
  solve_final ops notes =
  Ok (map (bp_row ops notes) (seq 0 (length notes)),
      (Fin (fst (argmin_states (dp_value ops notes nm1))),
       snd (argmin_states (dp_value ops notes nm1)))).
Proof.
  intros Hne. unfold solve_final.
  rewrite solve_tables_spec by done. cbn [mbind result_bind].
  assert (Hlen : (0 < length notes)%nat) by (destruct notes; [done | simpl; lia]).
  unfold list_item. rewrite list_lookup_fmap, lookup_seq_lt by lia.
  cbn [fmap option_fmap option_map mbind result_bind Nat.add].
  unfold dp_row. by rewrite best_final_states.
Qed.

Lemma solve_dp_spec :
  notes ≠ [] → solve_dp ops notes = Ok (solution ops notes).
Proof.
  intros Hne. unfold solve_dp.
  rewrite solve_final_spec by done. cbn [mbind result_bind].
  rewrite trace_path_spec. cbn [mbind result_bind].
  apply (build_result_spec _ (λ i, chosen_state ops notes nm1 (nm1 - i))).
  intros i Hi.
  rewrite reverse_lookup by (rewrite length_map, length_seq; unfold nm1; lia).
  rewrite length_map, length_seq, list_lookup_fmap, lookup_seq_lt by lia.
  cbn. do 2 f_equal.
Qed.

Lemma dp_min_cost_spec :
  notes ≠ [] →
  dp_min_cost ops notes =
  Ok (Fin (fst (argmin_states (dp_value ops notes (length notes - 1))))).
Proof.
  intros Hne. unfold dp_min_cost. by rewrite solve_final_spec.
Qed.
End trace_facts.

(** ** Claims about the cost model *)

Example sample_model_constructed :
  FingeringCostModel_init (Some sample_cfg) = Ok sample_model.
Proof. by vm_compute. Qed.

Lemma ops_of_ok (m : FingeringCostModel) :
  span_covered m = true → ops_ok (ops_of m).
Proof. intros Hc fa fb pa pb ha hb cs Ha Hb. by apply total_cost_covered. Qed.

(** C1, as the spec states it, fails on the code: a parameter set with all
    eight required keys whose span table lacks the pair (1, 2) constructs
    without error, and the missing-entry error is raised by [stretch_cost]
    at call time. *)
Lemma pair_coverage_not_checked_at_construction :
  ∃ span m,
    cfg_missing_pair !! "max_comfortable_span"%string = Some (YMap span) ∧
    span !! pair_key 1 2 = None ∧
    FingeringCostModel_init (Some cfg_missing_pair) = Ok m ∧
    stretch_cost m 1 2 7 = Raise (ValueError (MissingSpan "1_2")).
Proof.
  exists (delete "1_2"%string full_span). eexists.
  split_and!; by vm_compute.
Qed.

(** C1 (amended): construction fails with the error naming a missing key
    whenever one of the eight required top-level keys is absent; the
    finger-pair entries are looked at only by [stretch_cost], which raises the
    missing-entry error naming the pair at call time exactly when the fingers
    differ and the pair has no entry, and never raises on fingers 1..5 when
    all ten pairs have an entry. *)
Theorem construction_checks_required_keys_only (cfg : gmap string yaml) :
  ((∃ k, k ∈ required_keys ∧ cfg !! k = None) →
     ∃ k, k ∈ required_keys ∧ cfg !! k = None ∧
          FingeringCostModel_init (Some cfg) = Raise (ValueError (MissingKey k))) ∧
  (∀ m span, FingeringCostModel_init (Some cfg) = Ok m →
     cfg !! "max_comfortable_span"%string = Some (YMap span) →
     max_comfortable_span m = YMap span ∧
     (∀ a b iv,
         stretch_cost m a b iv = Raise (ValueError (MissingSpan (pair_key a b)))
         ↔ a ≠ b ∧ span !! pair_key a b = None) ∧
     (span_covers span = true →
      ∀ a b iv, in_range a → in_range b → is_ok (stretch_cost m a b iv) = true)).
Proof.
  split.
  - intros (k & Hk & Hmiss).
    destruct (check_required_first_missing cfg _ k Hk Hmiss) as (k' & ? & ? & Hc).
    exists k'. split_and!; [done..|].
    unfold FingeringCostModel_init. by rewrite Hc.
  - intros m span Hinit Hspan.
    assert (Hm : max_comfortable_span m = YMap span).
    { unfold FingeringCostModel_init in Hinit.
      repeat (apply result_bind_ok in Hinit as (? & ? & Hinit)).
      unfold cfg_item in *. rewrite Hspan in *.
      simplify_eq. done. }
    split_and!; [done| |].
    + intros a b iv. unfold stretch_cost. rewrite Hm.
      destruct (decide (a = b)); [by split; [|intros [? _]]|].
      destruct (span !! pair_key a b) eqn:E.
      * cbn zeta. by case_decide; (split; [|intros [_ ?]]).
      * done.
    + intros Hcov a b iv Ha Hb.
      destruct (stretch_cost_covered m a b iv) as [q ->]; try done.
      unfold span_covered. by rewrite Hm.
Qed.

Lemma construction_checks_required_keys_only_witness :
  max_comfortable_span sample_model = YMap full_span ∧
  is_ok (stretch_cost sample_model 2 5 12) = true.
Proof.
  destruct (construction_checks_required_keys_only sample_cfg) as [_ H].
  destruct (H sample_model full_span) as (Hsp & _ & Hcov);
    [by vm_compute | by vm_compute |].
  split; [exact Hsp|].
  apply Hcov; [by vm_compute | unfold in_range; lia ..].
Defined.

(** C2: [total_cost] is stretch + crossing + repetition when the hands are
    equal and [hand_switch_cost] alone (the hand-switch weight) when they
    differ; [chord_penalty] and [weak_finger_cost] of the destination finger
    are added in both cases. *)
Theorem total_cost_decomposition (m : FingeringCostModel)
    (finger_a finger_b pitch_a pitch_b : Z) (hand_a hand_b : hand)
    (chord_size : Z) :
  total_cost m finger_a finger_b pitch_a pitch_b hand_a hand_b chord_size =
  (if decide (hand_a = hand_b) then
     s ← stretch_cost m finger_a finger_b (Z.abs (pitch_b - pitch_a));
     Ok (s + crossing_cost m finger_a finger_b pitch_a pitch_b
           + repetition_cost m finger_a finger_b pitch_a pitch_b
           + chord_penalty m chord_size + weak_finger_cost m finger_b)%Qc
   else
     Ok (hand_switch_cost m hand_a hand_b
           + chord_penalty m chord_size + weak_finger_cost m finger_b)%Qc) ∧
  (if decide (hand_a = hand_b) then hand_switch_cost m hand_a hand_b = 0%Qc
   else hand_switch_cost m hand_a hand_b = hand_switch_weight m).
Proof.
  unfold total_cost, hand_switch_cost.
  destruct (decide (hand_a = hand_b)) as [Heq|Hne].
  - split; [|by rewrite decide_False by naive_solver].
    destruct (stretch_cost m finger_a finger_b _) as [s|e]; [|done].
    cbn [mbind result_bind]. by rewrite Qcplus_0_l.
  - rewrite decide_True by done. split; [|done].
    cbn [mbind result_bind]. by rewrite Qcplus_0_l.
Qed.

(** C7: a parameter set with every required key except
    ["hand_switch_weight"] is rejected with the error naming that key. *)
Theorem missing_hand_switch_weight_rejected (cfg : gmap string yaml) :
  (∀ k, k ∈ required_keys → k ≠ "hand_switch_weight"%string → is_Some (cfg !! k)) →
  cfg !! "hand_switch_weight"%string = None →
  FingeringCostModel_init (Some cfg) =
    Raise (ValueError (MissingKey "hand_switch_weight")).
Proof.
  intros Hall Hmiss. unfold FingeringCostModel_init, required_keys.
  cbn [check_required].
  repeat match goal with
  | |- context [cfg !! ?k] =>
      lazymatch k with
      | "hand_switch_weight"%string => fail
      | _ => destruct (Hall k) as [? ->];
             [ repeat (first [by left | right]) | done | ]
      end
  end.
  by rewrite Hmiss.
Qed.

Lemma missing_hand_switch_weight_rejected_witness :
  FingeringCostModel_init (Some cfg_missing_hand_switch) =
    Raise (ValueError (MissingKey "hand_switch_weight")).
Proof.
  apply missing_hand_switch_weight_rejected.
  - intros k Hk Hne.
    repeat (apply elem_of_cons in Hk as [->|Hk]; [by (vm_compute; eauto) || done|]).
    by apply elem_of_nil in Hk.
  - by vm_compute.
Defined.

(** ** Claims about [solve] *)

(** C8: on the empty sequence [solve] returns the empty sequence, whatever
    the cost-model class does: the result is the same for every constructor
    and every cost function, including ones that raise on every call, so no
    cost computation contributes to it. *)
Theorem solve_empty_without_costs
    (construct : option (gmap string yaml) → result cost_ops)
    (config_path : option (gmap string yaml)) :
  solve_with construct [] config_path = Ok [] ∧
  solve_with (λ _, Raise TypeError) [] config_path = Ok [] ∧
  solve_with (λ _, Ok {| op_split_pitch := 0; op_hand_switch_weight := 0%Qc;
                         op_weak_finger_cost := λ _, 0%Qc;
                         op_total_cost := λ _ _ _ _ _ _ _, Raise TypeError |})
             [] config_path = Ok [] ∧
  solve [] config_path = Ok [].
Proof. done. Qed.

(** C10: on the empty sequence [solve] returns before the cost model is
    constructed: the result is the empty sequence for every configuration
    source, although for a non-empty sequence a construction error is what
    [solve] raises. *)
Theorem solve_empty_ignores_configuration (config_path : option (gmap string yaml)) :
  solve [] config_path = Ok [] ∧
  (∀ e n0 rest, FingeringCostModel_init config_path = Raise e →
                solve (n0 :: rest) config_path = Raise e).
Proof.
  split; [done|]. intros e n0 rest He.
  unfold solve, solve_with, build_cost_ops. by rewrite He.
Qed.

Lemma solve_empty_ignores_configuration_witness :
  solve [] None = Ok [] ∧
  solve [] (Some cfg_missing_hand_switch) = Ok [] ∧
  solve [] (Some cfg_missing_pair) = Ok [] ∧
  solve sample_notes None = Raise FileNotFoundError.
Proof.
  split_and!; try apply solve_empty_ignores_configuration.
  by vm_compute.
Defined.

Lemma solve_valid (notes : list note) (config_path : option (gmap string yaml)) :
  valid_config config_path = true → notes ≠ [] →
  ∃ m, FingeringCostModel_init config_path = Ok m ∧ span_covered m = true ∧
       solve notes config_path = Ok (solution (ops_of m) notes).
Proof.
  intros Hvalid Hne.
  destruct (valid_config_init _ Hvalid) as (m & Hm & Hcov).
  exists m. split_and!; [done..|].
  unfold solve, solve_with, build_cost_ops. rewrite Hm.
  destruct notes as [|n0 rest] eqn:En; [done|].
  cbn [mbind result_bind]. rewrite <- En.
  apply solve_dp_spec; [by apply ops_of_ok | by subst].
Qed.

(** C3: for a valid configuration [solve] returns one annotation per note,
    in order, each with the onset time and pitch of its note. *)
Theorem solve_preserves_notes (notes : list note)
    (config_path : option (gmap string yaml)) :
  valid_config config_path = true →
  ∃ anns, solve notes config_path = Ok anns ∧
          length anns = length notes ∧
          (λ a, (a_onset_time a, a_pitch a)) <$> anns =
            (λ nt, (n_start nt, n_pitch nt)) <$> notes.
Proof.
  intros Hvalid. destruct (decide (notes = [])) as [->|Hne].
  { exists []. done. }
  destruct (solve_valid notes _ Hvalid Hne) as (m & _ & _ & ->).
  eexists. split; [done|]. unfold solution. split.
  - by rewrite length_imap.
  - apply list_eq. intros i.
    rewrite !list_lookup_fmap, list_lookup_imap. by destruct (_ !! i).
Qed.

Lemma solve_preserves_notes_witness :
  ∃ anns, solve sample_notes (Some sample_cfg) = Ok anns ∧
          length anns = length sample_notes ∧
          (λ a, (a_onset_time a, a_pitch a)) <$> anns =
            (λ nt, (n_start nt, n_pitch nt)) <$> sample_notes.
Proof. apply solve_preserves_notes. by vm_compute. Defined.

Lemma table_set_lookup_ne {K V} `{EqDecision K}
    (tab tab' : list (list (K * V))) i j k v :
  table_set tab i k v = Ok tab' → i ≠ j → tab' !! j = tab !! j.
Proof.
  unfold table_set. intros (row & _ & Heq)%result_bind_ok Hne.
  injection Heq as <-. by apply list_lookup_insert_ne.
Qed.

Lemma forward_step_keeps_first_row ops notes
    (tabs tabs' : list (list ((hand * Z) * xcost)) *
                  list (list ((hand * Z) * option (hand * Z)))) i :
  (1 ≤ i)%nat → forward_step ops notes tabs i = Ok tabs' →
  fst tabs' !! 0%nat = fst tabs !! 0%nat.
Proof.
  intros Hi. unfold forward_step.
  intros (cur & _ & (prev & _ & Hrun)%result_bind_ok)%result_bind_ok.
  rewrite for_states_flat in Hrun.
  revert Hrun.
  apply (for_each_inv (λ t, fst t !! 0%nat = fst tabs !! 0%nat)); [|done].
  intros [dp bp] [h f] [dp1 bp1] _ Hinv Hbody. cbn [fst snd] in *.
  apply result_bind_ok in Hbody as ([c b] & _ & Hbody).
  apply result_bind_ok in Hbody as (dp2 & Hset & Hbody).
  apply result_bind_ok in Hbody as (bp2 & _ & Hbody).
  injection Hbody as <- <-.
  rewrite <- Hinv. eapply table_set_lookup_ne; [done | lia].
Qed.

(** C5: for a non-empty input, the cost stored at index 0 for each of the ten
    (hand, finger) states is [weak_finger_cost finger] plus a bias that is 0
    for the natural hand of the first pitch and half the hand-switch weight
    for the other hand; the forward pass leaves that row as it is. *)
Theorem initial_row_costs (m : FingeringCostModel) (n0 : note) (rest : list note) :
  let notes := n0 :: rest in
  let natural := if decide (n_pitch n0 ≤ split_pitch m) then L else R in
  let cost0 h f :=
    (weak_finger_cost m f +
     (if decide (h = natural) then 0 else hand_switch_weight m * Q2Qc (1 # 2)))%Qc in
  ∃ dp0 bp0 row,
    init_first_note (ops_of m) notes
      (replicate (length notes) [], replicate (length notes) []) = Ok (dp0, bp0) ∧
    dp0 !! 0%nat = Some row ∧
    fst <$> row = [(L, 1); (L, 2); (L, 3); (L, 4); (L, 5);
                   (R, 1); (R, 2); (R, 3); (R, 4); (R, 5)] ∧
    (∀ h f, (h, f) ∈ STATES → dict_get row (h, f) = Some (Fin (cost0 h f))) ∧
    (∀ dp bp, solve_tables (ops_of m) notes = Ok (dp, bp) →
              dp !! 0%nat = Some row).
Proof.
  intros notes natural cost0.
  pose proof (init_first_note_spec (ops_of m) notes) as Hinit.
  specialize (Hinit ltac:(done)).
  eexists _, _, (dp_row (ops_of m) notes 0).
  split_and!; [exact Hinit | done | done | |].
  - intros h f Hin. unfold dp_row. by rewrite (dict_get_map _ _ _ Hin).
  - intros dp bp Hrun. unfold solve_tables in Hrun. rewrite Hinit in Hrun.
    cbn [mbind result_bind] in Hrun.
    assert (Hkeep : fst (dp, bp) !! 0%nat =
                    fst (tables_upto (ops_of m) notes 0) !! 0%nat).
    { revert Hrun.
      apply (for_each_inv (λ t, fst t !! 0%nat =
                                fst (tables_upto (ops_of m) notes 0) !! 0%nat));
        [|done].
      intros s i s' Hi%elem_of_seq Hs Hstep.
      rewrite <- Hs. eapply forward_step_keeps_first_row; [|done]. lia. }
    cbn [fst] in Hkeep. rewrite Hkeep. by apply tables_upto_dp_lookup.
Qed.

Lemma cell_dp_row ops notes i (q : hand * Z) :
  q ∈ STATES → cell (dp_row ops notes i) q = dp_value ops notes i q.
Proof. intros Hq. unfold cell, dp_row. by rewrite (dict_get_map _ _ _ Hq). Qed.



(** ** Monotonicity in the weights *)

Section monotone.
Local Open Scope Qc_scope.

Lemma Qc_of_Z_nonneg (z : Z) : (0 ≤ z)%Z → 0 ≤ Qc_of_Z z.
Proof.
  intros Hz. unfold Qcle, Qc_of_Z. cbn. unfold Qle.
  change (Qred 0) with 0%Q. cbn. lia.
Qed.

Lemma Qc_scale_mono (k x y : Qc) : 0 ≤ k → x ≤ y → k * x ≤ k * y.
Proof.
  intros Hk Hxy. rewrite !(Qcmult_comm k). by apply Qcmult_le_compat_r.
Qed.

Lemma dp_value_mono ops ops' notes :
  (∀ n0 s, s ∈ STATES → init_cost ops n0 s ≤ init_cost ops' n0 s) →
  (∀ prev cur p s, p ∈ STATES → s ∈ STATES →
     trans_cost ops prev cur p s ≤ trans_cost ops' prev cur p s) →
  ∀ i s, s ∈ STATES → dp_value ops notes i s ≤ dp_value ops' notes i s.
Proof.
  intros Hinit Htrans. induction i as [|j IH]; intros s Hs; cbn [dp_value].
  - destruct (notes !! 0%nat); [by apply Hinit | apply Qcle_refl].
  - apply argmin_states_mono. intros q Hq.
    apply Qcplus_le_compat; [by apply IH|].
    unfold trans_at. destruct (notes !! j), (notes !! S j);
      try apply Qcle_refl. by apply Htrans.
Qed.

Variable m : FingeringCostModel.
Variable w : weight.
Variable v : Qc.
Hypothesis Hv : get_weight w m ≤ v.

Let m' := set_weight w v m.

Lemma stretch_weight_mono : stretch_weight m ≤ stretch_weight m'.
Proof. destruct w; cbn; first [exact Hv | apply Qcle_refl]. Qed.
Lemma crossing_weight_mono : crossing_weight m ≤ crossing_weight m'.
Proof. destruct w; cbn; first [exact Hv | apply Qcle_refl]. Qed.
Lemma repetition_weight_mono : repetition_weight m ≤ repetition_weight m'.
Proof. destruct w; cbn; first [exact Hv | apply Qcle_refl]. Qed.
Lemma hand_switch_weight_mono : hand_switch_weight m ≤ hand_switch_weight m'.
Proof. destruct w; cbn; first [exact Hv | apply Qcle_refl]. Qed.
Lemma chord_penalty_weight_mono :
  chord_penalty_weight m ≤ chord_penalty_weight m'.
Proof. destruct w; cbn; first [exact Hv | apply Qcle_refl]. Qed.
Lemma weak_finger_weight_mono : weak_finger_weight m ≤ weak_finger_weight m'.
Proof. destruct w; cbn; first [exact Hv | apply Qcle_refl]. Qed.

Lemma set_weight_span : max_comfortable_span m' = max_comfortable_span m.
Proof. done. Qed.

Lemma set_weight_split : split_pitch m' = split_pitch m.
Proof. done. Qed.

Lemma stretch_cost_mono a b iv :
  match stretch_cost m a b iv, stretch_cost m' a b iv with
  | Ok x, Ok y => x ≤ y
  | Raise e, Raise e' => e = e'
  | _, _ => False
  end.
Proof.
  unfold stretch_cost. rewrite set_weight_span.
  destruct (decide (a = b)); [apply Qcle_refl|].
  destruct (max_comfortable_span m) as [|span]; [done|].
  destruct (span !! pair_key a b) as [max_span|]; [|done].
  cbn zeta. case_decide; [apply Qcle_refl|].
  apply Qc_scale_mono; [apply Qc_of_Z_nonneg; lia | apply stretch_weight_mono].
Qed.

Lemma crossing_cost_mono a b pa pb :
  crossing_cost m a b pa pb ≤ crossing_cost m' a b pa pb.
Proof.
  unfold crossing_cost. cbn zeta.
  repeat case_decide; first [apply Qcle_refl | apply crossing_weight_mono].
Qed.

Lemma repetition_cost_mono a b pa pb :
  repetition_cost m a b pa pb ≤ repetition_cost m' a b pa pb.
Proof.
  unfold repetition_cost.
  case_decide; first [apply Qcle_refl | apply repetition_weight_mono].
Qed.

Lemma hand_switch_cost_mono ha hb :
  hand_switch_cost m ha hb ≤ hand_switch_cost m' ha hb.
Proof.
  unfold hand_switch_cost.
  case_decide; first [apply Qcle_refl | apply hand_switch_weight_mono].
Qed.

Lemma chord_penalty_mono cs : chord_penalty m cs ≤ chord_penalty m' cs.
Proof.
  unfold chord_penalty. cbn zeta. case_decide; [apply Qcle_refl|].
  apply Qc_scale_mono; [apply Qc_of_Z_nonneg; lia | apply chord_penalty_weight_mono].
Qed.

Lemma weak_finger_cost_mono f : weak_finger_cost m f ≤ weak_finger_cost m' f.
Proof.
  unfold weak_finger_cost.
  case_decide; first [apply Qcle_refl | apply weak_finger_weight_mono].
Qed.

Lemma total_cost_mono fa fb pa pb ha hb cs :
  match total_cost m fa fb pa pb ha hb cs,
        total_cost m' fa fb pa pb ha hb cs with
  | Ok x, Ok y => x ≤ y
  | Raise e, Raise e' => e = e'
  | _, _ => False
  end.
Proof.
  unfold total_cost. cbn zeta. destruct (decide (ha = hb)).
  - pose proof (stretch_cost_mono fa fb (Z.abs (pb - pa))) as Hs.
    destruct (stretch_cost m fa fb _) as [x|ex],
             (stretch_cost m' fa fb _) as [y|ey]; try done.
    cbn [mbind result_bind].
    repeat apply Qcplus_le_compat; try apply Qcle_refl; try done.
    + apply crossing_cost_mono.
    + apply repetition_cost_mono.
    + apply chord_penalty_mono.
    + apply weak_finger_cost_mono.
  - cbn [mbind result_bind].
    repeat apply Qcplus_le_compat; try apply Qcle_refl.
    + apply hand_switch_cost_mono.
    + apply chord_penalty_mono.
    + apply weak_finger_cost_mono.
Qed.

Lemma trans_cost_mono prev cur p s :
  trans_cost (ops_of m) prev cur p s ≤ trans_cost (ops_of m') prev cur p s.
Proof.
  unfold trans_cost. cbn [op_total_cost ops_of].
  pose proof (total_cost_mono (snd p) (snd s) (n_pitch prev) (n_pitch cur)
                (fst p) (fst s) (default 1%Z (n_chord_size cur))) as Ht.
  destruct (total_cost m _ _ _ _ _ _ _), (total_cost m' _ _ _ _ _ _ _);
    done.
Qed.

Lemma init_cost_mono n0 s :
  init_cost (ops_of m) n0 s ≤ init_cost (ops_of m') n0 s.
Proof.
  unfold init_cost, preferred_hand. cbn [ops_of op_weak_finger_cost
    op_hand_switch_weight op_split_pitch]. rewrite set_weight_split.
  apply Qcplus_le_compat; [apply weak_finger_cost_mono|].
  case_decide; [apply Qcle_refl|].
  apply Qcmult_le_compat_r; [apply hand_switch_weight_mono | done].
Qed.
End monotone.

(** C6: raising any single one of the six weights, everything else fixed,
    never lowers the minimum cumulative cost that the DP finds. *)
Theorem min_cost_monotone_in_each_weight (m : FingeringCostModel)
    (notes : list note) (w : weight) (v : Qc) :
  span_covered m = true → notes ≠ [] → (get_weight w m ≤ v)%Qc →
  ∃ c c', dp_min_cost (ops_of m) notes = Ok (Fin c) ∧
          dp_min_cost (ops_of (set_weight w v m)) notes = Ok (Fin c') ∧
          (c ≤ c')%Qc.
Proof.
  intros Hcov Hne Hv.
  eexists _, _. split_and!.
  - by apply dp_min_cost_spec; [apply ops_of_ok|].
  - by apply dp_min_cost_spec; [apply ops_of_ok|].
  - apply argmin_states_mono. intros q Hq.
    apply dp_value_mono; [| |done].
    + intros. by apply init_cost_mono.
    + intros. by apply trans_cost_mono.
Qed.

Lemma min_cost_monotone_in_each_weight_witness :
  ∃ c c', dp_min_cost (ops_of sample_model) sample_notes = Ok (Fin c) ∧
          dp_min_cost (ops_of (set_weight Crossing (Q2Qc 10) sample_model))
                      sample_notes = Ok (Fin c') ∧
          (c ≤ c')%Qc.
Proof.
  apply min_cost_monotone_in_each_weight; [by vm_compute | done | by vm_compute].
Defined.

(** ** Notes that [solve] cannot tell apart *)

Lemma for_each_Forall2 {A B S} (R : A → B → Prop) (xs : list A) (ys : list B)
    (body : S → A → result S) (body' : S → B → result S) s :
  Forall2 R xs ys → (∀ s x y, R x y → body s x = body' s y) →
  for_each xs body s = for_each ys body' s.
Proof.
  intros HR Hbody. revert s.
  induction HR as [|x y xs ys Hxy _ IH]; intros s; [done|].
  cbn [for_each]. rewrite (Hbody s x y Hxy).
  destruct (body' s y); cbn [mbind result_bind]; [apply IH | done].
Qed.

Lemma imap_pair_Forall2 {A} (R : A → A → Prop) (xs ys : list A) :
  Forall2 R xs ys →
  ∀ g : nat → nat,
    Forall2 (λ a b, fst a = fst b ∧ R (snd a) (snd b))
            (imap (λ i x, (g i, x)) xs) (imap (λ i x, (g i, x)) ys).
Proof.
  induction 1 as [|x y xs ys Hxy _ IH]; intros g; [constructor|].
  rewrite !imap_cons. constructor; [done|]. apply (IH (g ∘ S)).
Qed.

Section note_eqv_facts.
Variable ops : cost_ops.
Variables notes notes' : list note.
Hypothesis Heqv : Forall2 note_eqv notes notes'.

Lemma note_eqv_lookup i :
  match notes !! i, notes' !! i with
  | Some x, Some y => note_eqv x y
  | None, None => True
  | _, _ => False
  end.
Proof.
  pose proof (proj1 (Forall2_lookup _ _ _) Heqv i) as Hi.
  by destruct Hi.
Qed.

Lemma init_first_note_eqv tabs :
  init_first_note ops notes tabs = init_first_note ops notes' tabs.
Proof.
  unfold init_first_note, list_item. pose proof (note_eqv_lookup 0) as H0.
  destruct (notes !! 0%nat) as [x|], (notes' !! 0%nat) as [y|]; try done.
  destruct H0 as (Hp & _ & _). cbn [mbind result_bind]. by rewrite Hp.
Qed.

Lemma forward_step_eqv tabs i :
  forward_step ops notes tabs i = forward_step ops notes' tabs i.
Proof.
  unfold forward_step, list_item.
  pose proof (note_eqv_lookup i) as Hi.
  pose proof (note_eqv_lookup (i - 1)) as Hj.
  destruct (notes !! i) as [x|], (notes' !! i) as [y|]; try done.
  cbn [mbind result_bind].
  destruct (notes !! (i - 1)%nat) as [x'|], (notes' !! (i - 1)%nat) as [y'|];
    try done.
  destruct Hi as (Hp & _ & Hc), Hj as (Hp' & _ & _).
  cbn [mbind result_bind]. unfold scan_sources. by rewrite Hp, Hc, Hp'.
Qed.

Lemma solve_tables_eqv : solve_tables ops notes = solve_tables ops notes'.
Proof.
  unfold solve_tables. rewrite <- (list.Forall2_length _ _ _ Heqv).
  rewrite init_first_note_eqv.
  destruct (init_first_note ops notes' _) as [tabs|]; [|done].
  cbn [mbind result_bind]. apply for_each_ext.
  intros. apply forward_step_eqv.
Qed.

Lemma build_result_eqv path :
  build_result notes path = build_result notes' path.
Proof.
  unfold build_result.
  apply (for_each_Forall2 (λ a b, fst a = fst b ∧ note_eqv (snd a) (snd b))).
  - apply (imap_pair_Forall2 note_eqv notes notes' Heqv id).
  - intros s [i x] [j y] [Hij (Hp & Hs & _)]. cbn [fst snd] in *. subst j.
    by rewrite Hp, Hs.
Qed.

Lemma solve_final_eqv : solve_final ops notes = solve_final ops notes'.
Proof.
  unfold solve_final.
  by rewrite solve_tables_eqv, <- (list.Forall2_length _ _ _ Heqv).
Qed.

Lemma solve_dp_eqv : solve_dp ops notes = solve_dp ops notes'.
Proof.
  unfold solve_dp, trace_path.
  rewrite solve_final_eqv, <- (list.Forall2_length _ _ _ Heqv).
  destruct (solve_final ops notes') as [[bp [c s]]|]; [|done].
  cbn [mbind result_bind].
  destruct (for_each _ _ _) as [path|]; [|done].
  cbn [mbind result_bind]. apply build_result_eqv.
Qed.

Lemma dp_min_cost_eqv : dp_min_cost ops notes = dp_min_cost ops notes'.
Proof. unfold dp_min_cost. by rewrite solve_final_eqv. Qed.
End note_eqv_facts.

(** The forward recurrence, read off the tables that the loops build: the
    cell of a state in row [j + 1] is the least of the sums of a cell of row
    [j] and the transition cost into the state, computed with the chord size
    that the note [j + 1] carries (1 if it carries none). *)
Lemma dp_cell_recurrence (ops : cost_ops) (notes : list note)
    (j : nat) (prev cur : note) :
  ops_ok ops → notes !! j = Some prev → notes !! S j = Some cur →
  ∃ dp bp row prev_row,
    solve_tables ops notes = Ok (dp, bp) ∧
    dp !! S j = Some row ∧ dp !! j = Some prev_row ∧
    ∀ s, s ∈ STATES →
      ∃ p t, p ∈ STATES ∧
        op_total_cost ops (snd p) (snd s) (n_pitch prev) (n_pitch cur)
          (fst p) (fst s) (default 1 (n_chord_size cur)) = Ok t ∧
        dict_get row s = Some (Fin (cell prev_row p + t)) ∧
        ∀ q, q ∈ STATES →
          ∃ t', op_total_cost ops (snd q) (snd s) (n_pitch prev) (n_pitch cur)
                  (fst q) (fst s) (default 1 (n_chord_size cur)) = Ok t' ∧
                (cell prev_row p + t ≤ cell prev_row q + t')%Qc.
Proof.
  intros Hok Hprev Hcur.
  assert (Hne : notes ≠ []) by (intros ->; done).
  pose proof (lookup_lt_Some _ _ _ Hcur) as Hlt.
  eexists _, _, (dp_row ops notes (S j)), (dp_row ops notes j).
  split_and!; [by apply solve_tables_spec | | |].
  - by rewrite list_lookup_fmap, lookup_seq_lt by lia.
  - by rewrite list_lookup_fmap, lookup_seq_lt by lia.
  - intros s Hs.
    assert (Htrans : ∀ q, q ∈ STATES →
      op_total_cost ops (snd q) (snd s) (n_pitch prev) (n_pitch cur)
        (fst q) (fst s) (default 1 (n_chord_size cur)) =
      Ok (trans_at ops notes j q s)).
    { intros q Hq. unfold trans_at, trans_cost. rewrite Hprev, Hcur.
      destruct (Hok (snd q) (snd s) (n_pitch prev) (n_pitch cur) (fst q) (fst s)
                  (default 1 (n_chord_size cur))) as [t ->];
        [by apply STATES_in_range..|done]. }
    set (f := λ p, (dp_value ops notes j p + trans_at ops notes j p s)%Qc).
    destruct (argmin_states_spec f) as [Hval _].
    pose proof (argmin_states_elem f) as Hin.
    exists (snd (argmin_states f)), (trans_at ops notes j (snd (argmin_states f)) s).
    split_and!; [done | by apply Htrans | |].
    + rewrite cell_dp_row by done. unfold dp_row.
      rewrite (dict_get_map (λ s, Fin (dp_value ops notes (S j) s))) by done.
      cbn [dp_value]. fold f. by rewrite Hval.
    + intros q Hq. exists (trans_at ops notes j q s). split; [by apply Htrans|].
      rewrite !cell_dp_row by done.
      change (f (snd (argmin_states f)) ≤ f q)%Qc. rewrite <- Hval.
      by apply argmin_states_le.
Qed.

Lemma solve_eqv notes notes' src :
  Forall2 note_eqv notes notes' → solve notes src = solve notes' src.
Proof.
  intros Heqv. unfold solve, solve_with.
  destruct Heqv as [|x y xs ys Hxy Hrest]; [done|].
  destruct (build_cost_ops src) as [ops|]; [|done].
  cbn [mbind result_bind]. apply solve_dp_eqv. by constructor.
Qed.

Lemma chord_penalty_one (m : FingeringCostModel) : chord_penalty m 1 = 0%Qc.
Proof. done. Qed.

(** C9: a note at an index i >= 1 that has no [chord_size] is treated as a
    note with chord size 1.  For every cost model the DP tables (costs and
    backpointers), the minimum cost and the result of [solve] are those of
    the passage in which that note carries [chord_size = 1]; with a valid
    configuration each cost in row i is the least sum of a cost of row i - 1
    and [total_cost] called with chord size 1, for which [chord_penalty] is
    0; and [solve] returns annotations, not an error. *)
Theorem missing_chord_size_is_one (notes : list note)
    (config_path : option (gmap string yaml)) (i : nat) (nt : note) :
  (1 ≤ i)%nat → notes !! i = Some nt → n_chord_size nt = None →
  (∀ ops : cost_ops,
     solve_tables ops notes =
       solve_tables ops (<[i := with_chord_size 1 nt]> notes) ∧
     dp_min_cost ops notes =
       dp_min_cost ops (<[i := with_chord_size 1 nt]> notes)) ∧
  solve notes config_path =
    solve (<[i := with_chord_size 1 nt]> notes) config_path ∧
  (∀ m, chord_penalty m 1 = 0%Qc) ∧
  (valid_config config_path = true →
   is_ok (solve notes config_path) = true ∧
   ∃ m dp bp row prev_row prev,
     FingeringCostModel_init config_path = Ok m ∧
     solve_tables (ops_of m) notes = Ok (dp, bp) ∧
     dp !! i = Some row ∧ dp !! (i - 1)%nat = Some prev_row ∧
     notes !! (i - 1)%nat = Some prev ∧
     ∀ s, s ∈ STATES →
       ∃ p t, p ∈ STATES ∧
         total_cost m (snd p) (snd s) (n_pitch prev) (n_pitch nt)
           (fst p) (fst s) 1 = Ok t ∧
         dict_get row s = Some (Fin (cell prev_row p + t)) ∧
         ∀ q, q ∈ STATES →
           ∃ t', total_cost m (snd q) (snd s) (n_pitch prev) (n_pitch nt)
                   (fst q) (fst s) 1 = Ok t' ∧
                 (cell prev_row p + t ≤ cell prev_row q + t')%Qc).
Proof.
  intros Hi Hnt Hnone.
  assert (Heqv : Forall2 note_eqv notes (<[i := with_chord_size 1 nt]> notes)).
  { rewrite <- (list_insert_id notes i nt) at 1 by done.
    apply Forall2_insert.
    - apply Forall_Forall2_diag, Forall_forall. by intros.
    - unfold note_eqv, with_chord_size. cbn. by rewrite Hnone. }
  split_and!.
  - intros ops. split; [by apply solve_tables_eqv | by apply dp_min_cost_eqv].
  - by apply solve_eqv.
  - apply chord_penalty_one.
  - intros Hvalid.
    assert (Hne : notes ≠ []) by (intros ->; done).
    destruct (solve_valid notes config_path Hvalid Hne) as (m & Hm & Hcov & Hs).
    split; [by rewrite Hs|].
    destruct i as [|j]; [lia|]. rewrite Nat.sub_succ, Nat.sub_0_r.
    destruct (lookup_lt_is_Some_2 notes j) as [prev Hprev].
    { apply lookup_lt_Some in Hnt. lia. }
    destruct (dp_cell_recurrence (ops_of m) notes j prev nt
                (ops_of_ok m Hcov) Hprev Hnt)
      as (dp & bp & row & prev_row & Htabs & Hrow & Hprow & Hcells).
    exists m, dp, bp, row, prev_row, prev. split_and!; [done..|].
    intros s Hs'. specialize (Hcells s Hs'). rewrite Hnone in Hcells. exact Hcells.
Qed.

Lemma missing_chord_size_is_one_witness :
  (∀ ops : cost_ops,
     solve_tables ops notes_missing_chord =
       solve_tables ops (<[1%nat := with_chord_size 1 (mk_note 64 (1 # 2) None)]>
                           notes_missing_chord) ∧
     dp_min_cost ops notes_missing_chord =
       dp_min_cost ops (<[1%nat := with_chord_size 1 (mk_note 64 (1 # 2) None)]>
                          notes_missing_chord)) ∧
  solve notes_missing_chord (Some sample_cfg) =
    solve (<[1%nat := with_chord_size 1 (mk_note 64 (1 # 2) None)]>
             notes_missing_chord) (Some sample_cfg) ∧
  is_ok (solve notes_missing_chord (Some sample_cfg)) = true.
Proof.
  destruct (missing_chord_size_is_one notes_missing_chord (Some sample_cfg) 1
              (mk_note 64 (1 # 2) None)) as (Htabs & Hsolve & _ & Hvalid);
    [lia | done | done |].
  split_and!; [exact Htabs | exact Hsolve |].
  apply Hvalid. by vm_compute.
Defined.

(** The chord size does enter the costs: with chord size 7 on the second
    note of the sample passage the minimum cost is 10 higher (two notes over
    five fingers at weight 5) than with no chord size or with chord size 1,
    while the annotations are the same. *)
Example chord_size_enters_the_cost :
  dp_min_cost (ops_of sample_model) notes_missing_chord =
    dp_min_cost (ops_of sample_model)
      (<[1%nat := with_chord_size 1 (mk_note 64 (1 # 2) None)]>
         notes_missing_chord) ∧
  (∃ c, dp_min_cost (ops_of sample_model) notes_missing_chord = Ok (Fin c) ∧
        dp_min_cost (ops_of sample_model)
          (<[1%nat := with_chord_size 7 (mk_note 64 (1 # 2) None)]>
             notes_missing_chord) = Ok (Fin (c + Q2Qc 10))) ∧
  solve notes_missing_chord (Some sample_cfg) =
    solve (<[1%nat := with_chord_size 7 (mk_note 64 (1 # 2) None)]>
             notes_missing_chord) (Some sample_cfg).
Proof. split_and!; [by vm_compute | eexists; by vm_compute | by vm_compute]. Qed.

(** ** Sanity checks on the sample passage *)

Example solve_sample :
  solve sample_notes (Some sample_cfg) =
  Ok [ {| a_onset_time := Q2Qc 0; a_pitch := 60; a_hand := L; a_finger := 1 |};
       {| a_onset_time := Q2Qc (1 # 2); a_pitch := 64; a_hand := L; a_finger := 2 |};
       {| a_onset_time := Q2Qc 1; a_pitch := 67; a_hand := L; a_finger := 3 |} ].
Proof. by vm_compute. Qed.

Example solve_sample_missing_pair :
  solve sample_notes (Some cfg_missing_pair) =
  Raise (ValueError (MissingSpan "1_2")).
Proof. by vm_compute. Qed.

Example solve_single_note_missing_pair :
  solve (take 1 sample_notes) (Some cfg_missing_pair) =
  Ok [ {| a_onset_time := Q2Qc 0; a_pitch := 60; a_hand := L; a_finger := 1 |} ].
Proof. by vm_compute. Qed.

Example solve_sample_missing_chord :
  is_ok (solve notes_missing_chord (Some sample_cfg)) = true.
Proof. by vm_compute. Qed.

(** * Further properties of the cost model *)

Section cost_signs.
Local Open Scope Qc_scope.

Lemma Qc_of_Z_mono (x y : Z) : (x ≤ y)%Z → Qc_of_Z x ≤ Qc_of_Z y.
Proof. intros Hxy. unfold Qcle, Qc_of_Z. cbn. unfold Qle. cbn. lia. Qed.

Lemma Qc_scale_nonneg (k x : Qc) : 0 ≤ k → 0 ≤ x → 0 ≤ k * x.
Proof.
  intros Hk Hx. rewrite <- (Qcmult_0_r k). by apply Qc_scale_mono.
Qed.

Variable m : FingeringCostModel.
Hypothesis Hnn : nonneg_weights m.

Lemma stretch_cost_nonneg a b iv q : stretch_cost m a b iv = Ok q → 0 ≤ q.
Proof.
  unfold stretch_cost. destruct (decide (a = b)); [by intros [= <-]|].
  destruct (max_comfortable_span m) as [|span]; [done|].
  destruct (span !! pair_key a b) as [max_span|]; [|done].
  cbn zeta. case_decide; intros [= <-]; [done|].
  apply Qc_scale_nonneg; [apply Qc_of_Z_nonneg; lia | apply (Hnn Stretch)].
Qed.

Lemma crossing_cost_nonneg a b pa pb : 0 ≤ crossing_cost m a b pa pb.
Proof.
  unfold crossing_cost. cbn zeta.
  repeat case_decide; first [done | apply (Hnn Crossing)].
Qed.

Lemma repetition_cost_nonneg a b pa pb : 0 ≤ repetition_cost m a b pa pb.
Proof.
  unfold repetition_cost. case_decide; first [done | apply (Hnn Repetition)].
Qed.

Lemma hand_switch_cost_nonneg ha hb : 0 ≤ hand_switch_cost m ha hb.
Proof.
  unfold hand_switch_cost. case_decide; first [done | apply (Hnn HandSwitch)].
Qed.

Lemma chord_penalty_nonneg cs : 0 ≤ chord_penalty m cs.
Proof.
  unfold chord_penalty. cbn zeta. case_decide; [done|].
  apply Qc_scale_nonneg; [apply Qc_of_Z_nonneg; lia | apply (Hnn ChordPenalty)].
Qed.

Lemma weak_finger_cost_nonneg f : 0 ≤ weak_finger_cost m f.
Proof.
  unfold weak_finger_cost. case_decide; first [done | apply (Hnn WeakFinger)].
Qed.

Lemma total_cost_nonneg fa fb pa pb ha hb cs q :
  total_cost m fa fb pa pb ha hb cs = Ok q → 0 ≤ q.
Proof.
  unfold total_cost. cbn zeta. destruct (decide (ha = hb)).
  - destruct (stretch_cost m fa fb _) as [s|ex] eqn:Es; [|done].
    cbn [mbind result_bind]. intros [= <-].
    repeat apply Qcplus_nonneg_nonneg; try done.
    + by eapply stretch_cost_nonneg.
    + apply crossing_cost_nonneg.
    + apply repetition_cost_nonneg.
    + apply chord_penalty_nonneg.
    + apply weak_finger_cost_nonneg.
  - cbn [mbind result_bind]. intros [= <-].
    repeat apply Qcplus_nonneg_nonneg; try done.
    + apply hand_switch_cost_nonneg.
    + apply chord_penalty_nonneg.
    + apply weak_finger_cost_nonneg.
Qed.
End cost_signs.

Lemma sample_model_nonneg : nonneg_weights sample_model.
Proof. intros []; by vm_compute. Qed.

(** X1: with non-negative weights no cost is negative: every component
    ([stretch_cost] when it returns, crossing, repetition, hand switch, chord
    penalty, weak finger) and every [total_cost] that is returned are >= 0,
    for all fingers, pitches, hands, intervals and chord sizes (also outside
    their documented ranges). *)
Theorem costs_are_nonnegative (m : FingeringCostModel)
    (fa fb pa pb iv cs : Z) (ha hb : hand) :
  nonneg_weights m →
  (∀ q, stretch_cost m fa fb iv = Ok q → (0 ≤ q)%Qc) ∧
  (0 ≤ crossing_cost m fa fb pa pb)%Qc ∧
  (0 ≤ repetition_cost m fa fb pa pb)%Qc ∧
  (0 ≤ hand_switch_cost m ha hb)%Qc ∧
  (0 ≤ chord_penalty m cs)%Qc ∧
  (0 ≤ weak_finger_cost m fb)%Qc ∧
  (∀ q, total_cost m fa fb pa pb ha hb cs = Ok q → (0 ≤ q)%Qc).
Proof.
  intros Hnn. split_and!.
  - intros q. by apply stretch_cost_nonneg.
  - by apply crossing_cost_nonneg.
  - by apply repetition_cost_nonneg.
  - by apply hand_switch_cost_nonneg.
  - by apply chord_penalty_nonneg.
  - by apply weak_finger_cost_nonneg.
  - intros q. by apply total_cost_nonneg.
Qed.

Lemma costs_are_nonnegative_witness :
  (0 ≤ crossing_cost sample_model 3 1 60 64)%Qc ∧
  (0 ≤ chord_penalty sample_model 7)%Qc ∧
  (∀ q, total_cost sample_model 3 1 60 72 R R 7 = Ok q → (0 ≤ q)%Qc).
Proof.
  destruct (costs_are_nonnegative sample_model 3 1 60 64 12 7 R R
              sample_model_nonneg) as (_ & Hc & _ & _ & Hp & _ & _).
  destruct (costs_are_nonnegative sample_model 3 1 60 72 12 7 R R
              sample_model_nonneg) as (_ & _ & _ & _ & _ & _ & Ht).
  split_and!; done.
Defined.

Lemma pair_key_comm (a b : Z) : pair_key a b = pair_key b a.
Proof. unfold pair_key. by rewrite Z.min_comm, Z.max_comm. Qed.

(** X2: [stretch_cost] does not depend on the order of the two fingers: the
    span entry is looked up under the sorted pair, so both directions give the
    same cost or raise the same error. *)
Theorem stretch_cost_symmetric (m : FingeringCostModel) (finger_a finger_b interval : Z) :
  stretch_cost m finger_a finger_b interval = stretch_cost m finger_b finger_a interval.
Proof.
  unfold stretch_cost. rewrite (pair_key_comm finger_b finger_a).
  destruct (decide (finger_a = finger_b)) as [->|Hne].
  - by rewrite decide_True.
  - by rewrite (decide_False (P := finger_b = finger_a)) by congruence.
Qed.

(** X3: [crossing_cost] is the crossing weight exactly when the pitch moves
    one way and the finger number the other way, that is when
    (pitch_b - pitch_a) * (finger_b - finger_a) < 0, and 0 otherwise; playing
    the transition backwards costs the same. *)
Theorem crossing_cost_sign_rule (m : FingeringCostModel)
    (finger_a finger_b pitch_a pitch_b : Z) :
  crossing_cost m finger_a finger_b pitch_a pitch_b =
    (if decide ((pitch_b - pitch_a) * (finger_b - finger_a) < 0)
     then crossing_weight m else 0%Qc) ∧
  crossing_cost m finger_a finger_b pitch_a pitch_b =
    crossing_cost m finger_b finger_a pitch_b pitch_a.
Proof.
  assert (Hrule : ∀ fa fb pa pb,
    crossing_cost m fa fb pa pb =
    if decide ((pb - pa) * (fb - fa) < 0) then crossing_weight m else 0%Qc).
  { intros fa fb pa pb. unfold crossing_cost. cbn zeta.
    destruct (decide (fa = fb ∨ pa = pb)) as [[->| ->]|Hne].
    - rewrite decide_False; [done|]. lia.
    - rewrite decide_False; [done|]. lia.
    - assert (fa ≠ fb ∧ pa ≠ pb) as [Hf Hp] by tauto.
      destruct (decide (pa < pb)), (decide (fa < fb)).
      + rewrite !bool_decide_eq_true_2 by done.
        rewrite decide_False by naive_solver. rewrite decide_False; [done|]. nia.
      + rewrite bool_decide_eq_true_2, bool_decide_eq_false_2 by done.
        rewrite decide_True by done. rewrite decide_True; [done|]. nia.
      + rewrite bool_decide_eq_false_2, bool_decide_eq_true_2 by done.
        rewrite decide_True by done. rewrite decide_True; [done|]. nia.
      + rewrite !bool_decide_eq_false_2 by done.
        rewrite decide_False by naive_solver. rewrite decide_False; [done|]. nia. }
  split; [apply Hrule|]. rewrite !Hrule.
  replace ((pitch_a - pitch_b) * (finger_a - finger_b))
    with ((pitch_b - pitch_a) * (finger_b - finger_a)) by lia.
  done.
Qed.

(** X4: the within-hand penalties exclude one another: when the repetition
    penalty applies (same finger, other pitch) there is neither stretch nor
    crossing cost, whatever the span table holds; and when the fingers differ
    there is no repetition cost. *)
Theorem repetition_excludes_stretch_and_crossing (m : FingeringCostModel)
    (finger_a finger_b pitch_a pitch_b interval : Z) :
  (if decide (finger_a = finger_b)
   then stretch_cost m finger_a finger_b interval = Ok 0%Qc ∧
        crossing_cost m finger_a finger_b pitch_a pitch_b = 0%Qc ∧
        repetition_cost m finger_a finger_b pitch_a pitch_b =
          (if decide (pitch_a = pitch_b) then 0%Qc else repetition_weight m)
   else repetition_cost m finger_a finger_b pitch_a pitch_b = 0%Qc).
Proof.
  unfold stretch_cost, crossing_cost, repetition_cost. cbn zeta.
  destruct (decide (finger_a = finger_b)) as [->|Hne].
  - split_and!; [done | by rewrite decide_True by tauto |].
    destruct (decide (pitch_a = pitch_b)).
    + rewrite decide_False; [done|tauto].
    + rewrite decide_True; [done|tauto].
  - rewrite decide_False; [done|tauto].
Qed.

Lemma check_required_raise cfg keys e :
  check_required cfg keys = Raise e →
  ∃ k pre post, keys = pre ++ k :: post ∧
    (∀ k', k' ∈ pre → is_Some (cfg !! k')) ∧ cfg !! k = None ∧
    e = ValueError (MissingKey k).
Proof.
  induction keys as [|k0 keys IH]; [done|]. cbn [check_required].
  destruct (cfg !! k0) as [v|] eqn:E0.
  - intros (k & pre & post & -> & Hpre & Hk & ->)%IH.
    exists k, (k0 :: pre), post. split_and!; [done| |done..].
    intros k' [->|Hk']%elem_of_cons; [by rewrite E0 | by apply Hpre].
  - intros [= <-]. exists k0, [], keys. split_and!; [done| |done..].
    intros k' Hk'. by apply elem_of_nil in Hk'.
Qed.

Lemma check_required_ok_inv cfg keys :
  check_required cfg keys = Ok () → ∀ k, k ∈ keys → is_Some (cfg !! k).
Proof.
  induction keys as [|k0 keys IH]; intros Hrun k Hk.
  - by apply elem_of_nil in Hk.
  - cbn [check_required] in Hrun. destruct (cfg !! k0) as [v|] eqn:E0; [|done].
    apply elem_of_cons in Hk as [->|Hk]; [by rewrite E0 | by apply IH].
Qed.

Lemma construction_error_cases (src : option (gmap string yaml)) (e : exn) :
  FingeringCostModel_init src = Raise e →
  (src = None ∧ e = FileNotFoundError) ∨
  (∃ cfg k pre post,
     src = Some cfg ∧ required_keys = pre ++ k :: post ∧
     (∀ k', k' ∈ pre → is_Some (cfg !! k')) ∧ cfg !! k = None ∧
     e = ValueError (MissingKey k)) ∨
  (∃ cfg k span,
     src = Some cfg ∧ (∀ k', k' ∈ required_keys → is_Some (cfg !! k')) ∧
     k ∈ scalar_keys ∧ cfg !! k = Some (YMap span) ∧ e = TypeError).
Proof.
  destruct src as [cfg|]; [|intros [= <-]; by left].
  unfold FingeringCostModel_init. intros Hinit. right.
  destruct (check_required cfg required_keys) as [[]|e0] eqn:Ec.
  - right. pose proof (check_required_ok_inv _ _ Ec) as Hall.
    cbn [mbind result_bind] in Hinit. unfold cfg_item in Hinit.
    assert (Hin : ∀ k, k ∈ scalar_keys → k ∈ scalar_keys) by done.
    destruct (Hall "max_comfortable_span"%string) as [span Hspan];
      [by apply (bool_decide_unpack _)|].
    rewrite Hspan in Hinit. cbn [mbind result_bind] in Hinit.
    repeat match type of Hinit with
    | context [cfg !! ?k] =>
        let v := fresh "v" in let Hv := fresh "Hv" in
        destruct (Hall k) as [v Hv]; [by apply (bool_decide_unpack _)|];
        rewrite Hv in Hinit; cbn [mbind result_bind] in Hinit;
        destruct v as [?|?];
        [ cbn [py_float py_int mbind result_bind] in Hinit
        | injection Hinit as <-; eexists cfg, k, _;
          split_and!; [done | done | by apply (bool_decide_unpack _) | done | done] ]
    end.
    done.
  - left. cbn [mbind result_bind] in Hinit. injection Hinit as <-.
    destruct (check_required_raise _ _ _ Ec) as (k & pre & post & ? & ? & ? & ?).
    by exists cfg, k, pre, post.
Qed.

Lemma check_required_at cfg pre k post :
  (∀ k', k' ∈ pre → is_Some (cfg !! k')) → cfg !! k = None →
  check_required cfg (pre ++ k :: post) = Raise (ValueError (MissingKey k)).
Proof.
  intros Hpre Hk. induction pre as [|k0 pre IH]; cbn [app check_required].
  - by rewrite Hk.
  - destruct (Hpre k0) as [v ->]; [by left|]. apply IH.
    intros k' Hk'. apply Hpre. by right.
Qed.

(** X6: the missing-key error of the constructor names the first absent key
    in the order of the required-key list, and it is raised exactly when a
    required key is absent: the key check runs before any value is read, so
    no other error can take its place.  The constructor never raises the
    missing-entry error of the span table. *)
Theorem missing_key_error_names_first_absent_key (cfg : gmap string yaml)
    (k : string) :
  (FingeringCostModel_init (Some cfg) = Raise (ValueError (MissingKey k)) ↔
   ∃ pre post, required_keys = pre ++ k :: post ∧
     (∀ k', k' ∈ pre → is_Some (cfg !! k')) ∧ cfg !! k = None) ∧
  (∀ src pair, FingeringCostModel_init src ≠ Raise (ValueError (MissingSpan pair))).
Proof.
  split; [split|].
  - intros Hinit.
    destruct (construction_error_cases _ _ Hinit)
      as [[? _]|[(cfg' & k' & pre & post & Hsrc & Hkeys & Hpre & Hk & He)
                |(? & ? & ? & _ & _ & _ & _ & He)]]; [done| |done].
    injection Hsrc as <-. injection He as <-. by exists pre, post.
  - intros (pre & post & Hkeys & Hpre & Hk).
    unfold FingeringCostModel_init. rewrite Hkeys.
    by rewrite check_required_at.
  - intros src pair Hinit.
    destruct (construction_error_cases _ _ Hinit)
      as [[_ He]|[(? & ? & ? & ? & _ & _ & _ & _ & He)
                 |(? & ? & ? & _ & _ & _ & _ & He)]]; done.
Qed.

(** * Optimality of the path that [solve] returns *)

Section optimality.
Local Open Scope Qc_scope.
Variable ops : cost_ops.
Variable notes : list note.
Hypothesis Hok : ops_ok ops.

Let nm1 := (length notes - 1)%nat.
Let st (i : nat) : hand * Z := chosen_state ops notes nm1 (nm1 - i).

Lemma trans_at_total pre prev cur ns (p s : hand * Z) :
  notes = pre ++ prev :: cur :: ns → p ∈ STATES → s ∈ STATES →
  op_total_cost ops (snd p) (snd s) (n_pitch prev) (n_pitch cur)
    (fst p) (fst s) (default 1%Z (n_chord_size cur)) =
  Ok (trans_at ops notes (length pre) p s).
Proof.
  intros Hn Hp Hs. unfold trans_at.
  assert (notes !! length pre = Some prev) as ->
    by (rewrite Hn; by apply list_lookup_middle).
  assert (notes !! S (length pre) = Some cur) as ->.
  { rewrite Hn, (cons_middle prev), (assoc_L (++)).
    apply list_lookup_middle. rewrite length_app. cbn. lia. }
  unfold trans_cost.
  by destruct (Hok (snd p) (snd s) (n_pitch prev) (n_pitch cur) (fst p) (fst s)
                 (default 1%Z (n_chord_size cur))) as [t ->];
    [by apply STATES_in_range..|].
Qed.

(** No assignment is cheaper than the minimum in the last row. *)
Lemma walk_cost_lower_bound :
  ∀ ns pre prev (sprev : hand * Z) acc (ss : list (hand * Z)),
    notes = pre ++ prev :: ns → length ss = length ns →
    Forall (λ s, s ∈ STATES) ss → sprev ∈ STATES →
    dp_value ops notes (length pre) sprev ≤ acc →
    ∃ c, walk_cost ops acc prev sprev ns ss = Ok c ∧
         fst (argmin_states (dp_value ops notes nm1)) ≤ c.
Proof.
  induction ns as [|cur ns IH]; intros pre prev sprev acc ss Hn Hlen Hss Hsp Hacc.
  - destruct ss; [|done]. exists acc. split; [done|].
    eapply Qcle_trans; [|exact Hacc].
    replace nm1 with (length pre)
      by (unfold nm1; rewrite Hn, length_app; cbn; lia).
    by apply argmin_states_le.
  - destruct ss as [|s ss]; [done|]. cbn [walk_cost].
    apply list.Forall_cons in Hss as [Hs Hss].
    rewrite (trans_at_total pre prev cur ns) by done.
    cbn [mbind result_bind].
    apply (IH (pre ++ [prev])).
    + by rewrite <- (assoc_L (++)).
    + by injection Hlen.
    + done.
    + done.
    + rewrite length_app. cbn [length]. rewrite Nat.add_1_r. cbn [dp_value].
      eapply Qcle_trans;
        [apply (argmin_states_le _ sprev Hsp) | by apply Qcplus_le_compat].
Qed.

Lemma chosen_step j :
  (S j ≤ nm1)%nat →
  dp_value ops notes (S j) (st (S j)) =
  dp_value ops notes j (st j) + trans_at ops notes j (st j) (st (S j)).
Proof.
  intros Hj. unfold st at 2 3.
  replace (nm1 - j)%nat with (S (nm1 - S j)) by lia. cbn [chosen_state].
  replace (nm1 - (nm1 - S j))%nat with (S j) by lia.
  fold (st (S j)). cbn [bp_value default dp_value].
  apply argmin_states_spec.
Qed.

(** The chosen states realise the stored cumulative costs. *)
Lemma walk_cost_chosen :
  ∀ ns pre prev,
    notes = pre ++ prev :: ns →
    walk_cost ops (dp_value ops notes (length pre) (st (length pre)))
      prev (st (length pre)) ns (map st (seq (S (length pre)) (length ns))) =
    Ok (dp_value ops notes nm1 (st nm1)).
Proof.
  induction ns as [|cur ns IH]; intros pre prev Hn.
  - cbn. do 3 f_equal; unfold nm1; rewrite Hn, length_app; cbn; lia.
  - cbn [length seq map walk_cost].
    rewrite (trans_at_total pre prev cur ns) by (done || apply chosen_state_elem).
    cbn [mbind result_bind].
    assert (Hj : (S (length pre) ≤ nm1)%nat)
      by (unfold nm1; rewrite Hn, length_app; cbn; lia).
    rewrite <- (chosen_step _ Hj).
    specialize (IH (pre ++ [prev]) cur).
    rewrite length_app, Nat.add_1_r in IH. cbn [length] in IH.
    apply IH. by rewrite <- (assoc_L (++)).
Qed.

Lemma states_of_solution :
  states_of (solution ops notes) = map st (seq 0 (length notes)).
Proof.
  apply list_eq. intros i. unfold states_of, solution.
  rewrite !list_lookup_fmap, list_lookup_imap.
  destruct (notes !! i) as [nt|] eqn:Ei; cbn.
  - rewrite lookup_seq_lt by (by eapply lookup_lt_Some). cbn.
    fold nm1. unfold st. by destruct (chosen_state _ _ _ _).
  - rewrite lookup_ge_None_2; [done|].
    rewrite length_seq. by apply lookup_ge_None_1.
Qed.

Lemma path_cost_solution :
  notes ≠ [] →
  path_cost ops notes (states_of (solution ops notes)) =
  Ok (fst (argmin_states (dp_value ops notes nm1))).
Proof.
  intros Hne. rewrite states_of_solution.
  assert (∃ n0 ns, notes = n0 :: ns) as (n0 & ns & Hn)
    by (clear -Hne; destruct notes; [done | eauto]).
  pose proof (walk_cost_chosen ns [] n0 Hn) as Hwalk.
  cbn [length] in Hwalk.
  assert (Hinit : dp_value ops notes 0 (st 0) = init_cost ops n0 (st 0))
    by (cbn [dp_value]; by rewrite Hn).
  rewrite Hinit in Hwalk.
  assert (Hlast : dp_value ops notes nm1 (st nm1) =
                  fst (argmin_states (dp_value ops notes nm1))).
  { unfold st. rewrite Nat.sub_diag. cbn [chosen_state].
    symmetry. apply argmin_states_spec. }
  rewrite Hlast in Hwalk. rewrite <- Hwalk.
  rewrite Hn at 1 2. done.
Qed.

Lemma path_cost_lower_bound (path : list (hand * Z)) :
  length path = length notes → Forall (λ s, s ∈ STATES) path →
  ∃ c, path_cost ops notes path = Ok c ∧
       fst (argmin_states (dp_value ops notes nm1)) ≤ c.
Proof.
  intros Hlen Hpath.
  assert (notes = [] ∨ ∃ n0 ns, notes = n0 :: ns) as [Hn|(n0 & ns & Hn)]
    by (clear; destruct notes; eauto).
  - rewrite Hn in Hlen. destruct path; [|done]. exists 0. split.
    + by rewrite Hn.
    + assert (H0 : dp_value ops notes nm1 (L, 1%Z) = 0)
        by (unfold nm1; by rewrite Hn).
      rewrite <- H0. apply argmin_states_le.
      apply (bool_decide_unpack _). by vm_compute.
  - rewrite Hn in Hlen. destruct path as [|s0 ss]; [done|].
    apply list.Forall_cons in Hpath as [Hs0 Hss].
    destruct (walk_cost_lower_bound ns [] n0 s0 (init_cost ops n0 s0) ss)
      as (c & Hc & Hle); try done.
    + by injection Hlen.
    + cbn [length dp_value]. rewrite Hn. cbn. apply Qcle_refl.
    + exists c. split; [|done]. rewrite Hn at 1. done.
Qed.
End optimality.

(** X7: with a valid configuration the path that [solve] returns is optimal:
    its cumulative cost (initial cost plus [total_cost] of every consecutive
    pair) is the minimum cost found by the DP, and no assignment of the ten
    (hand, finger) states to the notes costs less. *)
Theorem solve_returns_a_cheapest_path (notes : list note)
    (config_path : option (gmap string yaml)) :
  valid_config config_path = true → notes ≠ [] →
  ∃ m anns c,
    FingeringCostModel_init config_path = Ok m ∧
    solve notes config_path = Ok anns ∧
    path_cost (ops_of m) notes (states_of anns) = Ok c ∧
    dp_min_cost (ops_of m) notes = Ok (Fin c) ∧
    ∀ path, length path = length notes → Forall (λ s, s ∈ STATES) path →
            ∃ c', path_cost (ops_of m) notes path = Ok c' ∧ (c ≤ c')%Qc.
Proof.
  intros Hvalid Hne.
  destruct (solve_valid notes _ Hvalid Hne) as (m & Hm & Hcov & Hsolve).
  pose proof (ops_of_ok m Hcov) as Hok.
  exists m, (solution (ops_of m) notes),
    (fst (argmin_states (dp_value (ops_of m) notes (length notes - 1)))).
  split_and!; [done | done | | |].
  - by apply path_cost_solution.
  - by apply dp_min_cost_spec.
  - intros path Hlen Hpath. by apply path_cost_lower_bound.
Qed.

Lemma solve_returns_a_cheapest_path_witness :
  ∃ m anns c,
    FingeringCostModel_init (Some sample_cfg) = Ok m ∧
    solve sample_notes (Some sample_cfg) = Ok anns ∧
    path_cost (ops_of m) sample_notes (states_of anns) = Ok c ∧
    dp_min_cost (ops_of m) sample_notes = Ok (Fin c) ∧
    ∀ path, length path = length sample_notes → Forall (λ s, s ∈ STATES) path →
            ∃ c', path_cost (ops_of m) sample_notes path = Ok c' ∧ (c ≤ c')%Qc.
Proof. apply solve_returns_a_cheapest_path; [by vm_compute | done]. Defined.

(** X8: with a valid configuration every annotation that [solve] returns
    carries a finger between 1 and 5 (and one of the two hands). *)
Theorem solve_fingers_in_range (notes : list note)
    (config_path : option (gmap string yaml)) (anns : list annotation) :
  valid_config config_path = true → solve notes config_path = Ok anns →
  Forall (λ a, 1 ≤ a_finger a ≤ 5 ∧ (a_hand a = L ∨ a_hand a = R)) anns.
Proof.
  intros Hvalid Hsolve. destruct (decide (notes = [])) as [->|Hne].
  { injection Hsolve as <-. constructor. }
  destruct (solve_valid notes _ Hvalid Hne) as (m & _ & _ & Hsol).
  rewrite Hsol in Hsolve. injection Hsolve as <-.
  apply list.Forall_forall. intros a Ha.
  assert (Hst : (a_hand a, a_finger a) ∈ states_of (solution (ops_of m) notes)).
  { unfold states_of.
    by apply (list_elem_of_fmap_2 (λ a, (a_hand a, a_finger a))). }
  rewrite states_of_solution in Hst.
  apply list_elem_of_fmap_1 in Hst as (i & Hi & _).
  split; [|by destruct (a_hand a); auto].
  change (a_finger a) with (snd (a_hand a, a_finger a)). rewrite Hi.
  apply STATES_in_range, chosen_state_elem.
Qed.

Lemma solve_fingers_in_range_witness :
  ∃ anns, solve sample_notes (Some sample_cfg) = Ok anns ∧
    Forall (λ a, 1 ≤ a_finger a ≤ 5 ∧ (a_hand a = L ∨ a_hand a = R)) anns.
Proof.
  eexists. split; [by vm_compute|].
  eapply (solve_fingers_in_range sample_notes (Some sample_cfg));
    by vm_compute.
Defined.

(** * Edge cases of [solve] *)

Lemma solve_dp_single (ops : cost_ops) (n0 : note) :
  solve_dp ops [n0] =
  Ok [ {| a_onset_time := n_start n0; a_pitch := n_pitch n0;
          a_hand := fst (snd (argmin_states (init_cost ops n0)));
          a_finger := snd (snd (argmin_states (init_cost ops n0))) |} ].
Proof.
  unfold solve_dp, solve_final, solve_tables.
  rewrite init_first_note_spec by done.
  cbn [length Nat.sub seq for_each mbind result_bind].
  unfold tables_upto, list_item.
  cbn [length Nat.sub seq map app replicate lookup list_lookup mbind result_bind].
  change (dp_row ops [n0] 0)
    with (map (λ s, (s, Fin (init_cost ops n0 s))) STATES).
  rewrite (best_final_states (init_cost ops n0)).
  generalize (argmin_states (init_cost ops n0)). intros [c [h f]].
  by cbn.
Qed.

Section single_note.
Local Open Scope Qc_scope.
Variable m : FingeringCostModel.
Variable n0 : note.
Hypothesis Hweak : 0 ≤ weak_finger_weight m.
Hypothesis Hswitch : 0 < hand_switch_weight m.

Lemma weak_finger_cost_nonneg' f : 0 ≤ weak_finger_cost m f.
Proof. unfold weak_finger_cost. by case_decide. Qed.

Lemma half_switch_pos : 0 < hand_switch_weight m * Q2Qc (1 # 2).
Proof.
  rewrite <- (Qcmult_0_l (Q2Qc (1 # 2))). by apply Qcmult_lt_compat_r.
Qed.

Lemma init_cost_nonneg s : 0 ≤ init_cost (ops_of m) n0 s.
Proof.
  unfold init_cost. cbn [ops_of op_weak_finger_cost op_hand_switch_weight].
  apply Qcplus_nonneg_nonneg; [apply weak_finger_cost_nonneg'|].
  case_decide; [done|]. apply Qclt_le_weak, half_switch_pos.
Qed.

Lemma init_cost_other_hand_pos (s : hand * Z) :
  fst s ≠ preferred_hand (ops_of m) n0 → 0 < init_cost (ops_of m) n0 s.
Proof.
  intros Hne. unfold init_cost.
  cbn [ops_of op_weak_finger_cost op_hand_switch_weight].
  rewrite decide_False by done.
  apply Qcplus_nonneg_pos; [apply weak_finger_cost_nonneg' | apply half_switch_pos].
Qed.

Lemma init_cost_thumb_natural :
  init_cost (ops_of m) n0 (preferred_hand (ops_of m) n0, 1%Z) = 0.
Proof.
  unfold init_cost. cbn [fst snd]. by rewrite decide_True.
Qed.

Lemma init_cost_first_argmin :
  first_argmin (init_cost (ops_of m) n0) STATES
    (preferred_hand (ops_of m) n0, 1%Z).
Proof.
  pose proof init_cost_thumb_natural as H0.
  destruct (preferred_hand (ops_of m) n0) eqn:Eh.
  - exists [], (tail STATES). split_and!; [done| |].
    + intros q Hq. by apply elem_of_nil in Hq.
    + intros q _. rewrite H0. apply init_cost_nonneg.
  - exists (take 5 STATES), (drop 6 STATES). split_and!; [done| |].
    + intros q Hq. rewrite H0. apply init_cost_other_hand_pos. rewrite Eh.
      repeat (apply elem_of_cons in Hq as [->|Hq]; [done|]).
      by apply elem_of_nil in Hq.
    + intros q _. rewrite H0. apply init_cost_nonneg.
Qed.

Lemma single_note_state :
  snd (argmin_states (init_cost (ops_of m) n0)) =
  (preferred_hand (ops_of m) n0, 1%Z).
Proof.
  eapply first_argmin_unique; [apply argmin_states_spec|].
  apply init_cost_first_argmin.
Qed.
End single_note.

(** X9: a single note is given finger 1 of its natural hand (left if its
    pitch is at most the split pitch, right otherwise) whenever the model can
    be constructed, the weak-finger weight is non-negative and the
    hand-switch weight is at least 1e-300, so that the bias of the other
    hand, half that weight, is a positive number; the span table is not
    consulted, so it may be incomplete. *)
Theorem single_note_gets_thumb_of_natural_hand
    (config_path : option (gmap string yaml)) (m : FingeringCostModel)
    (n0 : note) :
  FingeringCostModel_init config_path = Ok m →
  (0 ≤ weak_finger_weight m)%Qc →
  (min_switch_weight ≤ hand_switch_weight m)%Qc →
  solve [n0] config_path =
  Ok [ {| a_onset_time := n_start n0; a_pitch := n_pitch n0;
          a_hand := if decide (n_pitch n0 ≤ split_pitch m) then L else R;
          a_finger := 1 |} ].
Proof.
  intros Hm Hweak Hmin.
  assert (Hswitch : (0 < hand_switch_weight m)%Qc).
  { eapply Qclt_le_trans; [|exact Hmin]. by vm_compute. }
  unfold solve, solve_with, build_cost_ops. rewrite Hm.
  cbn [mbind result_bind]. rewrite solve_dp_single.
  by rewrite single_note_state.
Qed.

Lemma single_note_gets_thumb_of_natural_hand_witness :
  solve [mk_note 72 0 None] (Some cfg_missing_pair) =
  Ok [ {| a_onset_time := Q2Qc 0; a_pitch := 72; a_hand := R; a_finger := 1 |} ].
Proof.
  apply (single_note_gets_thumb_of_natural_hand (Some cfg_missing_pair)
           model_missing_pair (mk_note 72 0 None)); by vm_compute.
Defined.

Section incomplete_span.
Variable m : FingeringCostModel.
Variable span : gmap string Z.
Hypothesis Hspan : max_comfortable_span m = YMap span.

Lemma finger_pairs_of_states (fa fb : Z) :
  in_range fa → in_range fb → fa ≠ fb →
  (Z.min fa fb, Z.max fa fb) ∈ finger_pairs ∧
  pair_key (Z.min fa fb) (Z.max fa fb) = pair_key fa fb.
Proof.
  intros Ha Hb Hne. split.
  - apply in_range_cases in Ha, Hb.
    destruct Ha as [->|[->|[->|[->| ->]]]], Hb as [->|[->|[->|[->| ->]]]];
      try done; apply (bool_decide_unpack _); by vm_compute.
  - unfold pair_key.
    by rewrite (Z.min_l (Z.min fa fb)), (Z.max_r (Z.min fa fb)) by lia.
Qed.

Lemma total_cost_missing fa fb pa pb ha cs :
  fa ≠ fb → span !! pair_key fa fb = None →
  total_cost m fa fb pa pb ha ha cs =
  Raise (ValueError (MissingSpan (pair_key fa fb))).
Proof.
  intros Hne Hnone. unfold total_cost, stretch_cost. cbn zeta.
  rewrite decide_True by done. rewrite decide_False by done.
  by rewrite Hspan, Hnone.
Qed.

Lemma total_cost_ok_or_missing fa fb pa pb ha hb cs :
  in_range fa → in_range fb →
  (∃ q, total_cost m fa fb pa pb ha hb cs = Ok q) ∨
  (∃ e, total_cost m fa fb pa pb ha hb cs = Raise e ∧ missing_pair_error span e).
Proof.
  intros Ha Hb. unfold total_cost, stretch_cost. cbn zeta.
  destruct (decide (ha = hb)); [|left; by eexists].
  destruct (decide (fa = fb)); [left; by eexists|].
  rewrite Hspan. destruct (span !! pair_key fa fb) as [max_span|] eqn:E.
  - left. case_decide; by eexists.
  - right. eexists. split; [done|].
    destruct (finger_pairs_of_states fa fb) as [Hin Hkey]; try done.
    exists (Z.min fa fb), (Z.max fa fb). by rewrite Hkey.
Qed.
End incomplete_span.

Lemma for_each_ok_or_raise {A S} (P : exn → Prop)
    (xs : list A) (body : S → A → result S) (s : S) :
  (∀ s x, x ∈ xs →
     (∃ s', body s x = Ok s') ∨ (∃ e, body s x = Raise e ∧ P e)) →
  (∃ s', for_each xs body s = Ok s') ∨
  (∃ e, for_each xs body s = Raise e ∧ P e).
Proof.
  revert s. induction xs as [|x xs IH]; intros s Hstep; [left; by eexists|].
  cbn [for_each].
  destruct (Hstep s x) as [(s' & ->)|(e & -> & He)]; [by left| |].
  - cbn [mbind result_bind]. apply IH. intros. apply Hstep. by right.
  - right. by exists e.
Qed.

Lemma for_each_raises {A S} (I : S → Prop) (P : exn → Prop)
    (xs : list A) (body : S → A → result S) (s : S) :
  I s →
  (∀ s x, x ∈ xs → I s →
     (∃ s', body s x = Ok s' ∧ I s') ∨ (∃ e, body s x = Raise e ∧ P e)) →
  (∃ x, x ∈ xs ∧ ∀ s, I s → ∃ e, body s x = Raise e ∧ P e) →
  ∃ e, for_each xs body s = Raise e ∧ P e.
Proof.
  revert s. induction xs as [|x xs IH]; intros s Hs Hstep (x0 & Hx0 & Hbad).
  - by apply elem_of_nil in Hx0.
  - cbn [for_each].
    destruct (Hstep s x) as [(s' & Hb & Hs')|(e & Hb & He)]; [by left|done| |].
    + rewrite Hb. cbn [mbind result_bind].
      apply elem_of_cons in Hx0 as [->|Hx0].
      * destruct (Hbad s Hs) as (e & Hb' & _). congruence.
      * apply IH; [done| |by exists x0].
        intros. apply Hstep; [by right|done].
    + rewrite Hb. by exists e.
Qed.

Lemma span_covers_false (span : gmap string Z) :
  span_covers span = false →
  ∃ a b, (a, b) ∈ finger_pairs ∧ span !! pair_key a b = None.
Proof.
  unfold span_covers. intros Hc.
  induction finger_pairs as [|[a b] l IH]; [done|].
  cbn [forallb] in Hc. apply andb_false_iff in Hc as [Hc|Hc].
  - exists a, b. split; [by left|].
    apply bool_decide_eq_false in Hc. by apply eq_None_not_Some.
  - destruct (IH Hc) as (a' & b' & Hin & Hnone). exists a', b'.
    split; [by right | done].
Qed.

Lemma finger_pairs_in_range (a b : Z) :
  (a, b) ∈ finger_pairs → in_range a ∧ in_range b ∧ a ≠ b.
Proof.
  intros Hin. unfold in_range.
  repeat (apply elem_of_cons in Hin as [[= -> ->]|Hin]; [lia|]).
  by apply elem_of_nil in Hin.
Qed.

Lemma in_range_state (h : hand) (f : Z) : in_range f → (h, f) ∈ STATES.
Proof.
  intros Hf. apply in_range_cases in Hf.
  destruct h, Hf as [->|[->|[->|[->| ->]]]];
    apply (bool_decide_unpack _); by vm_compute.
Qed.

Ltac open_scan_body Hrow Hin :=
  cbn [fst snd]; unfold list_item; cbn [Nat.sub]; rewrite Hrow;
  cbn [mbind result_bind]; unfold dp_row;
  rewrite (dict_get_map _ _ _ Hin); cbn [ops_of op_total_cost].

Section missing_pair_run.
Variable m : FingeringCostModel.
Variable span : gmap string Z.
Variable notes : list note.
Hypothesis Hspan : max_comfortable_span m = YMap span.

Lemma scan_sources_ok_or_missing (dp : list (list ((hand * Z) * xcost)))
    prev cur cs (k : hand * Z) :
  dp !! 0%nat = Some (dp_row (ops_of m) notes 0) → k ∈ STATES →
  (∃ r, scan_sources (ops_of m) dp 1 prev cur cs (fst k) (snd k) = Ok r) ∨
  (∃ e, scan_sources (ops_of m) dp 1 prev cur cs (fst k) (snd k) = Raise e ∧
        missing_pair_error span e).
Proof.
  intros Hrow Hk. unfold scan_sources. rewrite for_states_flat.
  apply for_each_ok_or_raise. intros [bc bq] [ha fa] Hin.
  open_scan_body Hrow Hin.
  destruct (total_cost_ok_or_missing m span Hspan fa (snd k) (n_pitch prev)
              (n_pitch cur) ha (fst k) cs) as [[q ->]|(e & -> & HP)];
    [by apply (STATES_in_range (ha, fa)) | by apply STATES_in_range | |].
  - left. cbn [mbind result_bind]. destruct (xlt _ _); by eexists.
  - right. by exists e.
Qed.

Lemma scan_sources_missing (dp : list (list ((hand * Z) * xcost)))
    prev cur cs (a b : Z) :
  dp !! 0%nat = Some (dp_row (ops_of m) notes 0) →
  (a, b) ∈ finger_pairs → span !! pair_key a b = None →
  ∃ e, scan_sources (ops_of m) dp 1 prev cur cs L a = Raise e ∧
       missing_pair_error span e.
Proof.
  intros Hrow Hab Hnone.
  destruct (finger_pairs_in_range _ _ Hab) as (Ha & Hb & Hne).
  unfold scan_sources. rewrite for_states_flat.
  apply (for_each_raises (λ _, True)); [done| |].
  - intros [bc bq] [ha fa] Hin _.
    open_scan_body Hrow Hin.
    destruct (total_cost_ok_or_missing m span Hspan fa a (n_pitch prev)
                (n_pitch cur) ha L cs) as [[q ->]|(e & -> & HP)];
      [by apply (STATES_in_range (ha, fa)) | done | |].
    + left. cbn [mbind result_bind]. destruct (xlt _ _); by eexists.
    + right. by exists e.
  - exists (L, b). split; [by apply in_range_state|].
    intros [bc bq] _.
    open_scan_body Hrow (in_range_state L b Hb).
    rewrite (total_cost_missing m span Hspan b a)
      by (congruence || by rewrite pair_key_comm).
    eexists. split; [done|]. exists a, b. by rewrite (pair_key_comm b a).
Qed.

Lemma forward_step_missing_pair :
  span_covers span = false → (2 ≤ length notes)%nat →
  ∃ e, forward_step (ops_of m) notes (tables_upto (ops_of m) notes 0) 1 = Raise e ∧
       missing_pair_error span e.
Proof.
  intros Hcov Hlen.
  destruct (span_covers_false _ Hcov) as (a & b & Hab & Hnone).
  destruct (finger_pairs_in_range _ _ Hab) as (Ha & Hb & Hne).
  destruct (lookup_lt_is_Some_2 notes 1) as [cur Hcur]; [lia|].
  destruct (lookup_lt_is_Some_2 notes 0) as [prev Hprev]; [lia|].
  unfold forward_step, list_item. cbn [Nat.sub].
  rewrite Hcur, Hprev. cbn [mbind result_bind]. rewrite for_states_flat.
  apply (for_each_raises
           (λ tabs : list (list ((hand * Z) * xcost)) *
                     list (list ((hand * Z) * option (hand * Z))),
              fst tabs !! 0%nat = Some (dp_row (ops_of m) notes 0) ∧
              (1 < length (fst tabs))%nat ∧ (1 < length (snd tabs))%nat)).
  - unfold tables_upto. cbn [fst snd].
    split_and!; [done|rewrite length_app, length_replicate; cbn; lia..].
  - intros [dp bp] k Hk (Hrow & Hldp & Hlbp). cbn [fst snd] in *.
    destruct (scan_sources_ok_or_missing dp prev cur
                (default 1 (n_chord_size cur)) k Hrow Hk)
      as [[[c q] Hr]|(e & Hr & HP)].
    + left. rewrite Hr. cbn [mbind result_bind]. unfold table_set, list_item.
      destruct (lookup_lt_is_Some_2 dp 1 Hldp) as [rd ->].
      destruct (lookup_lt_is_Some_2 bp 1 Hlbp) as [rb ->].
      cbn [mbind result_bind]. eexists. split; [done|].
      cbn [fst snd]. rewrite !length_insert.
      split_and!; [|done..]. by rewrite list_lookup_insert_ne.
    + right. rewrite Hr. by exists e.
  - exists (L, a). split; [by apply in_range_state|].
    intros [dp bp] (Hrow & _ & _). cbn [fst snd] in *.
    destruct (scan_sources_missing dp prev cur (default 1 (n_chord_size cur))
                a b Hrow Hab Hnone) as (e & -> & HP).
    by exists e.
Qed.
End missing_pair_run.

(** X10: when the span table of a constructed model lacks one of the ten
    finger pairs, [solve] on two or more notes raises the missing-entry error
    for a pair that has no entry; it returns no partial result. *)
Theorem incomplete_span_table_fails_from_two_notes
    (config_path : option (gmap string yaml)) (m : FingeringCostModel)
    (span : gmap string Z) (n0 n1 : note) (rest : list note) :
  FingeringCostModel_init config_path = Ok m →
  max_comfortable_span m = YMap span → span_covers span = false →
  ∃ a b, (a, b) ∈ finger_pairs ∧ span !! pair_key a b = None ∧
         solve (n0 :: n1 :: rest) config_path =
           Raise (ValueError (MissingSpan (pair_key a b))).
Proof.
  intros Hm Hspan Hcov.
  destruct (forward_step_missing_pair m span (n0 :: n1 :: rest) Hspan Hcov)
    as (e & Hrun & a & b & Hab & Hnone & ->); [cbn; lia|].
  exists a, b. split_and!; [done..|].
  unfold solve, solve_with, build_cost_ops. rewrite Hm.
  cbn [mbind result_bind]. unfold solve_dp, solve_final, solve_tables.
  rewrite init_first_note_spec by done. cbn [mbind result_bind].
  cbn [length Nat.sub seq for_each]. by rewrite Hrun.
Qed.

Lemma incomplete_span_table_fails_from_two_notes_witness :
  ∃ a b, (a, b) ∈ finger_pairs ∧
         delete "1_2"%string full_span !! pair_key a b = None ∧
         solve sample_notes (Some cfg_missing_pair) =
           Raise (ValueError (MissingSpan (pair_key a b))).
Proof.
  apply (incomplete_span_table_fails_from_two_notes (Some cfg_missing_pair)
           model_missing_pair); by vm_compute.
Defined.

(** * The accuracy scores of the evaluator *)

Section ratio_facts.
Local Open Scope Qc_scope.

Lemma Qc_of_nat_pos (n : nat) : (0 < n)%nat → 0 < Qc_of_Z (Z.of_nat n).
Proof.
  intros Hn. rewrite <- Z2Qc_inj_0.
  apply (proj1 (Z2Qc_inj_lt 0 (Z.of_nat n))). lia.
Qed.

Lemma Qcinv_nonneg (x : Qc) : 0 ≤ x → 0 ≤ / x.
Proof.
  intros Hx. destruct (decide (x = 0)) as [->|Hne]; [done|].
  apply Qclt_le_weak, Qcinv_pos.
  destruct (Qcle_lt_or_eq _ _ Hx); [done | congruence].
Qed.

Lemma ratio_nonneg k n : 0 ≤ ratio k n.
Proof.
  unfold ratio, Qcdiv. apply Qcmult_nonneg_nonneg.
  - apply Qc_of_Z_nonneg. lia.
  - apply Qcinv_nonneg, Qc_of_Z_nonneg. lia.
Qed.

Lemma ratio_mono k k' n : (k ≤ k')%nat → ratio k n ≤ ratio k' n.
Proof.
  intros Hk. unfold ratio, Qcdiv. apply Qcmult_le_mono_nonneg_r.
  - apply Qcinv_nonneg, Qc_of_Z_nonneg. lia.
  - apply Qc_of_Z_mono. lia.
Qed.

Lemma ratio_self n : (0 < n)%nat → ratio n n = 1.
Proof.
  intros Hn. unfold ratio, Qcdiv. apply Qcmult_inv_r.
  apply not_eq_sym, Qclt_not_eq. by apply Qc_of_nat_pos.
Qed.

Lemma ratio_le_1 k n : (k ≤ n)%nat → ratio k n ≤ 1.
Proof.
  intros Hk. destruct (decide (n = 0%nat)) as [->|Hn].
  - replace k with 0%nat by lia. done.
  - rewrite <- (ratio_self n) by lia. by apply ratio_mono.
Qed.

Lemma ratio_eq_1 k n : (0 < n)%nat → ratio k n = 1 → k = n.
Proof.
  intros Hn Hr. unfold ratio in Hr.
  assert (Hne : Qc_of_Z (Z.of_nat n) ≠ 0)
    by (apply not_eq_sym, Qclt_not_eq; by apply Qc_of_nat_pos).
  assert (Heq : Qc_of_Z (Z.of_nat k) = Qc_of_Z (Z.of_nat n)).
  { rewrite <- (Qcmult_1_l (Qc_of_Z (Z.of_nat n))), <- Hr.
    unfold Qcdiv. rewrite <- Qcmult_assoc, Qcmult_inv_l by done.
    by rewrite Qcmult_1_r. }
  apply Z2Qc_inj in Heq. lia.
Qed.
End ratio_facts.

Section accuracy_facts.
Implicit Types (p g : list annotation) (l : list (annotation * annotation)).

Lemma length_filter_and {A} (P Q : A → Prop) `{∀ x, Decision (P x)}
    `{∀ x, Decision (Q x)} `{∀ x, Decision (P x ∧ Q x)} (l : list A) :
  (length (filter (λ x, P x ∧ Q x) l) ≤ length (filter P l))%nat.
Proof.
  induction l as [|x l IH]; [done|].
  rewrite !filter_cons. repeat case_decide; cbn; try lia; tauto.
Qed.

Lemma length_filter_all {A} (P : A → Prop) `{∀ x, Decision (P x)} (l : list A) :
  length (filter P l) = length l ↔ Forall P l.
Proof.
  induction l as [|x l IH]; [by split|].
  rewrite filter_cons, list.Forall_cons.
  pose proof (length_filter P l). case_decide; cbn; [|split; [lia|tauto]].
  rewrite <- IH. split; [intros; split; [done|lia] | intros [_ ?]; lia].
Qed.

Lemma guarded_value p g score a :
  guarded p g score = Value a →
  (p = [] ∧ g = [] ∧ a = 0%Qc) ∨
  (length p = length g ∧ (0 < length g)%nat ∧ score = Value a).
Proof.
  unfold guarded. case_bool_decide as Hempty.
  - intros [= <-]. left. tauto.
  - case_bool_decide as Hlen; [done|]. intros ->. right.
    assert (length p = length g) by lia. split_and!; [done| |done].
    destruct p, g; cbn in *; try lia. tauto.
Qed.

Lemma guarded_same_length p g score :
  length p = length g → p ≠ [] → guarded p g score = score.
Proof.
  intros Hlen Hne. unfold guarded.
  rewrite bool_decide_eq_false_2 by tauto.
  by rewrite bool_decide_eq_false_2 by tauto.
Qed.

Lemma guarded_mismatch p g score :
  length p ≠ length g →
  guarded p g score = Failure (LengthMismatch (length p) (length g)).
Proof.
  intros Hlen. unfold guarded.
  rewrite bool_decide_eq_false_2 by (intros [-> ->]; done).
  by rewrite bool_decide_eq_true_2.
Qed.

Lemma note_accuracy_range p g a :
  note_accuracy p g = Value a → (0 ≤ a ≤ 1)%Qc.
Proof.
  intros [(_ & _ & ->)|(Hlen & _ & Hs)]%guarded_value; [done|].
  cbn zeta in Hs. injection Hs as <-.
  split; [apply ratio_nonneg|]. apply ratio_le_1.
  etrans; [apply length_filter|]. rewrite length_zip_with. lia.
Qed.

Lemma hand_accuracy_range p g a :
  hand_accuracy p g = Value a → (0 ≤ a ≤ 1)%Qc.
Proof.
  intros [(_ & _ & ->)|(Hlen & _ & Hs)]%guarded_value; [done|].
  cbn zeta in Hs. injection Hs as <-.
  split; [apply ratio_nonneg|]. apply ratio_le_1.
  etrans; [apply length_filter|]. rewrite length_zip_with. lia.
Qed.

Lemma finger_accuracy_range p g a :
  finger_accuracy p g = Value a → (0 ≤ a ≤ 1)%Qc.
Proof.
  intros [(_ & _ & ->)|(Hlen & _ & Hs)]%guarded_value; [done|].
  cbn zeta in Hs.
  destruct (filter same_hand (zip p g)) as [|x l] eqn:E.
  - by injection Hs as <-.
  - injection Hs as <-. split; [apply ratio_nonneg|].
    apply ratio_le_1, (length_filter same_finger (x :: l)).
Qed.
End accuracy_facts.

(** X11: every accuracy that is returned lies between 0 and 1. *)
Theorem accuracies_in_unit_interval (predicted ground_truth : list annotation)
    (a : Qc) :
  note_accuracy predicted ground_truth = Value a ∨
  hand_accuracy predicted ground_truth = Value a ∨
  finger_accuracy predicted ground_truth = Value a →
  (0 ≤ a ≤ 1)%Qc.
Proof.
  intros [H|[H|H]].
  - by eapply note_accuracy_range.
  - by eapply hand_accuracy_range.
  - by eapply finger_accuracy_range.
Qed.

Lemma accuracies_in_unit_interval_witness :
  (0 ≤ Q2Qc (1 # 3) ≤ 1)%Qc.
Proof.
  apply (accuracies_in_unit_interval sample_prediction sample_truth).
  left. by vm_compute.
Defined.

(** X12: the three accuracy functions raise the length-mismatch error, which
    carries both lengths, exactly when the two lists differ in length; for two
    empty lists they return 0, and for lists of one length they return a
    score. *)
Theorem accuracies_fail_on_length_mismatch_only
    (predicted ground_truth : list annotation) :
  if decide (length predicted = length ground_truth) then
    ∃ na ha fa, note_accuracy predicted ground_truth = Value na ∧
                hand_accuracy predicted ground_truth = Value ha ∧
                finger_accuracy predicted ground_truth = Value fa ∧
                (predicted = [] → na = 0%Qc ∧ ha = 0%Qc ∧ fa = 0%Qc)
  else
    let e := LengthMismatch (length predicted) (length ground_truth) in
    note_accuracy predicted ground_truth = Failure e ∧
    hand_accuracy predicted ground_truth = Failure e ∧
    finger_accuracy predicted ground_truth = Failure e.
Proof.
  destruct (decide (length predicted = length ground_truth)) as [Hlen|Hlen].
  - destruct (decide (predicted = [])) as [->|Hne].
    + destruct ground_truth; [|done]. by exists 0%Qc, 0%Qc, 0%Qc.
    + unfold note_accuracy, hand_accuracy, finger_accuracy.
      rewrite !guarded_same_length by done. cbn zeta.
      destruct (filter same_hand (zip predicted ground_truth)); by eexists _, _, _.
  - cbn zeta. unfold note_accuracy, hand_accuracy, finger_accuracy.
    by rewrite !guarded_mismatch by done.
Qed.

(** X13: the note accuracy never exceeds the hand accuracy: a note counted
    as right in both hand and finger is counted as right in hand. *)
Theorem note_accuracy_le_hand_accuracy
    (predicted ground_truth : list annotation) (na ha : Qc) :
  note_accuracy predicted ground_truth = Value na →
  hand_accuracy predicted ground_truth = Value ha →
  (na ≤ ha)%Qc.
Proof.
  intros [(_ & _ & ->)|(Hlen & Hpos & Hn)]%guarded_value
         [(Hp & Hg & ->)|(_ & _ & Hh)]%guarded_value; try done.
  - cbn zeta in Hh. injection Hh as <-. apply ratio_nonneg.
  - subst. cbn in Hpos. lia.
  - cbn zeta in Hn, Hh. injection Hn as <-. injection Hh as <-.
    apply ratio_mono, (length_filter_and same_hand same_finger).
Qed.

Lemma note_accuracy_le_hand_accuracy_witness :
  (Q2Qc (1 # 3) ≤ Q2Qc (2 # 3))%Qc.
Proof.
  apply (note_accuracy_le_hand_accuracy sample_prediction sample_truth);
    by vm_compute.
Defined.

Lemma Forall_zip_states (p g : list annotation) :
  length p = length g →
  Forall same_hand_and_finger (zip p g) ↔ states_of p = states_of g.
Proof.
  revert g. induction p as [|x p IH]; intros [|y g] Hlen; try done.
  cbn [zip zip_with]. cbn [states_of fmap list_fmap].
  rewrite list.Forall_cons, IH by (by injection Hlen).
  unfold same_hand_and_finger, same_hand, same_finger, states_of. cbn [fst snd].
  split.
  - intros [[-> ->] ->]. done.
  - intros [= -> -> ->]. done.
Qed.

(** X14: for two non-empty lists of one length the note accuracy is 1
    exactly when the predicted hands and fingers are those of the ground
    truth, note for note. *)
Theorem note_accuracy_is_one_iff_all_match
    (predicted ground_truth : list annotation) :
  length predicted = length ground_truth → predicted ≠ [] →
  note_accuracy predicted ground_truth = Value 1%Qc ↔
  states_of predicted = states_of ground_truth.
Proof.
  intros Hlen Hne. unfold note_accuracy.
  rewrite guarded_same_length by done. cbn zeta.
  assert (Hpos : (0 < length ground_truth)%nat)
    by (destruct predicted, ground_truth; cbn in *; try done; lia).
  assert (Hzip : length (zip predicted ground_truth) = length ground_truth)
    by (rewrite length_zip_with; lia).
  rewrite <- Forall_zip_states by done.
  rewrite <- (length_filter_all same_hand_and_finger), Hzip.
  split.
  - intros Hr. apply ratio_eq_1; [done | congruence].
  - intros ->. by rewrite ratio_self.
Qed.

Lemma note_accuracy_is_one_iff_all_match_witness :
  note_accuracy sample_prediction sample_prediction = Value 1%Qc ↔
  states_of sample_prediction = states_of sample_prediction.
Proof. by apply note_accuracy_is_one_iff_all_match. Defined.

(** * The MIDI parser *)

Section sorting.
Implicit Types (x y z : raw_note) (l : list raw_note).

Lemma key_le_total (a b : Qc * Z) : key_le a b ∨ key_le b a.
Proof.
  unfold key_le. destruct (Qclt_le_dec (fst a) (fst b)) as [?|Hle]; [tauto|].
  destruct (Qcle_lt_or_eq _ _ Hle) as [?|Heq]; [tauto|].
  destruct (Z.le_ge_cases (snd a) (snd b)); [left|right]; right;
    split; (done || lia).
Qed.

Lemma key_le_trans (a b c : Qc * Z) : key_le a b → key_le b c → key_le a c.
Proof.
  unfold key_le. intros [Hab|[Hab Hab']] [Hbc|[Hbc Hbc']].
  - left. by eapply Qclt_trans.
  - left. by rewrite <- Hbc.
  - left. by rewrite Hab.
  - right. split; [congruence | lia].
Qed.

Lemma key_le_antisym (a b : Qc * Z) : key_le a b → key_le b a → a = b.
Proof.
  unfold key_le. destruct a as [a1 a2], b as [b1 b2]. cbn.
  intros [Hab|[-> Hab]] [Hba|[Hba Hba']].
  - exfalso. by apply (Qclt_not_le _ _ Hab), Qclt_le_weak.
  - exfalso. subst. by apply (Qclt_not_eq _ _ Hab).
  - exfalso. by apply (Qclt_not_eq _ _ Hba).
  - f_equal. lia.
Qed.

Lemma insert_note_Permutation x l : insert_note x l ≡ₚ x :: l.
Proof.
  induction l as [|y l IH]; [done|]. cbn [insert_note].
  case_decide; [done|]. rewrite IH. apply Permutation_swap.
Qed.

Lemma insert_note_sorted x l :
  StronglySorted notes_in_order l →
  StronglySorted notes_in_order (insert_note x l).
Proof.
  induction 1 as [|y l Hl IH Hy]; cbn [insert_note].
  - repeat constructor.
  - case_decide as Hxy.
    + constructor; [by constructor|]. constructor; [done|].
      eapply Forall_impl; [exact Hy|]. intros z Hz.
      by eapply key_le_trans.
    + constructor; [done|].
      rewrite insert_note_Permutation. constructor; [|done].
      by destruct (key_le_total (sort_key x) (sort_key y)).
Qed.

Lemma insert_note_filter (k : Qc * Z) x l :
  filter (λ n, sort_key n = k) (insert_note x l) =
  filter (λ n, sort_key n = k) (x :: l).
Proof.
  induction l as [|y l IH]; [done|]. cbn [insert_note].
  case_decide as Hxy; [done|].
  rewrite filter_cons, IH, !filter_cons.
  destruct (decide (sort_key y = k)) as [Hy|Hy]; [|done].
  destruct (decide (sort_key x = k)) as [Hx|Hx]; [|done].
  exfalso. apply Hxy. rewrite Hx, <- Hy. right. split; [done | lia].
Qed.

Lemma sort_notes_Permutation l : sort_notes l ≡ₚ l.
Proof.
  induction l as [|x l IH]; [done|]. cbn [sort_notes foldr].
  rewrite insert_note_Permutation. by constructor.
Qed.

Lemma sort_notes_sorted l : StronglySorted notes_in_order (sort_notes l).
Proof.
  induction l as [|x l IH]; [constructor|]. by apply insert_note_sorted.
Qed.

Lemma sort_notes_stable (k : Qc * Z) l :
  filter (λ n, sort_key n = k) (sort_notes l) =
  filter (λ n, sort_key n = k) l.
Proof.
  induction l as [|x l IH]; [done|]. cbn [sort_notes foldr].
  rewrite insert_note_filter, !filter_cons. fold (sort_notes l).
  by rewrite IH.
Qed.
End sorting.

(** X15: [extract_notes] returns the note dicts of the pitched (non-drum)
    instruments and nothing else, each exactly once, in ascending order of
    (start, pitch); notes with the same start and pitch keep the order in
    which the tracks list them. *)
Theorem extract_notes_sorted_and_complete (midi_data : pretty_midi) :
  StronglySorted notes_in_order (extract_notes midi_data) ∧
  extract_notes midi_data ≡ₚ collected_notes midi_data ∧
  (∀ k, filter (λ n, sort_key n = k) (extract_notes midi_data) =
        filter (λ n, sort_key n = k) (collected_notes midi_data)) ∧
  (∀ n, n ∈ extract_notes midi_data ↔
        ∃ inst nt, inst ∈ instruments midi_data ∧ is_drum inst = false ∧
                   nt ∈ inst_notes inst ∧ n = note_dict nt).
Proof.
  unfold extract_notes. fold (collected_notes midi_data). split_and!.
  - apply sort_notes_sorted.
  - apply sort_notes_Permutation.
  - intros k. apply sort_notes_stable.
  - intros n. rewrite sort_notes_Permutation. unfold collected_notes.
    rewrite list_elem_of_In, in_flat_map. split.
    + intros (inst & Hinst%list_elem_of_In & Hn).
      destruct (is_drum inst) eqn:Ed; [done|].
      apply list_elem_of_In, list_elem_of_fmap_1 in Hn as (nt & -> & Hnt).
      by exists inst, nt.
    + intros (inst & nt & Hinst & Hd & Hnt & ->). exists inst.
      split; [by apply list_elem_of_In|]. rewrite Hd.
      by apply list_elem_of_In, list_elem_of_fmap_2.
Qed.

(** * The feature builder *)

Lemma for_each_enumerate {A St} (P : nat → St → Prop) (xs : list A)
    (body : St → nat * A → result St) (s0 : St) :
  P 0%nat s0 →
  (∀ k x s, xs !! k = Some x → P k s →
            ∃ s', body s (k, x) = Ok s' ∧ P (S k) s') →
  ∃ s', for_each (imap pair xs) body s0 = Ok s' ∧ P (length xs) s'.
Proof.
  intros H0 Hstep.
  assert (Hgen : ∀ l pre s, xs = pre ++ l → P (length pre) s →
    ∃ s', for_each (imap (λ i x, ((length pre + i)%nat, x)) l) body s = Ok s' ∧
          P (length xs) s').
  { induction l as [|x l IH]; intros pre s Hxs Hs.
    - exists s. split; [done|]. by rewrite Hxs, app_nil_r.
    - rewrite imap_cons. cbn [for_each]. rewrite Nat.add_0_r.
      destruct (Hstep (length pre) x s) as (s1 & -> & Hs1); [|done|].
      { rewrite Hxs. by apply list_lookup_middle. }
      cbn [mbind result_bind].
      destruct (IH (pre ++ [x]) s1) as (s' & Hrun & Hs').
      + by rewrite <- (assoc_L (++)).
      + by rewrite length_app, Nat.add_1_r.
      + exists s'. split; [|done]. rewrite <- Hrun.
        f_equal. apply imap_ext. intros i y _. cbn.
        rewrite length_app. cbn. f_equal. lia. }
  destruct (Hgen xs [] s0 eq_refl H0) as (s' & Hrun & Hs').
  exists s'. split; [|done]. rewrite <- Hrun. f_equal.
Qed.

Section feature_facts.
Variable notes : list raw_note.

Lemma Qcabs_zero_le_tolerance (x : Qc) :
  (Qcabs.Qcabs (x - x) ≤ chord_tolerance)%Qc.
Proof.
  replace (x - x)%Qc with (Q2Qc 0) by (unfold Qcminus; by rewrite Qcplus_opp_r).
  by vm_compute.
Qed.

Lemma group_starts_spec :
  ∃ gs, group_starts notes = Ok gs ∧ length gs = length notes ∧
        ∀ j g, gs !! j = Some g → group_of notes gs j g.
Proof.
  unfold group_starts.
  set (P := λ (k : nat) (st : nat * list nat),
    length (snd st) = k ∧
    (k = 0%nat → fst st = 0%nat) ∧
    ((0 < k)%nat → snd st !! (k - 1)%nat = Some (fst st)) ∧
    ∀ j g, snd st !! j = Some g →
      (g ≤ j)%nat ∧ snd st !! g = Some g ∧
      ∃ nt first, notes !! j = Some nt ∧ notes !! g = Some first ∧
        (Qcabs.Qcabs (r_start nt - r_start first) ≤ chord_tolerance)%Qc).
  match goal with |- context [for_each _ ?b ?s] =>
    destruct (for_each_enumerate P notes b s) as ([g gs] & -> & HP)
  end.
  - unfold P. cbn. split_and!; [done | done | lia |]. intros j g Hj. done.
  - intros k x [g cs] Hx (Hlen & H0 & Hlast & Hall). cbn [fst snd] in *.
    assert (Hnew : ∀ g', (g' ≤ k)%nat →
      (∃ first, notes !! g' = Some first ∧
         (Qcabs.Qcabs (r_start x - r_start first) ≤ chord_tolerance)%Qc) →
      (cs ++ [g']) !! g' = Some g' →
      P (S k) (g', cs ++ [g'])).
    { intros g' Hle (first & Hfirst & Htol) Hself. unfold P. cbn [fst snd].
      split_and!.
      - rewrite length_app. cbn. lia.
      - lia.
      - intros _. rewrite Nat.sub_succ, Nat.sub_0_r.
        rewrite lookup_app_r by lia. by rewrite Hlen, Nat.sub_diag.
      - intros j gj Hj. destruct (decide (j < k)%nat) as [Hjk|Hjk].
        + rewrite lookup_app_l in Hj by lia.
          destruct (Hall j gj Hj) as (? & Hs & ?). split_and!; [done| |done].
          rewrite lookup_app_l; [done|]. apply lookup_lt_Some in Hs. lia.
        + assert (j = k) as ->.
          { apply lookup_lt_Some in Hj. rewrite length_app in Hj. cbn in Hj. lia. }
          rewrite lookup_app_r, Hlen, Nat.sub_diag in Hj by lia.
          injection Hj as <-. split_and!; [done..|].
          by exists x, first. }
    case_bool_decide as Hk.
    + assert (Hg : cs !! (k - 1)%nat = Some g) by (by apply Hlast).
      destruct (Hall _ _ Hg) as (Hgle & Hgself & _).
      destruct (lookup_lt_is_Some_2 notes g) as [first Hfirst].
      { apply lookup_lt_Some in Hx. lia. }
      unfold list_item. rewrite Hfirst. cbn [mbind result_bind].
      case_bool_decide as Htol.
      * eexists. split; [done|]. apply Hnew; [done| |].
        -- exists x. split; [done|]. apply Qcabs_zero_le_tolerance.
        -- rewrite lookup_app_r by lia. by rewrite Hlen, Nat.sub_diag.
      * eexists. split; [done|]. apply Hnew; [lia| |].
        -- exists first. split; [done|]. by apply Qcnot_lt_le.
        -- rewrite lookup_app_l; [done|]. by apply lookup_lt_Some in Hgself.
    + cbn [mbind result_bind]. assert (k = 0%nat) as -> by lia.
      rewrite (H0 eq_refl). eexists. split; [done|].
      destruct cs; [|done]. apply Hnew; [done| |done].
      exists x. split; [done|]. apply Qcabs_zero_le_tolerance.
  - cbn [mbind result_bind]. exists gs. destruct HP as (Hlen & _ & _ & Hall).
    cbn [fst snd] in *. split_and!; [done..|].
    intros j gj Hj. by apply Hall.
Qed.

Lemma overlap_count_spec (i : nat) (note : raw_note) :
  (i ≤ length notes)%nat →
  overlap_count notes i note =
  Ok (length (filter (λ earlier, (r_start note < r_end earlier)%Qc)
                     (take i notes))).
Proof.
  unfold overlap_count. induction i as [|i IH]; intros Hi; [done|].
  rewrite seq_S, for_each_app, IH by lia. cbn [mbind result_bind for_each Nat.add].
  destruct (lookup_lt_is_Some_2 notes i) as [earlier He]; [lia|].
  unfold list_item. rewrite He. cbn [mbind result_bind].
  rewrite (take_S_r _ _ _ He), filter_app, length_app.
  rewrite filter_cons, filter_nil. f_equal.
  case_bool_decide; [rewrite decide_True by done | rewrite decide_False by done];
    cbn; lia.
Qed.

Lemma build_features_spec :
  ∃ gs feats,
    group_starts notes = Ok gs ∧ build_features notes = Ok feats ∧
    length feats = length notes ∧
    ∀ j f, feats !! j = Some f → feature_of notes gs j f.
Proof.
  destruct group_starts_spec as (gs & Hgs & Hlen & Hgroups).
  exists gs. unfold build_features.
  assert (notes = [] ∨ ∃ n0 ns, notes = n0 :: ns) as [Hn|(n0 & ns & Hn)]
    by (clear; destruct notes; eauto).
  { exists []. rewrite Hn. split_and!; [by rewrite <- Hn|done..|].
    intros j f Hj. done. }
  rewrite Hgs. cbn [mbind result_bind].
  set (P := λ (k : nat) (enriched : list feature),
    length enriched = k ∧
    ∀ j f, enriched !! j = Some f → feature_of notes gs j f).
  match goal with |- context [for_each _ ?b ?s] =>
    destruct (for_each_enumerate P notes b s) as (feats & Hrun & HP)
  end.
  - unfold P. split; [done|]. intros j f Hj. done.
  - intros k x enriched Hx (Hk & Hall).
    pose proof (lookup_lt_Some _ _ _ Hx) as Hlt.
    destruct (lookup_lt_is_Some_2 gs k) as [g Hg]; [lia|].
    assert (Hcs : (counter gs <$> gs) !! k = Some (counter gs g))
      by (by rewrite list_lookup_fmap, Hg).
    assert (Hdelta : ∃ dp dt,
      (if bool_decide (k = 0%nat) then Ok (None, None)
       else prev ← list_item notes (k - 1);
            Ok (Some (r_pitch x - r_pitch prev),
                Some (py_round6 (r_start x - r_start prev)%Qc)))
      = Ok (dp, dt) ∧
      match k with
      | O => dp = None ∧ dt = None
      | S k' => ∃ prev, notes !! k' = Some prev ∧
                  dp = Some (r_pitch x - r_pitch prev) ∧
                  dt = Some (py_round6 (r_start x - r_start prev)%Qc)
      end).
    { destruct k as [|k']; [by eexists _, _|].
      rewrite bool_decide_eq_false_2 by done.
      rewrite Nat.sub_succ, Nat.sub_0_r.
      destruct (lookup_lt_is_Some_2 notes k') as [prev Hprev]; [lia|].
      unfold list_item. rewrite Hprev. cbn [mbind result_bind].
      eexists _, _. split; [done|]. by exists prev. }
    destruct Hdelta as (dp & dt & -> & Hd). cbn [mbind result_bind].
    unfold list_item at 1. rewrite Hcs. cbn [mbind result_bind].
    rewrite overlap_count_spec by lia. cbn [mbind result_bind].
    eexists. split; [done|]. unfold P. split.
    + rewrite length_app. cbn. lia.
    + intros j f Hj. destruct (decide (j < k)%nat) as [Hjk|Hjk].
      * rewrite lookup_app_l in Hj by lia. by apply Hall.
      * assert (j = k) as ->.
        { apply lookup_lt_Some in Hj. rewrite length_app in Hj. cbn in Hj. lia. }
        rewrite lookup_app_r, Hk, Nat.sub_diag in Hj by lia.
        injection Hj as <-. exists x, g. cbn. split_and!; done.
  - exists feats. rewrite Hn in Hrun |- *. rewrite <- Hn.
    destruct HP as [Hl Hall]. split_and!; [done| |done|done].
    rewrite <- Hrun. by rewrite Hn.
Qed.
End feature_facts.

(** X16: [build_features] never raises and returns one feature per note, in
    order: feature [j] copies pitch, start, end, duration and velocity of
    note [j], has index [j] and the register of its pitch, counts as overlap
    the earlier notes that end after note [j] starts, and holds the pitch
    difference and the time difference (rounded to 6 decimals) to note
    [j - 1], which are absent for the first note only. *)
Theorem build_features_shape (notes : list raw_note) :
  ∃ feats,
    build_features notes = Ok feats ∧ length feats = length notes ∧
    ∀ j f, feats !! j = Some f →
      ∃ nt, notes !! j = Some nt ∧
        (f_pitch f, f_start f, f_end f, f_duration f, f_velocity f) =
          (r_pitch nt, r_start nt, r_end nt, r_duration nt, r_velocity nt) ∧
        f_index f = j ∧
        f_pitch_register f = _pitch_register (r_pitch nt) ∧
        f_overlap_count f =
          length (filter (λ earlier, (r_start nt < r_end earlier)%Qc)
                         (take j notes)) ∧
        (f_overlap_count f ≤ j)%nat ∧
        match j with
        | O => f_delta_pitch f = None ∧ f_delta_time f = None
        | S j' =>
            ∃ prev, notes !! j' = Some prev ∧
              f_delta_pitch f = Some (r_pitch nt - r_pitch prev) ∧
              f_delta_time f = Some (py_round6 (r_start nt - r_start prev)%Qc)
        end.
Proof.
  destruct (build_features_spec notes) as (gs & feats & _ & Hrun & Hlen & Hall).
  exists feats. split_and!; [done..|]. intros j f Hj.
  destruct (Hall j f Hj)
    as (nt & g & Hnt & _ & -> & -> & -> & -> & -> & Hi & Hreg & _ & Hov & Hd).
  exists nt. split_and!; try done.
  rewrite Hov. etrans; [apply length_filter|].
  rewrite length_take. lia.
Qed.

Lemma counter_bounds {A} `{EqDecision A} (l : list A) (x : A) :
  x ∈ l → (1 ≤ counter l x ≤ length l)%nat.
Proof.
  intros Hx. unfold counter. split; [|apply length_filter].
  assert (Hin : x ∈ filter (λ y, y = x) l) by (by apply list_elem_of_filter).
  destruct (filter _ l); [by apply elem_of_nil in Hin | cbn; lia].
Qed.

Section chord_groups.
Variable notes : list raw_note.

Let gsa := group_start_at notes.

Lemma group_start_at_le j : (gsa j ≤ j)%nat.
Proof.
  induction j as [|j IH]; [done|]. unfold gsa in *. cbn [group_start_at].
  destruct (notes !! group_start_at notes j); [|lia].
  destruct (notes !! S j); [|lia]. case_bool_decide; lia.
Qed.

Lemma group_start_at_step j first nt :
  notes !! gsa j = Some first → notes !! S j = Some nt →
  gsa (S j) = if bool_decide (beyond_tolerance first nt) then S j else gsa j.
Proof. unfold gsa. cbn [group_start_at]. by intros -> ->. Qed.

Lemma group_start_at_lookup j :
  (j < length notes)%nat → is_Some (notes !! gsa j).
Proof.
  intros Hj. apply lookup_lt_is_Some_2. pose proof (group_start_at_le j). lia.
Qed.

Lemma group_start_at_mono j k : (j ≤ k)%nat → (gsa j ≤ gsa k)%nat.
Proof.
  induction 1 as [|k Hjk IH]; [done|]. etrans; [exact IH|].
  pose proof (group_start_at_le k) as Hle.
  unfold gsa in *. cbn [group_start_at].
  destruct (notes !! group_start_at notes k); [|lia].
  destruct (notes !! S k); [|lia]. case_bool_decide; lia.
Qed.

(** The first pass computes [group_start_at] for every index. *)
Lemma group_starts_eq :
  group_starts notes = Ok (gsa <$> seq 0 (length notes)).
Proof.
  unfold group_starts.
  set (P := λ (k : nat) (st : nat * list nat),
    fst st = gsa (k - 1) ∧ snd st = gsa <$> seq 0 k).
  match goal with |- context [for_each _ ?b ?s] =>
    destruct (for_each_enumerate P notes b s) as ([g gs] & -> & HP)
  end.
  - by split.
  - intros k x [g cs] Hx [Hg Hcs]. cbn [fst snd] in *. subst g cs.
    pose proof (lookup_lt_Some _ _ _ Hx) as Hlt.
    assert (Hnext : ∀ g', g' = gsa k →
      P (S k) (g', (gsa <$> seq 0 k) ++ [g'])).
    { intros g' ->. split; cbn [fst snd].
      - by rewrite Nat.sub_succ, Nat.sub_0_r.
      - by rewrite seq_S, fmap_app. }
    case_bool_decide as Hk.
    + destruct k as [|k]; [lia|]. rewrite Nat.sub_succ, Nat.sub_0_r.
      destruct (group_start_at_lookup k) as [first Hfirst]; [lia|].
      unfold list_item. rewrite Hfirst. cbn [mbind result_bind].
      eexists. split; [done|]. apply Hnext.
      by rewrite (group_start_at_step k first x).
    + cbn [mbind result_bind]. assert (k = 0%nat) as -> by lia.
      eexists. split; [done|]. by apply Hnext.
  - cbn [mbind result_bind]. destruct HP as [_ Hcs]. cbn [snd] in Hcs. by rewrite Hcs.
Qed.

(** Within a run nothing changes: all indices between the group start of
    [j] and [j] have the same group start, and their notes are within the
    tolerance of the note that starts the group. *)
Lemma group_start_at_run j :
  (j < length notes)%nat →
  (∀ k, (gsa j ≤ k ≤ j)%nat → gsa k = gsa j) ∧
  ∃ first, notes !! gsa j = Some first ∧
    ∀ k nt, (gsa j < k ≤ j)%nat → notes !! k = Some nt →
            ¬ beyond_tolerance first nt.
Proof.
  induction j as [|j IH]; intros Hj.
  - split.
    + intros k Hk. assert (k = 0%nat) as -> by (unfold gsa in *; cbn in *; lia). done.
    + destruct (lookup_lt_is_Some_2 notes 0) as [first Hfirst]; [lia|].
      exists first. split; [done|]. intros k nt Hk. unfold gsa in Hk. cbn in Hk. lia.
  - destruct IH as (Hsame & first & Hfirst & Htol); [lia|].
    destruct (lookup_lt_is_Some_2 notes (S j)) as [nt Hnt]; [lia|].
    rewrite (group_start_at_step j first nt) by done.
    case_bool_decide as Hb.
    + split.
      * intros k Hk. assert (k = S j) as -> by lia.
        rewrite (group_start_at_step j first nt) by done.
        by rewrite bool_decide_eq_true_2.
      * exists nt. split; [done|]. intros k nt' Hk. lia.
    + pose proof (group_start_at_le j) as Hle. split.
      * intros k Hk. destruct (decide (k = S j)) as [->|Hne].
        -- rewrite (group_start_at_step j first nt) by done.
           by rewrite bool_decide_eq_false_2.
        -- apply Hsame. lia.
      * exists first. split; [done|]. intros k nt' Hk Hnt'.
        destruct (decide (k = S j)) as [->|Hne].
        -- rewrite Hnt in Hnt'. by injection Hnt' as <-.
        -- apply (Htol k); [lia | done].
Qed.

(** The group start of every note starts a group. *)
Lemma group_start_at_start j :
  (j < length notes)%nat → chord_group_start notes (gsa j).
Proof.
  induction j as [|j IH]; intros Hj; [constructor|].
  destruct (group_start_at_run j) as (_ & first & Hfirst & Htol); [lia|].
  destruct (lookup_lt_is_Some_2 notes (S j)) as [nt Hnt]; [lia|].
  rewrite (group_start_at_step j first nt) by done.
  case_bool_decide as Hb; [|apply IH; lia].
  pose proof (group_start_at_le j) as Hle.
  apply (next_group notes (gsa j) (S j) first nt); try done.
  - apply IH. lia.
  - lia.
  - intros k nt' Hk. apply Htol. lia.
Qed.

(** The run of [j] ends: at the end of the list, or at the first later note
    that is beyond the tolerance, which starts its own group. *)
Lemma group_start_at_end (d j : nat) :
  (j + d = length notes - 1)%nat → (j < length notes)%nat →
  ∃ g', (j < g' ≤ length notes)%nat ∧
    (∀ k, (j ≤ k < g')%nat → gsa k = gsa j) ∧
    ((g' < length notes)%nat → gsa g' = g') ∧
    ∀ first next, notes !! gsa j = Some first → notes !! g' = Some next →
                  beyond_tolerance first next.
Proof.
  revert j. induction d as [|d IH]; intros j Hd Hj.
  - exists (S j). split; [lia|]. split; [|split; [lia|]].
    + intros k Hk. by assert (k = j) as -> by lia.
    + intros first next _ Hnext. apply lookup_lt_Some in Hnext. lia.
  - destruct (group_start_at_lookup j Hj) as [first Hfirst].
    destruct (lookup_lt_is_Some_2 notes (S j)) as [nt Hnt]; [lia|].
    pose proof (group_start_at_step j first nt Hfirst Hnt) as Hstep.
    case_bool_decide as Hb.
    + exists (S j). split; [lia|]. split; [|split; [done|]].
      * intros k Hk. by assert (k = j) as -> by lia.
      * intros first' next Hf Hn. rewrite Hfirst in Hf. rewrite Hnt in Hn.
        injection Hf as <-. by injection Hn as <-.
    + destruct (IH (S j)) as (g' & Hg' & Hsame & Hself & Hbeyond); [lia..|].
      exists g'. split; [lia|]. split; [|split; [done|]].
      * intros k Hk. destruct (decide (k = j)) as [->|Hne]; [done|].
        rewrite Hsame by lia. done.
      * intros first' next Hf Hn. apply (Hbeyond first' next); [|done].
        by rewrite Hstep.
Qed.

Lemma length_filter_eq_all {A} (P : A → Prop) `{∀ x, Decision (P x)}
    (l : list A) :
  Forall P l → length (filter P l) = length l.
Proof.
  induction 1 as [|x l Hx _ IH]; [done|].
  rewrite filter_cons_True by done. cbn. by rewrite IH.
Qed.

Lemma length_filter_eq_none {A} (P : A → Prop) `{∀ x, Decision (P x)}
    (l : list A) :
  Forall (λ x, ¬ P x) l → length (filter P l) = 0%nat.
Proof.
  induction 1 as [|x l Hx _ IH]; [done|].
  by rewrite filter_cons_False by done.
Qed.

(** Every note lies in a chord group, and the group start recorded for it
    occurs in the list of group starts as often as the group has notes. *)
Lemma group_start_at_group j :
  (j < length notes)%nat →
  ∃ g', chord_group notes (gsa j) g' ∧ (gsa j ≤ j < g')%nat ∧
        counter (gsa <$> seq 0 (length notes)) (gsa j) = (g' - gsa j)%nat.
Proof.
  intros Hj. pose proof (group_start_at_le j) as Hle.
  destruct (group_start_at_run j Hj) as (Hsame & first & Hfirst & Htol).
  destruct (group_start_at_end (length notes - 1 - j) j) as
    (g' & Hg' & Hafter & Hself & Hbeyond); [lia..|].
  assert (Hin : ∀ k, (gsa j ≤ k < g')%nat → gsa k = gsa j).
  { intros k Hk. destruct (decide (k ≤ j)%nat); [apply Hsame | apply Hafter]; lia. }
  exists g'. split; [|split; [lia|]].
  - split; [by apply group_start_at_start|]. split; [lia|].
    exists first. split; [done|]. split; [|intros next; by apply Hbeyond].
    intros k nt Hk Hnt. destruct (decide (k ≤ j)%nat) as [Hkj|Hkj].
    + apply (Htol k); [lia | done].
    + destruct (group_start_at_run k) as (_ & first' & Hfirst' & Htol').
      { by apply lookup_lt_Some in Hnt. }
      rewrite Hin, Hfirst in Hfirst' by lia. injection Hfirst' as <-.
      apply (Htol' k); [rewrite Hin by lia; lia | done].
  - unfold counter.
    replace (seq 0 (length notes))
      with (seq 0 (gsa j) ++ seq (gsa j) (g' - gsa j) ++ seq g' (length notes - g')).
    2:{ transitivity (seq 0 (gsa j + ((g' - gsa j) + (length notes - g'))));
          [|f_equal; lia].
        rewrite !seq_app. cbn [Nat.add].
        by replace (gsa j + (g' - gsa j))%nat with g' by lia. }
    rewrite !fmap_app, !filter_app, !length_app.
    rewrite (length_filter_eq_none (λ y, y = gsa j)), (length_filter_eq_all (λ y, y = gsa j)),
      (length_filter_eq_none (λ y, y = gsa j)).
    + rewrite length_fmap, length_seq. lia.
    + apply Forall_fmap, Forall_forall. intros k Hk%elem_of_seq. cbn.
      assert (Hgg : gsa g' = g') by (apply Hself; lia).
      pose proof (group_start_at_mono g' k ltac:(lia)). lia.
    + apply Forall_fmap, Forall_forall. intros k Hk%elem_of_seq. cbn.
      apply Hin. lia.
    + apply Forall_fmap, Forall_forall. intros k Hk%elem_of_seq. cbn.
      pose proof (group_start_at_le k). lia.
Qed.
Lemma group_start_at_within g g' first :
  gsa g = g → notes !! g = Some first → (g' ≤ length notes)%nat →
  (∀ k nt, (g < k < g')%nat → notes !! k = Some nt →
           ¬ beyond_tolerance first nt) →
  ∀ k, (g ≤ k < g')%nat → gsa k = g.
Proof.
  intros Hg Hfirst Hlen Hrun k. induction k as [|k IH]; intros Hk.
  - by assert (g = 0%nat) as -> by lia.
  - destruct (decide (g = S k)) as [->|Hne]; [done|].
    destruct (lookup_lt_is_Some_2 notes (S k)) as [nt Hnt]; [lia|].
    rewrite (group_start_at_step k first nt), IH; [|lia|by rewrite IH by lia|done].
    rewrite bool_decide_eq_false_2; [done|]. apply (Hrun (S k)); [lia | done].
Qed.

Lemma chord_group_start_fixed g :
  chord_group_start notes g → gsa g = g.
Proof.
  induction 1 as [|g g' first next Hg IH Hlt Hfirst Hnext Hrun Hbeyond]; [done|].
  pose proof (lookup_lt_Some _ _ _ Hnext) as Hlen.
  destruct g' as [|k]; [lia|].
  assert (Hk : gsa k = g).
  { apply (group_start_at_within g (S k) first); [done | done | lia | done | lia]. }
  rewrite (group_start_at_step k first next); [|by rewrite Hk | done].
  by rewrite bool_decide_eq_true_2.
Qed.

(** The chord group of a note is determined by the notes. *)
Lemma chord_group_unique j g1 g1' g2 g2' :
  chord_group notes g1 g1' → chord_group notes g2 g2' →
  (g1 ≤ j < g1')%nat → (g2 ≤ j < g2')%nat → g1 = g2 ∧ g1' = g2'.
Proof.
  intros (Hs1 & Hb1 & f1 & Hf1 & Hrun1 & Hend1)
         (Hs2 & Hb2 & f2 & Hf2 & Hrun2 & Hend2) Hj1 Hj2.
  assert (Hg1 : gsa j = g1).
  { apply (group_start_at_within g1 g1' f1);
      [by apply chord_group_start_fixed | done | lia | done | lia]. }
  assert (Hg2 : gsa j = g2).
  { apply (group_start_at_within g2 g2' f2);
      [by apply chord_group_start_fixed | done | lia | done | lia]. }
  assert (g1 = g2) as <- by congruence. split; [done|].
  rewrite Hf1 in Hf2. injection Hf2 as <-.
  destruct (Nat.lt_trichotomy g1' g2') as [Hlt|[Heq|Hgt]]; [|done|].
  - destruct (lookup_lt_is_Some_2 notes g1') as [nt Hnt]; [lia|].
    destruct (Hrun2 g1' nt); [lia | done | by apply Hend1].
  - destruct (lookup_lt_is_Some_2 notes g2') as [nt Hnt]; [lia|].
    destruct (Hrun1 g2' nt); [lia | done | by apply Hend2].
Qed.
End chord_groups.

(** X17: the chord size that [build_features] gives a note is the number of
    notes of its chord group, where the groups are formed greedily from the
    first note: a group starts at note 0 or at the first note whose onset is
    beyond the tolerance (0.03 s) from the onset of the note that starts the
    group before; every note of a group is within the tolerance of the note
    that starts it, and the note after a group is not.  The group of a note
    is unique, and the chord size is at least 1 and at most the number of
    notes.  Stated for onsets whose distances are clear of the tolerance (by
    1e-9 s), where the comparison does not depend on rounding. *)
Theorem chord_sizes_count_groups (notes : list raw_note) :
  onsets_clear notes →
  ∃ feats,
    build_features notes = Ok feats ∧
    ∀ j f, feats !! j = Some f →
      ∃ g g', chord_group notes g g' ∧ (g ≤ j < g')%nat ∧
              f_chord_size f = (g' - g)%nat ∧
              (1 ≤ f_chord_size f ≤ length notes)%nat ∧
              ∀ h h', chord_group notes h h' → (h ≤ j < h')%nat →
                      h = g ∧ h' = g'.
Proof.
  intros _.
  destruct (build_features_spec notes) as (gs & feats & Hgs & Hrun & Hlen & Hall).
  rewrite group_starts_eq in Hgs. injection Hgs as <-.
  exists feats. split; [done|]. intros j f Hj.
  destruct (Hall j f Hj) as (nt & g & Hnt & Hg & _ & _ & _ & _ & _ & _ & _ & Hc & _).
  pose proof (lookup_lt_Some _ _ _ Hnt) as Hlt.
  rewrite list_lookup_fmap, lookup_seq_lt in Hg by done.
  injection Hg as <-. cbn [Nat.add] in Hc.
  destruct (group_start_at_group notes j Hlt) as (g' & Hgroup & Hjg & Hcount).
  exists (group_start_at notes j), g'. rewrite Hc, Hcount.
  pose proof Hgroup as (Hstart & Hbounds & Hrest).
  split; [done|]. split; [lia|]. split; [done|]. split; [lia|].
  intros h h' Hh Hjh. by apply (chord_group_unique notes j).
Qed.

Lemma chord_sizes_count_groups_witness :
  ∃ feats,
    build_features (extract_notes sample_midi) = Ok feats ∧
    ∀ j f, feats !! j = Some f →
      ∃ g g', chord_group (extract_notes sample_midi) g g' ∧ (g ≤ j < g')%nat ∧
              f_chord_size f = (g' - g)%nat ∧
              (1 ≤ f_chord_size f ≤ length (extract_notes sample_midi))%nat ∧
              ∀ h h', chord_group (extract_notes sample_midi) h h' →
                      (h ≤ j < h')%nat → h = g ∧ h' = g'.
Proof.
  apply (chord_sizes_count_groups (extract_notes sample_midi)).
  apply (bool_decide_unpack _). by vm_compute.
Defined.

(** On the sample MIDI object the triad struck at 0 s (its notes start at
    0, 0 and 0.01 s) has chord size 3 and the later note chord size 1. *)
Example chord_sizes_sample :
  ∃ feats, build_features (extract_notes sample_midi) = Ok feats ∧
           map f_chord_size feats = [3; 3; 3; 1]%nat.
Proof. eexists. split; by vm_compute. Qed.

Lemma solve_valid_positions (notes : list note)
    (config_path : option (gmap string yaml)) :
  valid_config config_path = true →
  ∃ anns, solve notes config_path = Ok anns ∧
          (λ a, (a_onset_time a, a_pitch a)) <$> anns =
            (λ nt, (n_start nt, n_pitch nt)) <$> notes.
Proof.
  intros Hvalid. destruct (decide (notes = [])) as [->|Hne].
  { by exists []. }
  destruct (solve_valid notes _ Hvalid Hne) as (m & _ & _ & ->).
  eexists. split; [done|]. unfold solution.
  apply list_eq. intros i.
  rewrite !list_lookup_fmap, list_lookup_imap. by destruct (_ !! i).
Qed.

(** X18: feature builder and solver compose: with a valid configuration,
    [solve] applied to the features of any note list returns one annotation
    per note, in order, with the start and the pitch of that note. *)
Theorem features_then_solve (notes : list raw_note)
    (config_path : option (gmap string yaml)) :
  valid_config config_path = true →
  ∃ feats anns,
    build_features notes = Ok feats ∧
    solve (note_of_feature <$> feats) config_path = Ok anns ∧
    (λ a, (a_onset_time a, a_pitch a)) <$> anns =
      (λ nt, (r_start nt, r_pitch nt)) <$> notes.
Proof.
  intros Hvalid.
  destruct (build_features_spec notes) as (gs & feats & _ & Hrun & Hlen & Hall).
  destruct (solve_valid_positions (note_of_feature <$> feats) _ Hvalid)
    as (anns & Hsolve & Hpos).
  exists feats, anns. split_and!; [done..|]. rewrite Hpos.
  apply list_eq. intros j. rewrite !list_lookup_fmap.
  destruct (feats !! j) as [f|] eqn:Ef.
  - destruct (Hall j f Ef) as (nt & g & -> & _ & Hp & Hs & _). cbn.
    by rewrite Hp, Hs.
  - rewrite (lookup_ge_None_2 notes); [done|].
    rewrite <- Hlen. by apply lookup_ge_None_1.
Qed.

Lemma features_then_solve_witness :
  ∃ feats anns,
    build_features (extract_notes sample_midi) = Ok feats ∧
    solve (note_of_feature <$> feats) (Some sample_cfg) = Ok anns ∧
    (λ a, (a_onset_time a, a_pitch a)) <$> anns =
      (λ nt, (r_start nt, r_pitch nt)) <$> extract_notes sample_midi.
Proof. apply features_then_solve. by vm_compute. Defined.

Section scoring.
Local Open Scope Qc_scope.

Lemma score_prediction_spec (predicted ground_truth : list annotation) :
  ∃ mt, score_prediction predicted ground_truth = Value mt ∧
        0 ≤ m_note_accuracy mt ≤ 1 ∧ 0 ≤ m_hand_accuracy mt ≤ 1 ∧
        0 ≤ m_finger_accuracy mt ≤ 1 ∧
        m_note_accuracy mt ≤ m_hand_accuracy mt.
Proof.
  unfold score_prediction. cbn zeta. case_bool_decide as Hmin.
  { eexists. split; [done|]. cbn. done. }
  set (n := Nat.min (length predicted) (length ground_truth)) in *.
  assert (Hlen : length (take n predicted) = length (take n ground_truth))
    by (rewrite !length_take; lia).
  assert (Hne : take n predicted ≠ []).
  { intros Hnil. apply (f_equal length) in Hnil.
    rewrite length_take in Hnil. cbn in Hnil. lia. }
  unfold note_accuracy, hand_accuracy, finger_accuracy.
  rewrite !guarded_same_length by done. cbn zeta.
  set (pairs := zip (take n predicted) (take n ground_truth)).
  assert (Hpairs : length pairs = length (take n ground_truth))
    by (unfold pairs; rewrite length_zip_with; lia).
  assert (Hfinger : ∃ fa,
    match filter same_hand pairs with
    | [] => Value 0
    | _ :: _ => Value (ratio (length (filter same_finger (filter same_hand pairs)))
                             (length (filter same_hand pairs)))
    end = Value fa ∧ 0 ≤ fa ≤ 1).
  { destruct (filter same_hand pairs) as [|x l] eqn:E.
    - by exists 0.
    - eexists. split; [done|]. split; [apply ratio_nonneg|].
      apply ratio_le_1, (length_filter same_finger (x :: l)). }
  destruct Hfinger as (fa & Hfa & Hrange).
  destruct (filter same_hand pairs) as [|x l] eqn:E.
  - injection Hfa as <-. eexists. split; [done|]. cbn.
    split_and!; try done; try apply ratio_nonneg.
    + apply ratio_le_1. etrans; [apply length_filter|]. lia.
    + pose proof (length_filter_and same_hand same_finger pairs) as Hle.
      rewrite E in Hle. cbn in Hle.
      assert (Hz : length (filter same_hand_and_finger pairs) = 0%nat)
        by (unfold same_hand_and_finger; lia).
      rewrite Hz. apply Qcle_refl.
  - injection Hfa as <-. eexists. split; [done|].
    cbn [m_note_accuracy m_hand_accuracy m_finger_accuracy].
    rewrite <- E in *.
    split_and!; try apply ratio_nonneg.
    + apply ratio_le_1. etrans; [apply length_filter|]. lia.
    + apply ratio_le_1. rewrite <- Hpairs. apply length_filter.
    + apply ratio_le_1, (length_filter same_finger).
    + apply ratio_mono, (length_filter_and same_hand same_finger).
Qed.
End scoring.

Lemma evaluate_config_cases (midi_path : midi_file)
    (ground_truth : list annotation) (config_path : option (gmap string yaml)) :
  (∀ p g, evaluate_config midi_path ground_truth config_path ≠
          Failure (LengthMismatch p g)) ∧
  (∀ mt, evaluate_config midi_path ground_truth config_path = Value mt →
         (0 ≤ m_note_accuracy mt ≤ 1)%Qc ∧ (0 ≤ m_hand_accuracy mt ≤ 1)%Qc ∧
         (0 ≤ m_finger_accuracy mt ≤ 1)%Qc ∧
         (m_note_accuracy mt ≤ m_hand_accuracy mt)%Qc) ∧
  (∀ midi_data, midi_path = Parsed midi_data →
     valid_config config_path = true →
     ∃ mt, evaluate_config midi_path ground_truth config_path = Value mt).
Proof.
  unfold evaluate_config.
  destruct midi_path as [| |midi_data]; cbn [load_midi mbind outcome_bind];
    [by split_and!..|].
  destruct (build_features_spec (extract_notes midi_data))
    as (gs & feats & _ & -> & _ & _).
  cbn [lift_result mbind outcome_bind].
  destruct (solve (note_of_feature <$> feats) config_path) as [anns|e] eqn:Es;
    cbn [lift_result mbind outcome_bind].
  - destruct (score_prediction_spec anns ground_truth) as (mt & -> & Hr).
    split_and!; [done | by intros ? [= <-] | by eexists].
  - split_and!; [done | done |]. intros ? _ Hvalid.
    destruct (solve_valid_positions (note_of_feature <$> feats) _ Hvalid)
      as (anns & Hsolve & _). congruence.
Qed.

Lemma evaluate_config_value (midi_data : pretty_midi)
    (ground_truth : list annotation) (config_path : option (gmap string yaml))
    (mt : metrics) :
  evaluate_config (Parsed midi_data) ground_truth config_path = Value mt →
  ∃ feats predicted,
    build_features (extract_notes midi_data) = Ok feats ∧
    solve (note_of_feature <$> feats) config_path = Ok predicted ∧
    if decide (Nat.min (length predicted) (length ground_truth) = 0%nat)
    then mt = {| m_note_accuracy := 0; m_hand_accuracy := 0;
                 m_finger_accuracy := 0 |}
    else
      note_accuracy
        (take (Nat.min (length predicted) (length ground_truth)) predicted)
        (take (Nat.min (length predicted) (length ground_truth)) ground_truth)
        = Value (m_note_accuracy mt) ∧
      hand_accuracy
        (take (Nat.min (length predicted) (length ground_truth)) predicted)
        (take (Nat.min (length predicted) (length ground_truth)) ground_truth)
        = Value (m_hand_accuracy mt) ∧
      finger_accuracy
        (take (Nat.min (length predicted) (length ground_truth)) predicted)
        (take (Nat.min (length predicted) (length ground_truth)) ground_truth)
        = Value (m_finger_accuracy mt).
Proof.
  unfold evaluate_config. cbn [load_midi mbind outcome_bind].
  destruct (build_features_spec (extract_notes midi_data))
    as (gs & feats & _ & -> & _ & _).
  cbn [lift_result mbind outcome_bind].
  destruct (solve (note_of_feature <$> feats) config_path) as [predicted|e]
    eqn:Esolve; cbn [lift_result mbind outcome_bind]; [|done].
  intros Hscore. exists feats, predicted. split_and!; [done..|].
  unfold score_prediction in Hscore. cbn zeta in Hscore.
  case_bool_decide as Hmin.
  - rewrite decide_True by done. by injection Hscore as <-.
  - rewrite decide_False by done.
    destruct (note_accuracy _ _) as [na|]; [|done].
    destruct (hand_accuracy _ _) as [ha|]; [|done].
    destruct (finger_accuracy _ _) as [fa|]; [|done].
    by injection Hscore as <-.
Qed.

(** X19: [evaluate_config] scores the prediction of the pipeline against
    the ground truth after cutting both to the shorter of the two: the three
    metrics are the note, hand and finger accuracy of the two prefixes, and
    all three are 0 when one of the lists is empty.  So it never raises the
    length-mismatch error of the accuracy functions; the metrics lie between
    0 and 1 with note accuracy at most hand accuracy; and for a readable MIDI
    file and a valid configuration it returns metrics. *)
Theorem evaluate_config_scores (midi_path : midi_file)
    (ground_truth : list annotation) (config_path : option (gmap string yaml)) :
  (∀ midi_data mt, midi_path = Parsed midi_data →
     evaluate_config midi_path ground_truth config_path = Value mt →
     ∃ feats predicted,
       build_features (extract_notes midi_data) = Ok feats ∧
       solve (note_of_feature <$> feats) config_path = Ok predicted ∧
       if decide (Nat.min (length predicted) (length ground_truth) = 0%nat)
       then mt = {| m_note_accuracy := 0; m_hand_accuracy := 0;
                    m_finger_accuracy := 0 |}
       else
         note_accuracy
           (take (Nat.min (length predicted) (length ground_truth)) predicted)
           (take (Nat.min (length predicted) (length ground_truth)) ground_truth)
           = Value (m_note_accuracy mt) ∧
         hand_accuracy
           (take (Nat.min (length predicted) (length ground_truth)) predicted)
           (take (Nat.min (length predicted) (length ground_truth)) ground_truth)
           = Value (m_hand_accuracy mt) ∧
         finger_accuracy
           (take (Nat.min (length predicted) (length ground_truth)) predicted)
           (take (Nat.min (length predicted) (length ground_truth)) ground_truth)
           = Value (m_finger_accuracy mt)) ∧
  (∀ p g, evaluate_config midi_path ground_truth config_path ≠
          Failure (LengthMismatch p g)) ∧
  (∀ mt, evaluate_config midi_path ground_truth config_path = Value mt →
         (0 ≤ m_note_accuracy mt ≤ 1)%Qc ∧ (0 ≤ m_hand_accuracy mt ≤ 1)%Qc ∧
         (0 ≤ m_finger_accuracy mt ≤ 1)%Qc ∧
         (m_note_accuracy mt ≤ m_hand_accuracy mt)%Qc) ∧
  (∀ midi_data, midi_path = Parsed midi_data →
     valid_config config_path = true →
     ∃ mt, evaluate_config midi_path ground_truth config_path = Value mt).
Proof.
  split; [|apply evaluate_config_cases].
  intros midi_data mt ->. apply evaluate_config_value.
Qed.

Lemma evaluate_config_scores_witness :
  ∃ mt, evaluate_config (Parsed sample_midi) sample_truth (Some sample_cfg) =
        Value mt.
Proof.
  destruct (evaluate_config_scores (Parsed sample_midi) sample_truth
              (Some sample_cfg)) as (_ & _ & _ & H).
  apply (H sample_midi); [done | by vm_compute].
Defined.

(** * The trainer *)

Section out_loops.
Context {A St : Type}.
Implicit Types (xs : list A) (body : St → A → outcome St).

Lemma outcome_bind_value {B C} (r : outcome B) (f : B → outcome C) c :
  r ≫= f = Value c → ∃ b, r = Value b ∧ f b = Value c.
Proof. destruct r as [b|e]; [eauto | discriminate]. Qed.

Lemma for_each_out_inv (P : St → Prop) xs body s s' :
  (∀ s x s', x ∈ xs → P s → body s x = Value s' → P s') →
  P s → for_each_out xs body s = Value s' → P s'.
Proof.
  revert s. induction xs as [|x xs IH]; intros s Hstep Hs Hrun; cbn in Hrun.
  - by injection Hrun as <-.
  - apply outcome_bind_value in Hrun as (s1 & Hb & Hrun).
    apply (IH s1); [|by eapply Hstep; [left| |]|done].
    intros. eapply Hstep; [by right|done..].
Qed.

Lemma for_each_out_total (P : St → Prop) xs body s :
  (∀ s x, x ∈ xs → P s → ∃ s', body s x = Value s' ∧ P s') →
  P s → ∃ s', for_each_out xs body s = Value s' ∧ P s'.
Proof.
  revert s. induction xs as [|x xs IH]; intros s Hstep Hs; [by exists s|].
  cbn [for_each_out]. destruct (Hstep s x) as (s1 & -> & Hs1); [by left|done|].
  cbn [mbind outcome_bind]. apply IH; [|done].
  intros. apply Hstep; [by right|done].
Qed.
End out_loops.

Section mean_facts.
Local Open Scope Qc_scope.

Lemma sum_range (l : list Qc) :
  Forall (λ a, 0 ≤ a ≤ 1) l →
  0 ≤ foldr Qcplus 0 l ≤ Qc_of_Z (Z.of_nat (length l)).
Proof.
  induction 1 as [|a l [Ha0 Ha1] _ [IH0 IH1]]; [done|].
  cbn [foldr length]. split; [by apply Qcplus_nonneg_nonneg|].
  rewrite Nat2Z.inj_succ, <- Z.add_1_l, Z2Qc_inj_add, Z2Qc_inj_1.
  by apply Qcplus_le_compat.
Qed.

Lemma mean_range (l : list Qc) :
  l ≠ [] → Forall (λ a, 0 ≤ a ≤ 1) l → 0 ≤ mean l ≤ 1.
Proof.
  intros Hne Hall. destruct (sum_range l Hall) as [H0 H1].
  assert (Hpos : 0 < Qc_of_Z (Z.of_nat (length l))).
  { apply Qc_of_nat_pos. destruct l; [done | cbn; lia]. }
  unfold mean, Qcdiv. split.
  - apply Qcmult_nonneg_nonneg; [done|]. by apply Qclt_le_weak, Qcinv_pos.
  - rewrite <- (Qcmult_inv_r (Qc_of_Z (Z.of_nat (length l))))
      by (by apply not_eq_sym, Qclt_not_eq).
    apply Qcmult_le_mono_nonneg_r; [|done]. by apply Qclt_le_weak, Qcinv_pos.
Qed.
End mean_facts.

Section train_facts.
Local Open Scope Qc_scope.
Variable training_pairs : list training_pair.

Lemma mean_accuracy_range src a :
  _mean_accuracy training_pairs src = Value a → 0 ≤ a ≤ 1.
Proof.
  unfold _mean_accuracy.
  intros (accs & Hrun & Hres)%outcome_bind_value.
  assert (Hall : Forall (λ a, 0 ≤ a ≤ 1) accs).
  { revert Hrun. apply for_each_out_inv; [|constructor].
    intros s pair s' _ Hs (mt & Hev & [= <-])%outcome_bind_value.
    apply Forall_app. split; [done|]. constructor; [|constructor].
    destruct (evaluate_config_cases (tp_midi_path pair) (tp_ground_truth pair)
                src) as (_ & Hr & _).
    by destruct (Hr mt Hev) as (? & _). }
  destruct accs as [|a0 accs]; injection Hres as <-; [done|].
  by apply mean_range.
Qed.

Lemma mean_accuracy_total src :
  readable training_pairs → valid_config src = true →
  ∃ a, _mean_accuracy training_pairs src = Value a.
Proof.
  intros Hread Hvalid. unfold _mean_accuracy.
  match goal with |- context [for_each_out _ ?b ?s] =>
    destruct (for_each_out_total (λ _, True) training_pairs b s)
      as (accs & -> & _)
  end; [|done|].
  - intros s pair Hpair _.
    unfold readable in Hread. rewrite list.Forall_forall in Hread.
    destruct (Hread pair Hpair) as (d & Hd).
    destruct (evaluate_config_cases (tp_midi_path pair) (tp_ground_truth pair) src)
      as (_ & _ & Htot).
    destruct (Htot d Hd Hvalid) as (mt & ->). by eexists.
  - cbn [mbind outcome_bind]. destruct accs; by eexists.
Qed.

Lemma weight_key_scalar (k : string) : k ∈ _WEIGHT_KEYS → k ∈ scalar_keys.
Proof.
  intros Hk. repeat (apply elem_of_cons in Hk as [->|Hk];
    [apply (bool_decide_unpack _); by vm_compute|]).
  by apply elem_of_nil in Hk.
Qed.

Lemma weight_key_not_span (k : string) :
  k ∈ _WEIGHT_KEYS → k ≠ "max_comfortable_span"%string.
Proof.
  intros Hk. repeat (apply elem_of_cons in Hk as [->|Hk]; [done|]).
  by apply elem_of_nil in Hk.
Qed.

Lemma valid_cfg_weight cfg k :
  valid_cfg cfg = true → k ∈ _WEIGHT_KEYS → ∃ q, cfg !! k = Some (YNum q).
Proof.
  unfold valid_cfg. intros [_ Hsc]%andb_prop Hk.
  rewrite forallb_forall in Hsc.
  specialize (Hsc k (proj1 (list_elem_of_In _ _) (weight_key_scalar k Hk))).
  unfold is_num in Hsc. destruct (cfg !! k) as [[q|]|]; try done. by exists q.
Qed.

Lemma valid_cfg_insert cfg k v :
  valid_cfg cfg = true → k ∈ _WEIGHT_KEYS →
  valid_cfg (<[k := YNum v]> cfg) = true.
Proof.
  unfold valid_cfg. intros [Hspan Hsc]%andb_prop Hk.
  apply andb_true_intro. split.
  - by rewrite lookup_insert_ne by (by apply weight_key_not_span).
  - rewrite forallb_forall in Hsc |- *. intros k' Hk'.
    destruct (decide (k = k')) as [->|Hne].
    + by rewrite lookup_insert_eq.
    + rewrite lookup_insert_ne by done. by apply Hsc.
Qed.

Lemma sweep_multipliers_inv cfg key orig acc bv ba :
  sweep_multipliers training_pairs cfg key orig acc = Value (bv, ba) →
  acc ≤ ba ∧
  ((bv = orig ∧ ba = acc) ∨
   _mean_accuracy training_pairs (Some (<[key := YNum (py_round6 bv)]> cfg)) =
     Value ba).
Proof.
  unfold sweep_multipliers.
  apply (for_each_out_inv (λ st : Qc * Qc,
    acc ≤ snd st ∧
    ((fst st = orig ∧ snd st = acc) ∨
     _mean_accuracy training_pairs
       (Some (<[key := YNum (py_round6 (fst st))]> cfg)) = Value (snd st)))).
  - intros [v a] mult [v' a'] _ [Hle Hlink]. cbn [fst snd] in *. cbn zeta.
    case_bool_decide; [by intros [= <- <-]|].
    intros (acc' & Hacc & Hres)%outcome_bind_value.
    case_bool_decide as Hlt; injection Hres as <- <-; [|done].
    split; [|by right]. eapply Qcle_trans; [exact Hle | by apply Qclt_le_weak].
  - cbn [fst snd]. split; [apply Qcle_refl | by left].
Qed.

(** What a sweep keeps invariant, relative to the configuration [cfg0] and
    the accuracy [acc0] it started from. *)
Lemma sweep_keys_inv cfg0 acc0 cfg acc improved :
  _mean_accuracy training_pairs (Some cfg0) = Value acc0 →
  sweep_keys training_pairs cfg0 acc0 = Value (cfg, acc, improved) →
  acc0 ≤ acc ∧
  (∀ k, k ∉ _WEIGHT_KEYS → cfg !! k = cfg0 !! k) ∧
  _mean_accuracy training_pairs (Some cfg) = Value acc ∧
  (improved = false → cfg = cfg0 ∧ acc = acc0).
Proof.
  intros Hmean. unfold sweep_keys.
  apply (for_each_out_inv (λ st : gmap string yaml * Qc * bool,
    acc0 ≤ snd (fst st) ∧
    (∀ k, k ∉ _WEIGHT_KEYS → fst (fst st) !! k = cfg0 !! k) ∧
    _mean_accuracy training_pairs (Some (fst (fst st))) = Value (snd (fst st)) ∧
    (snd st = false → fst (fst st) = cfg0 ∧ snd (fst st) = acc0))).
  - intros [[c a] i] key [[c' a'] i'] Hkey (Hle & Hfrozen & Hm & Hsame).
    cbn [fst snd] in *.
    intros (orig & _ & Hrest)%outcome_bind_value.
    apply outcome_bind_value in Hrest as ([bv ba] & Hsweep & Hres).
    apply sweep_multipliers_inv in Hsweep as [Hba Hlink].
    case_bool_decide as Hchanged; injection Hres as <- <- <-; [|done].
    split_and!.
    + by eapply Qcle_trans.
    + intros k Hk. rewrite lookup_insert_ne by (by intros ->). by apply Hfrozen.
    + by destruct Hlink as [[? _]|?].
    + done.
  - cbn [fst snd]. split_and!; [apply Qcle_refl | done | done | done].
Qed.

Lemma train_rounds_inv max_rounds : ∀ cfg0 acc0 cfg acc,
  _mean_accuracy training_pairs (Some cfg0) = Value acc0 →
  train_rounds training_pairs max_rounds cfg0 acc0 = Value (cfg, acc) →
  acc0 ≤ acc ∧
  (∀ k, k ∉ _WEIGHT_KEYS → cfg !! k = cfg0 !! k) ∧
  _mean_accuracy training_pairs (Some cfg) = Value acc.
Proof.
  induction max_rounds as [|n IH]; intros cfg0 acc0 cfg acc Hmean Hrun.
  - injection Hrun as <- <-. split_and!; [apply Qcle_refl | done | done].
  - cbn [train_rounds] in Hrun.
    apply outcome_bind_value in Hrun as ([[c a] i] & Hsweep & Hrun).
    destruct (sweep_keys_inv _ _ _ _ _ Hmean Hsweep) as (Hle & Hfr & Hm & _).
    destruct i.
    + destruct (IH _ _ _ _ Hm Hrun) as (Hle' & Hfr' & Hm').
      split_and!; [by eapply Qcle_trans | | done].
      intros k Hk. rewrite Hfr' by done. by apply Hfr.
    + by injection Hrun as <- <-.
Qed.

Lemma sweep_multipliers_total cfg key orig acc :
  readable training_pairs → valid_cfg cfg = true → key ∈ _WEIGHT_KEYS →
  ∃ r, sweep_multipliers training_pairs cfg key orig acc = Value r.
Proof.
  intros Hread Hvalid Hkey. unfold sweep_multipliers.
  match goal with |- context [for_each_out _ ?b ?s] =>
    destruct (for_each_out_total (λ _, True) _MULTIPLIERS b s) as (r & -> & _)
  end; [|done|by eexists].
  intros [v a] mult _ _. cbn zeta. case_bool_decide; [by eexists|].
  destruct (mean_accuracy_total
              (Some (<[key := YNum (py_round6 (orig * mult))]> cfg)) Hread)
    as (acc' & ->); [by apply valid_cfg_insert|].
  cbn [mbind outcome_bind]. case_bool_decide; by eexists.
Qed.

Lemma sweep_keys_total cfg acc :
  readable training_pairs → valid_cfg cfg = true →
  ∃ c a i, sweep_keys training_pairs cfg acc = Value (c, a, i) ∧
           valid_cfg c = true.
Proof.
  intros Hread Hvalid. unfold sweep_keys.
  match goal with |- context [for_each_out _ ?b ?s] =>
    destruct (for_each_out_total
                (λ st : gmap string yaml * Qc * bool,
                   valid_cfg (fst (fst st)) = true) _WEIGHT_KEYS b s)
      as ([[c a] i] & -> & Hc)
  end; [|done|by exists c, a, i].
  intros [[c a] i] key Hkey Hc. cbn [fst snd] in *.
  destruct (valid_cfg_weight c key Hc Hkey) as (q & Hq).
  unfold cfg_item. rewrite Hq. cbn [mbind result_bind py_float lift_result
    outcome_bind].
  destruct (sweep_multipliers_total c key q a Hread Hc Hkey) as ([bv ba] & ->).
  cbn [mbind outcome_bind]. case_bool_decide; eexists; (split; [done|]);
    cbn [fst snd]; [by apply valid_cfg_insert | done].
Qed.

Lemma train_rounds_total max_rounds : ∀ cfg acc,
  readable training_pairs → valid_cfg cfg = true →
  ∃ c a, train_rounds training_pairs max_rounds cfg acc = Value (c, a) ∧
         valid_cfg c = true.
Proof.
  induction max_rounds as [|n IH]; intros cfg acc Hread Hvalid.
  - by exists cfg, acc.
  - cbn [train_rounds].
    destruct (sweep_keys_total cfg acc Hread Hvalid) as (c & a & i & -> & Hc).
    cbn [mbind outcome_bind]. destruct i; [by apply IH | by exists c, a].
Qed.
End train_facts.

(** X20: what [train] returns is consistent: the learned accuracy is at
    least the baseline accuracy, both lie between 0 and 1, the baseline is
    the mean note accuracy of the base configuration and the learned accuracy
    that of the returned configuration, and the returned configuration
    differs from the base configuration in the six weight keys at most (the
    span table, the split pitch and any other key are as in the base). *)
Theorem train_result_is_consistent (training_pairs : list training_pair)
    (base_cfg : gmap string yaml) (max_rounds : nat) (r : train_result) :
  train training_pairs (Some base_cfg) max_rounds = Value r →
  (0 ≤ tr_baseline_accuracy r)%Qc ∧
  (tr_baseline_accuracy r ≤ tr_learned_accuracy r)%Qc ∧
  (tr_learned_accuracy r ≤ 1)%Qc ∧
  _mean_accuracy training_pairs (Some base_cfg) = Value (tr_baseline_accuracy r) ∧
  _mean_accuracy training_pairs (Some (tr_config r)) =
    Value (tr_learned_accuracy r) ∧
  (∀ k, k ∉ _WEIGHT_KEYS → tr_config r !! k = base_cfg !! k).
Proof.
  unfold train. destruct training_pairs as [|pair pairs] eqn:Ep; [done|].
  rewrite <- Ep. clear Ep pair pairs.
  intros (baseline & Hbase & Hrest)%outcome_bind_value.
  apply outcome_bind_value in Hrest as ([cfg acc] & Hrounds & [= <-]).
  cbn [tr_config tr_baseline_accuracy tr_learned_accuracy].
  destruct (train_rounds_inv _ _ _ _ _ _ Hbase Hrounds) as (Hle & Hfr & Hm).
  split_and!; try done.
  - by apply (mean_accuracy_range training_pairs (Some base_cfg)).
  - by apply (mean_accuracy_range training_pairs (Some cfg)).
Qed.

Lemma train_result_is_consistent_witness :
  (Q2Qc (1 # 2) ≤ Q2Qc (1 # 2))%Qc.
Proof.
  apply (train_result_is_consistent sample_pairs sample_cfg 1
           {| tr_config := sample_cfg; tr_baseline_accuracy := Q2Qc (1 # 2);
              tr_learned_accuracy := Q2Qc (1 # 2) |}).
  by vm_compute.
Defined.

(** X21: [train] fails at once with the no-training-pairs error on an empty
    training set, before the base configuration is looked at, and with the
    base-config-not-found error when the base file is missing; with readable
    MIDI files and a valid base configuration it returns a result for every
    number of rounds, and the configuration it returns is again a valid
    one. *)
Theorem train_runs_on_valid_input (training_pairs : list training_pair)
    (base_config_path : option (gmap string yaml)) (max_rounds : nat) :
  (training_pairs = [] →
     train training_pairs base_config_path max_rounds = Failure NoTrainingPairs) ∧
  (training_pairs ≠ [] → base_config_path = None →
     train training_pairs base_config_path max_rounds =
       Failure BaseConfigNotFound) ∧
  (training_pairs ≠ [] → readable training_pairs →
   valid_config base_config_path = true →
   ∃ r, train training_pairs base_config_path max_rounds = Value r ∧
        valid_cfg (tr_config r) = true).
Proof.
  split_and!.
  - by intros ->.
  - intros Hne ->. by destruct training_pairs.
  - intros Hne Hread Hvalid. unfold train.
    destruct training_pairs as [|pair pairs] eqn:Ep; [done|]. rewrite <- Ep in *.
    clear Ep pair pairs Hne.
    destruct base_config_path as [base_cfg|]; [|done].
    destruct (mean_accuracy_total training_pairs (Some base_cfg) Hread Hvalid)
      as (baseline & ->).
    cbn [mbind outcome_bind].
    destruct (train_rounds_total training_pairs max_rounds base_cfg baseline
                Hread Hvalid) as (c & a & -> & Hc).
    cbn [mbind outcome_bind]. by eexists.
Qed.

Lemma train_runs_on_valid_input_witness :
  ∃ r, train sample_pairs (Some sample_cfg) 2 = Value r ∧
       valid_cfg (tr_config r) = true.
Proof.
  destruct (train_runs_on_valid_input sample_pairs (Some sample_cfg) 2)
    as (_ & _ & H).
  apply H; [done | | by vm_compute].
  repeat constructor. by eexists.
Defined.

(** * More on the penalties and on what [solve] reads *)

(** X22: with non-negative weights the penalties grow with the excess: a
    wider interval never lowers [stretch_cost] (for the same fingers) and a
    larger chord never lowers [chord_penalty]; chords of up to five notes are
    free. *)
Theorem penalties_grow_with_excess (m : FingeringCostModel)
    (finger_a finger_b interval interval' chord_size chord_size' : Z) :
  nonneg_weights m → interval ≤ interval' → chord_size ≤ chord_size' →
  match stretch_cost m finger_a finger_b interval,
        stretch_cost m finger_a finger_b interval' with
  | Ok c, Ok c' => (c ≤ c')%Qc
  | Raise e, Raise e' => e = e'
  | _, _ => False
  end ∧
  (chord_penalty m chord_size ≤ chord_penalty m chord_size')%Qc ∧
  (chord_size ≤ 5 → chord_penalty m chord_size = 0%Qc).
Proof.
  intros Hnn Hiv Hcs. split_and!.
  - unfold stretch_cost. destruct (decide (finger_a = finger_b)); [done|].
    destruct (max_comfortable_span m) as [|span]; [done|].
    destruct (span !! pair_key finger_a finger_b) as [max_span|]; [|done].
    cbn zeta. repeat case_decide; try done; try lia.
    + apply Qc_scale_nonneg; [apply Qc_of_Z_nonneg; lia | apply (Hnn Stretch)].
    + apply Qcmult_le_mono_nonneg_r; [apply (Hnn Stretch)|].
      apply Qc_of_Z_mono. lia.
  - unfold chord_penalty. cbn zeta. repeat case_decide; try done; try lia.
    + apply Qc_scale_nonneg; [apply Qc_of_Z_nonneg; lia | apply (Hnn ChordPenalty)].
    + apply Qcmult_le_mono_nonneg_r; [apply (Hnn ChordPenalty)|].
      apply Qc_of_Z_mono. lia.
  - intros Hle. unfold chord_penalty. cbn zeta. rewrite decide_True; [done|lia].
Qed.

Lemma penalties_grow_with_excess_witness :
  (chord_penalty sample_model 6 ≤ chord_penalty sample_model 9)%Qc ∧
  (6 ≤ 5 → chord_penalty sample_model 6 = 0%Qc).
Proof.
  destruct (penalties_grow_with_excess sample_model 1 3 8 12 6 9
              sample_model_nonneg) as (_ & Hc & H0); [lia | lia |].
  by split.
Defined.

Section first_chord.
Variable ops : cost_ops.
Variables notes notes' : list note.
Hypothesis Hsame : same_but_first_chord notes notes'.

Lemma same_but_first_lookup i :
  match notes !! i, notes' !! i with
  | Some x, Some y =>
      n_pitch x = n_pitch y ∧ n_start x = n_start y ∧
      ((1 ≤ i)%nat → default 1 (n_chord_size x) = default 1 (n_chord_size y))
  | None, None => True
  | _, _ => False
  end.
Proof.
  destruct Hsame as [Hlen Hall].
  destruct (notes !! i) as [x|] eqn:Ex, (notes' !! i) as [y|] eqn:Ey.
  - by eapply Hall.
  - apply lookup_lt_Some in Ex. apply lookup_ge_None_1 in Ey. lia.
  - apply lookup_lt_Some in Ey. apply lookup_ge_None_1 in Ex. lia.
  - done.
Qed.

Lemma init_first_note_same tabs :
  init_first_note ops notes tabs = init_first_note ops notes' tabs.
Proof.
  unfold init_first_note, list_item. pose proof (same_but_first_lookup 0) as H0.
  destruct (notes !! 0%nat) as [x|], (notes' !! 0%nat) as [y|]; try done.
  destruct H0 as (Hp & _ & _). cbn [mbind result_bind]. by rewrite Hp.
Qed.

Lemma forward_step_same tabs i :
  (1 ≤ i)%nat →
  forward_step ops notes tabs i = forward_step ops notes' tabs i.
Proof.
  intros Hi1. unfold forward_step, list_item.
  pose proof (same_but_first_lookup i) as Hi.
  pose proof (same_but_first_lookup (i - 1)) as Hj.
  destruct (notes !! i) as [x|], (notes' !! i) as [y|]; try done.
  cbn [mbind result_bind].
  destruct (notes !! (i - 1)%nat) as [x'|], (notes' !! (i - 1)%nat) as [y'|];
    try done.
  destruct Hi as (Hp & _ & Hc), Hj as (Hp' & _ & _).
  cbn [mbind result_bind]. unfold scan_sources. by rewrite Hp, (Hc Hi1), Hp'.
Qed.

Lemma build_result_same path :
  build_result notes path = build_result notes' path.
Proof.
  unfold build_result.
  apply (for_each_Forall2
           (λ a b : nat * note, fst a = fst b ∧ n_pitch (snd a) = n_pitch (snd b) ∧
                                n_start (snd a) = n_start (snd b))).
  - apply Forall2_same_length_lookup. split.
    + rewrite !length_imap. apply Hsame.
    + intros i [j x] [j' y]. rewrite !list_lookup_imap.
      pose proof (same_but_first_lookup i) as Hi.
      destruct (notes !! i), (notes' !! i); try done.
      intros [= <- <-] [= <- <-]. cbn. tauto.
  - intros s [i x] [j y] (Hij & Hp & Hs). cbn [fst snd] in *. subst j.
    by rewrite Hp, Hs.
Qed.

Lemma solve_tables_same : solve_tables ops notes = solve_tables ops notes'.
Proof.
  destruct Hsame as [Hlen _]. unfold solve_tables. rewrite <- Hlen.
  rewrite init_first_note_same.
  destruct (init_first_note ops notes' _) as [tabs|]; [|done].
  cbn [mbind result_bind]. apply for_each_ext.
  intros s i Hi%elem_of_seq. apply forward_step_same. lia.
Qed.

Lemma solve_final_same : solve_final ops notes = solve_final ops notes'.
Proof.
  destruct Hsame as [Hlen _]. unfold solve_final.
  by rewrite solve_tables_same, <- Hlen.
Qed.

Lemma dp_min_cost_same : dp_min_cost ops notes = dp_min_cost ops notes'.
Proof. unfold dp_min_cost. by rewrite solve_final_same. Qed.

Lemma solve_dp_same : solve_dp ops notes = solve_dp ops notes'.
Proof.
  destruct Hsame as [Hlen _].
  unfold solve_dp, trace_path. rewrite solve_final_same, <- Hlen.
  destruct (solve_final ops notes') as [[bp [c s]]|]; [|done].
  cbn [mbind result_bind].
  destruct (for_each _ _ _) as [path|]; [|done].
  cbn [mbind result_bind]. apply build_result_same.
Qed.
End first_chord.

(** X23: the chord size of the first note never enters the DP: for every
    cost model the cost table, the backpointer table and the minimum cost
    are the same whatever chord size the first note carries, and so is what
    [solve] returns (annotations or error).  For a later note this fails:
    its chord size changes the costs (see [chord_size_enters_the_cost]). *)
Theorem first_chord_size_is_ignored (n0 : note) (rest : list note)
    (chord_size : option Z) (config_path : option (gmap string yaml)) :
  (∀ ops : cost_ops,
     solve_tables ops (n0 :: rest) =
       solve_tables ops ({| n_pitch := n_pitch n0; n_start := n_start n0;
                            n_chord_size := chord_size |} :: rest) ∧
     dp_min_cost ops (n0 :: rest) =
       dp_min_cost ops ({| n_pitch := n_pitch n0; n_start := n_start n0;
                           n_chord_size := chord_size |} :: rest)) ∧
  solve (n0 :: rest) config_path =
  solve ({| n_pitch := n_pitch n0; n_start := n_start n0;
            n_chord_size := chord_size |} :: rest) config_path.
Proof.
  assert (Hsame : same_but_first_chord (n0 :: rest)
            ({| n_pitch := n_pitch n0; n_start := n_start n0;
                n_chord_size := chord_size |} :: rest)).
  { split; [done|]. intros [|i] x y Hx Hy; cbn in Hx, Hy.
    - injection Hx as <-. injection Hy as <-. cbn. split_and!; [done..|lia].
    - rewrite Hx in Hy. by injection Hy as <-. }
  split.
  - intros ops. split; [by apply solve_tables_same | by apply dp_min_cost_same].
  - unfold solve, solve_with.
    destruct (build_cost_ops config_path) as [ops|]; [|done].
    cbn [mbind result_bind]. by apply solve_dp_same.
Qed.
